(** * zynthian-ui: the setBfree engine table and parser, the control screen's
    page navigation, and the zynmixer wrapper (cache, snapshots, MIDI learn).

    Shallow embedding of
      - zyngine/zynthian_engine_setbfree.py
      - zyngui/zynthian_gui_control.py
      - zyngine/zynthian_engine_audio_mixer.py
*)

From Stdlib Require Import ZArith Lia Ascii String List Bool Floats.
From stdpp Require Import base tactics option list gmap strings pretty.

Open Scope Z_scope.

(* ===================================================================== *)
(** ** Python runtime notions shared by the three modules *)
(* ===================================================================== *)

Module Py.

(** The exceptions the modelled code can meet. *)
Inductive exn := IndexError | KeyError | TypeError | AttributeError | RuntimeError.

(** [l[i]] on a Python list: a negative index counts from the end, anything
    outside [-len, len) raises IndexError ([None]). *)
Definition list_index {A : Type} (l : list A) (i : Z) : option A :=
  if 0 <=? i then l !! Z.to_nat i
  else if - Z.of_nat (length l) <=? i then l !! Z.to_nat (Z.of_nat (length l) + i)
  else None.

(** The position [l[i]] resolves to, when there is one. *)
Definition list_slot {A : Type} (l : list A) (i : Z) : option nat :=
  if 0 <=? i then
    if i <? Z.of_nat (length l) then Some (Z.to_nat i) else None
  else if - Z.of_nat (length l) <=? i then Some (Z.to_nat (Z.of_nat (length l) + i))
  else None.

(** [range(n)] *)
Definition range (n : nat) : list Z := Z.of_nat <$> seq 0 n.

End Py.

(* ===================================================================== *)
(** ** zynthian_engine_setbfree *)
(* ===================================================================== *)

Module Setbfree.

(** A controller entry of [map_list] is a 4-tuple
    [(name, cc, default, max-or-options)]; the last two components are an
    int or a str. *)
Inductive cfg_value := CInt (n : Z) | CStr (s : string).

Record ctrl_entry := Ctrl {
  ctrl_name : string;
  ctrl_cc : Z;
  ctrl_default : cfg_value;
  ctrl_options : cfg_value
}.

(** A screen of [map_list]: [(controllers, 0, title)]. *)
Definition screen : Type := list ctrl_entry * Z * string.

Definition drawbar_steps : cfg_value := CStr "0|1|2|3|4|5|6|7|8".

Definition map_list : list screen :=
  [ ([ Ctrl "volume" 1 (CInt 96) (CInt 127);
       Ctrl "percussion on/off" 80 (CStr "off") (CStr "off|on");
       Ctrl "rotary speed" 91 (CStr "off") (CStr "off|chr|trm|chr");
       Ctrl "vibrato on/off" 92 (CStr "off") (CStr "off|on") ], 0, "main"%string);
    ([ Ctrl "16" 70 (CStr "8") drawbar_steps;
       Ctrl "5 1/3" 71 (CStr "8") drawbar_steps;
       Ctrl "8" 72 (CStr "8") drawbar_steps;
       Ctrl "4" 73 (CStr "8") drawbar_steps ], 0, "drawbars low"%string);
    ([ Ctrl "2 2/3" 74 (CStr "8") drawbar_steps;
       Ctrl "2" 75 (CStr "8") drawbar_steps;
       Ctrl "1 3/5" 76 (CStr "8") drawbar_steps;
       Ctrl "1 1/3" 77 (CStr "8") drawbar_steps ], 0, "drawbars hi"%string);
    ([ Ctrl "drawbar 1" 78 (CStr "8") drawbar_steps;
       Ctrl "vibrato selector" 83 (CStr "c3") (CStr "v1|v2|v3|c1|c2|c3");
       Ctrl "percussion decay" 81 (CStr "slow") (CStr "slow|fast");
       Ctrl "percussion harmonic" 82 (CStr "3rd") (CStr "2nd|3rd") ], 0,
     "percussion & vibrato"%string);
    ([ Ctrl "overdrive on/off" 23 (CStr "off") (CStr "off|on");
       Ctrl "overdrive character" 93 (CInt 64) (CInt 127);
       Ctrl "overdrive inputgain" 21 (CInt 64) (CInt 127);
       Ctrl "overdrive outputgain" 22 (CInt 64) (CInt 127) ], 0, "overdrive"%string) ].

(** [default_ctrl_config=map_list[0][0]] *)
Definition default_ctrl_config : list ctrl_entry :=
  match Py.list_index map_list 0 with
  | Some (ctrls, _, _) => ctrls
  | None => []
  end.

(** All controller entries of the table, screen after screen. *)
Definition all_ctrls : list ctrl_entry := concat ((λ s : screen, s.1.1) <$> map_list).

(** *** The program-list parser *)

(** Text is a list of characters (code points below 256); a line keeps its
    newline, as [readlines] returns it. *)
Definition text : Type := list ascii.

Definition dquote : ascii := Eval cbv in ascii_of_nat 34.
Definition newline : ascii := Eval cbv in ascii_of_nat 10.

(** [\d] on a str pattern, restricted to the modelled code points. *)
Definition is_digit (c : ascii) : bool :=
  let n := nat_of_ascii c in (48 <=? n)%nat && (n <=? 57)%nat.

(** [\s] on a str pattern: Python's Unicode whitespace, which below 256 is
    TAB..CR, FS..US, SPACE, NEL and NBSP. *)
Definition is_space (c : ascii) : bool :=
  let n := nat_of_ascii c in
  ((9 <=? n)%nat && (n <=? 13)%nat) || ((28 <=? n)%nat && (n <=? 32)%nat)
  || (n =? 133)%nat || (n =? 160)%nat.

(** The class of every character but the double quote. *)
Definition not_dquote (c : ascii) : bool := negb (Ascii.eqb c dquote).

(** A greedy run of a character class: the matched run and the rest. *)
Fixpoint span (p : ascii → bool) (s : text) : text * text :=
  match s with
  | [] => ([], [])
  | c :: s' => if p c then let '(a, b) := span p s' in (c :: a, b) else ([], s)
  end.

(** A literal piece of the pattern: the rest after it, if the text starts
    with it. *)
Fixpoint literal (lit s : text) : option text :=
  match lit, s with
  | [], _ => Some s
  | _ :: _, [] => None
  | a :: lit', c :: s' => if Ascii.eqb a c then literal lit' s' else None
  end.

Definition name_eq_quote : text := list_ascii_of_string "name=" ++ [dquote].

(** [ptrn.match(line)] for the pattern
      ^([\d]+)[\s]*\{[\s]*name\=Q([^Q]+)Q         (Q the double quote);
    the result is [(m.group(1), m.group(2))]. Each run is followed by a
    character outside its class, so the greedy runs are the only match. *)
Definition ptrn_match (line : text) : option (text * text) :=
  let '(g1, r) := span is_digit line in
  if bool_decide (g1 = []) then None else
  let '(_, r) := span is_space r in
  r ← literal ["{"%char] r;
  let '(_, r) := span is_space r in
  r ← literal name_eq_quote r;
  let '(g2, r) := span not_dquote r in
  if bool_decide (g2 = []) then None else
  _ ← literal [dquote] r;
  Some (g1, g2).

Definition digit_value (c : ascii) : Z := Z.of_nat (nat_of_ascii c) - 48.

(** [int(s)] for a string of digits. *)
Definition int_of_digits (ds : text) : Z :=
  fold_left (λ acc c, 10 * acc + digit_value c) ds 0.


Definition carriage_return : ascii := Eval cbv in ascii_of_nat 13.

(** [int(s)] for [m.group(1)], a run of digits. From Python 3.11 on (and in
    the security releases of 3.7 to 3.10) the conversion raises ValueError
    when the run has more than [sys.get_int_max_str_digits()] digits,
    leading zeros counted; that limit is 4300 unless it was changed, where
    0 switches it off. [None] is the ValueError. *)
Definition int_of_str (max_str_digits : nat) (s : text) : option Z :=
  if (0 <? max_str_digits)%nat && (max_str_digits <? length s)%nat then None
  else Some (int_of_digits s).

(** What [open(fpath)] hands on of the characters of the file: in text
    mode with universal newlines a CR LF pair and a CR alone are read as
    LF. [after_cr] tells that the character before was a CR. *)
Fixpoint universal_newlines_from (after_cr : bool) (s : text) : text :=
  match s with
  | [] => []
  | c :: s' =>
      if Ascii.eqb c carriage_return then newline :: universal_newlines_from true s'
      else if Ascii.eqb c newline && after_cr then universal_newlines_from false s'
      else c :: universal_newlines_from false s'
  end.

Definition universal_newlines (s : text) : text := universal_newlines_from false s.

(** The cutting of [f.readlines()]: after each newline; a last line
    without one is kept. *)
Fixpoint readlines_from (cur s : text) : list text :=
  match s with
  | [] => match cur with [] => [] | _ => [cur] end
  | c :: s' =>
      if Ascii.eqb c newline then (cur ++ [c]) :: readlines_from [] s'
      else readlines_from (cur ++ [c]) s'
  end.

(** [f.readlines()] on a file opened by [open(fpath)]; [content] is the
    decoded text of the file. *)
Definition readlines (content : text) : list text :=
  readlines_from [] (universal_newlines content).

(** An element of [pgm_list]: [(i, [0,0,prg], title)]. *)
Definition pgm_entry : Type := Z * list Z * text.

(** The loop of [load_pgm_list]; what [int] raises is dropped by the bare
    [except], and the line with it. *)
Fixpoint load_pgm_loop (max_str_digits : nat) (lines : list text) (i : Z)
  (pgm_list : list pgm_entry) : list pgm_entry :=
  match lines with
  | [] => pgm_list
  | line :: lines' =>
      match ptrn_match line with
      | Some (g1, g2) =>
          match int_of_str max_str_digits g1 with
          | Some n =>
              let prg := n - 1 in
              let title := g2 in
              if 0 <=? prg
              then load_pgm_loop max_str_digits lines' (i + 1)
                     (pgm_list ++ [(i, [0; 0; prg], title)])
              else load_pgm_loop max_str_digits lines' i pgm_list
          | None => load_pgm_loop max_str_digits lines' i pgm_list
          end
      | None => load_pgm_loop max_str_digits lines' i pgm_list
      end
  end.

(** [load_pgm_list]; [max_str_digits] is the interpreter's
    [sys.get_int_max_str_digits()], 0 where there is no limit. *)
Definition load_pgm_list (max_str_digits : nat) (content : text) : list pgm_entry :=
  load_pgm_loop max_str_digits (readlines content) 0 [].

(** What the claim calls a matching line: digits, optional whitespace, an
    opening brace, optional whitespace, name= and the quoted title, anything after. *)
Definition pgm_line (line : text) (n : Z) (title : text) : Prop :=
  ∃ ds ws1 ws2 rest,
    line = ds ++ ws1 ++ ["{"%char] ++ ws2 ++ name_eq_quote ++ title ++ [dquote] ++ rest
    ∧ ds ≠ [] ∧ Forall (λ c, is_digit c = true) ds
    ∧ Forall (λ c, is_space c = true) ws1
    ∧ Forall (λ c, is_space c = true) ws2
    ∧ title ≠ [] ∧ (dquote ∉ title)
    ∧ n = int_of_digits ds.


(** The same with the run of digits named. *)
Definition pgm_digits (line ds title : text) : Prop :=
  ∃ ws1 ws2 rest,
    line = ds ++ ws1 ++ ["{"%char] ++ ws2 ++ name_eq_quote ++ title ++ [dquote] ++ rest
    ∧ ds ≠ [] ∧ Forall (λ c, is_digit c = true) ds
    ∧ Forall (λ c, is_space c = true) ws1
    ∧ Forall (λ c, is_space c = true) ws2
    ∧ title ≠ [] ∧ (dquote ∉ title).

(** A run of digits that [int] converts under the limit. *)
Definition convertible (max_str_digits : nat) (ds : text) : Prop :=
  max_str_digits = 0%nat ∨ (length ds ≤ max_str_digits)%nat.

(** What one line contributes: a numbered program, or nothing. *)
Definition line_emits (max_str_digits : nat) (line : text) (e : option (Z * text)) : Prop :=
  match e with
  | Some (n, title) =>
      ∃ ds, pgm_digits line ds title ∧ n = int_of_digits ds ∧ 1 ≤ n
            ∧ convertible max_str_digits ds
  | None =>
      ∀ ds title, pgm_digits line ds title →
        int_of_digits ds = 0 ∨ ¬ convertible max_str_digits ds
  end.

Definition numbered (progs : list (Z * text)) : list pgm_entry :=
  imap (λ i '(n, title), (Z.of_nat i, [0; 0; n - 1], title)) progs.

(** The characters of a file as a reader with universal newlines sees
    them: CR LF and a CR not followed by LF are each one newline. *)
Inductive read_newlines : text → text → Prop :=
  | read_nil : read_newlines [] []
  | read_crlf s t :
      read_newlines s t →
      read_newlines (carriage_return :: newline :: s) (newline :: t)
  | read_cr s t :
      head s ≠ Some newline → read_newlines s t →
      read_newlines (carriage_return :: s) (newline :: t)
  | read_char c s t :
      c ≠ carriage_return → read_newlines s t → read_newlines (c :: s) (c :: t).

(** A text cut into its lines: each line runs up to and including the
    next newline; what follows the last newline, if anything, is a line
    without one. *)
Inductive split_lines : text → list text → Prop :=
  | split_nil : split_lines [] []
  | split_last line : line ≠ [] → newline ∉ line → split_lines line [line]
  | split_cons body rest lines :
      newline ∉ body → split_lines rest lines →
      split_lines (body ++ newline :: rest) ((body ++ [newline]) :: lines).

(** The lines of a file. *)
Definition file_lines (content : text) (lines : list text) : Prop :=
  ∃ chars, read_newlines content chars ∧ split_lines chars lines.

(** *** Facts about the pieces of the matcher *)

(** Where a greedy run must stop: at the end, or before a character
    outside the class. *)
Definition stops (p : ascii → bool) (b : text) : Prop :=
  match b with [] => True | c :: _ => p c = false end.

Lemma span_split p s a b :
  span p s = (a, b) → s = a ++ b ∧ Forall (λ c, p c = true) a ∧ stops p b.
Proof.
  revert a b. induction s as [|c s IH]; intros a b; simpl.
  - intros [= <- <-]. by repeat split.
  - destruct (p c) eqn:Hc.
    + destruct (span p s) as [a' b'] eqn:Hs. intros [= <- <-].
      destruct (IH a' b' eq_refl) as (-> & Ha & Hb).
      repeat split; [by constructor | done].
    + intros [= <- <-]. by repeat split.
Qed.

Lemma span_greedy p a b :
  Forall (λ c, p c = true) a → stops p b → span p (a ++ b) = (a, b).
Proof.
  intros Ha Hb. induction Ha as [|c a Hc _ IH]; simpl.
  - destruct b as [|c b]; [done|]. simpl in *. by rewrite Hb.
  - by rewrite Hc, IH.
Qed.

Lemma stops_after_run (p q : ascii → bool) ws c r :
  (∀ x, q x = true → p x = false) →
  Forall (λ x, q x = true) ws → p c = false → stops p (ws ++ c :: r).
Proof. intros Hpq Hws Hc. destruct Hws; simpl; auto. Qed.

Lemma literal_Some lit s r : literal lit s = Some r ↔ s = lit ++ r.
Proof.
  revert s. induction lit as [|a lit IH]; intros s; simpl.
  - split; [by intros [= ->] | by intros ->].
  - destruct s as [|c s]; [by split|].
    destruct (Ascii.eqb a c) eqn:Hac.
    + apply Ascii.eqb_eq in Hac as ->. rewrite IH. split; [by intros -> | by intros [= ->]].
    + apply Ascii.eqb_neq in Hac. split; [done | by intros [= -> _]].
Qed.

Lemma literal_app lit r : literal lit (lit ++ r) = Some r.
Proof. by apply literal_Some. Qed.

Lemma space_not_digit c : is_space c = true → is_digit c = false.
Proof. by destruct c as [[] [] [] [] [] [] [] []]. Qed.

Lemma not_dquote_Forall (t : text) :
  dquote ∉ t ↔ Forall (λ c, not_dquote c = true) t.
Proof.
  rewrite Forall_forall. unfold not_dquote. split.
  - intros Hn c Hc. apply negb_true_iff, Ascii.eqb_neq. by intros ->.
  - intros Hall Hin. apply Hall in Hin.
    by rewrite Ascii.eqb_refl in Hin.
Qed.

(** The matcher finds every line of the claimed shape, with these groups. *)
Lemma ptrn_match_complete line n title :
  pgm_line line n title →
  ∃ ds, ptrn_match line = Some (ds, title) ∧ n = int_of_digits ds.
Proof.
  intros (ds & ws1 & ws2 & rest & -> & Hds & Hdig & Hws1 & Hws2 & Ht & Hq & ->).
  exists ds. split; [|done]. unfold ptrn_match.
  rewrite (span_greedy is_digit ds); [|done|].
  2:{ apply (stops_after_run _ is_space); auto using space_not_digit. }
  rewrite bool_decide_eq_false_2 by done.
  rewrite (span_greedy is_space ws1); [|done|done].
  rewrite literal_app. cbn [mbind option_bind].
  rewrite (span_greedy is_space ws2); [|done|reflexivity].
  rewrite literal_app. cbn [mbind option_bind].
  rewrite (span_greedy not_dquote title); [|by apply not_dquote_Forall|reflexivity].
  rewrite bool_decide_eq_false_2 by done.
  by rewrite literal_app.
Qed.

(** What the matcher accepts has the claimed shape. *)
Lemma ptrn_match_sound line g1 g2 :
  ptrn_match line = Some (g1, g2) → pgm_line line (int_of_digits g1) g2.
Proof.
  unfold ptrn_match.
  destruct (span is_digit line) as [ds r0] eqn:H0.
  case_bool_decide as Hds; [done|].
  destruct (span is_space r0) as [ws1 r1] eqn:H1.
  destruct (literal ["{"%char] r1) as [r2|] eqn:H2; cbn [mbind option_bind]; [|done].
  destruct (span is_space r2) as [ws2 r3] eqn:H3.
  destruct (literal name_eq_quote r3) as [r4|] eqn:H4; cbn [mbind option_bind]; [|done].
  destruct (span not_dquote r4) as [t r5] eqn:H5.
  case_bool_decide as Ht; [done|].
  destruct (literal [dquote] r5) as [r6|] eqn:H6; cbn [mbind option_bind]; [|done].
  intros [= <- <-].
  apply span_split in H0 as (-> & Hdig & _).
  apply span_split in H1 as (-> & Hws1 & _).
  apply span_split in H3 as (-> & Hws2 & _).
  apply span_split in H5 as (-> & Hnq & _).
  apply literal_Some in H2 as ->. apply literal_Some in H4 as ->.
  apply literal_Some in H6 as ->.
  exists ds, ws1, ws2, r6. repeat split; try done.
  by apply not_dquote_Forall.
Qed.

Lemma int_of_digits_nonneg_from ds acc :
  0 ≤ acc → Forall (λ c, is_digit c = true) ds →
  0 ≤ fold_left (λ a c, 10 * a + digit_value c) ds acc.
Proof.
  intros Hacc Hds. revert acc Hacc.
  induction Hds as [|c ds Hc _ IH]; intros acc Hacc; simpl; [done|].
  apply IH. unfold is_digit in Hc. apply andb_true_iff in Hc as [H1 H2].
  apply Nat.leb_le in H1. unfold digit_value. lia.
Qed.

Lemma int_of_digits_nonneg ds :
  Forall (λ c, is_digit c = true) ds → 0 ≤ int_of_digits ds.
Proof. by apply int_of_digits_nonneg_from. Qed.

(** A line of the claimed shape is matched with exactly its run of digits
    and its title as groups. *)
Lemma ptrn_match_groups ds ws1 ws2 title rest :
  ds ≠ [] → Forall (λ c, is_digit c = true) ds →
  Forall (λ c, is_space c = true) ws1 → Forall (λ c, is_space c = true) ws2 →
  title ≠ [] → dquote ∉ title →
  ptrn_match (ds ++ ws1 ++ ["{"%char] ++ ws2 ++ name_eq_quote ++ title ++ [dquote] ++ rest)
  = Some (ds, title).
Proof.
  intros Hds Hdig Hws1 Hws2 Ht Hq. unfold ptrn_match.
  rewrite (span_greedy is_digit ds); [|done|].
  2:{ apply (stops_after_run _ is_space); auto using space_not_digit. }
  rewrite bool_decide_eq_false_2 by done.
  rewrite (span_greedy is_space ws1); [|done|done].
  rewrite literal_app. cbn [mbind option_bind].
  rewrite (span_greedy is_space ws2); [|done|reflexivity].
  rewrite literal_app. cbn [mbind option_bind].
  rewrite (span_greedy not_dquote title); [|by apply not_dquote_Forall|reflexivity].
  rewrite bool_decide_eq_false_2 by done.
  by rewrite literal_app.
Qed.

Lemma pgm_line_nonneg line n title : pgm_line line n title → 0 ≤ n.
Proof.
  intros (ds & _ & _ & _ & _ & _ & Hdig & _ & _ & _ & _ & ->).
  by apply int_of_digits_nonneg.
Qed.


(** *** Lines *)

Lemma universal_newlines_read s :
  read_newlines s (universal_newlines_from false s)
  ∧ read_newlines (carriage_return :: s) (newline :: universal_newlines_from true s).
Proof.
  induction s as [|c s [IH1 IH2]]; simpl.
  - split; [constructor|]. apply read_cr; [done | constructor].
  - destruct (Ascii.eqb c carriage_return) eqn:Hcr.
    + apply Ascii.eqb_eq in Hcr as ->. split; [done|].
      apply read_cr; [done | done].
    + apply Ascii.eqb_neq in Hcr.
      destruct (Ascii.eqb c newline) eqn:Hnl; simpl.
      * apply Ascii.eqb_eq in Hnl as ->. split; [by apply read_char|].
        by apply read_crlf.
      * apply Ascii.eqb_neq in Hnl. split; [by apply read_char|].
        apply read_cr; [simpl; congruence | by apply read_char].
Qed.

Lemma readlines_from_split cur s :
  newline ∉ cur → split_lines (cur ++ s) (readlines_from cur s).
Proof.
  revert cur. induction s as [|c s IH]; intros cur Hcur; simpl.
  - rewrite app_nil_r. destruct cur as [|x cur]; [constructor|].
    by apply split_last.
  - destruct (Ascii.eqb c newline) eqn:Hnl.
    + apply Ascii.eqb_eq in Hnl as ->. apply split_cons; [done|].
      apply (IH []). by intros ?%elem_of_nil.
    + apply Ascii.eqb_neq in Hnl.
      replace (cur ++ c :: s) with ((cur ++ [c]) ++ s) by (by rewrite <- app_assoc).
      apply IH. intros [Hin|Hin%list_elem_of_singleton]%elem_of_app; [done | congruence].
Qed.

(** [readlines] returns the lines of the file. *)
Lemma readlines_file_lines content : file_lines content (readlines content).
Proof.
  exists (universal_newlines content). split.
  - apply universal_newlines_read.
  - apply (readlines_from_split []). by intros ?%elem_of_nil.
Qed.

(** *** The loop *)

Lemma ptrn_match_digits line ds title :
  ptrn_match line = Some (ds, title) ↔ pgm_digits line ds title.
Proof.
  split.
  - unfold ptrn_match.
    destruct (span is_digit line) as [g1 r0] eqn:H0.
    case_bool_decide as Hds; [done|].
    destruct (span is_space r0) as [ws1 r1] eqn:H1.
    destruct (literal ["{"%char] r1) as [r2|] eqn:H2; cbn [mbind option_bind]; [|done].
    destruct (span is_space r2) as [ws2 r3] eqn:H3.
    destruct (literal name_eq_quote r3) as [r4|] eqn:H4; cbn [mbind option_bind]; [|done].
    destruct (span not_dquote r4) as [t r5] eqn:H5.
    case_bool_decide as Ht; [done|].
    destruct (literal [dquote] r5) as [r6|] eqn:H6; cbn [mbind option_bind]; [|done].
    intros [= <- <-].
    apply span_split in H0 as (-> & Hdig & _).
    apply span_split in H1 as (-> & Hws1 & _).
    apply span_split in H3 as (-> & Hws2 & _).
    apply span_split in H5 as (-> & Hnq & _).
    apply literal_Some in H2 as ->. apply literal_Some in H4 as ->.
    apply literal_Some in H6 as ->.
    exists ws1, ws2, r6. repeat split; try done.
    by apply not_dquote_Forall.
  - intros (ws1 & ws2 & rest & -> & Hds & Hdig & Hws1 & Hws2 & Ht & Hq).
    by apply ptrn_match_groups.
Qed.

Lemma pgm_digits_line line ds title :
  pgm_digits line ds title → pgm_line line (int_of_digits ds) title.
Proof.
  intros (ws1 & ws2 & rest & Hl & H). exists ds, ws1, ws2, rest. by repeat split; try apply H.
Qed.

Lemma classic_convertible max_str_digits ds :
  convertible max_str_digits ds ∨ ¬ convertible max_str_digits ds.
Proof. unfold convertible. lia. Qed.

Lemma int_of_str_convertible max_str_digits ds :
  (convertible max_str_digits ds → int_of_str max_str_digits ds = Some (int_of_digits ds))
  ∧ (¬ convertible max_str_digits ds → int_of_str max_str_digits ds = None).
Proof.
  unfold convertible, int_of_str.
  destruct (Nat.ltb_spec 0 max_str_digits), (Nat.ltb_spec max_str_digits (length ds));
    simpl; split; intros Hc; try done; try lia.
  all: destruct Hc; lia.
Qed.

(** What a line adds to the list: the leading integer and the title. *)
Definition emitted_of (max_str_digits : nat) (line : text) : option (Z * text) :=
  match ptrn_match line with
  | Some (g1, g2) =>
      match int_of_str max_str_digits g1 with
      | Some n => if 1 <=? n then Some (n, g2) else None
      | None => None
      end
  | None => None
  end.

Lemma load_pgm_loop_numbered max_str_digits lines i acc :
  load_pgm_loop max_str_digits lines i acc
  = acc ++ imap (λ k '(n, title), (i + Z.of_nat k, [0; 0; n - 1], title))
             (omap (emitted_of max_str_digits) lines).
Proof.
  revert i acc. induction lines as [|line lines IH]; intros i acc; simpl.
  - by rewrite app_nil_r.
  - unfold emitted_of at 1.
    destruct (ptrn_match line) as [[g1 g2]|]; [|apply IH].
    destruct (int_of_str max_str_digits g1) as [n|]; [|apply IH].
    destruct (Z.leb_spec 0 (n - 1)) as [Hp|Hp].
    + rewrite (proj2 (Z.leb_le 1 _)) by lia. simpl.
      rewrite IH, <- app_assoc. simpl. rewrite Z.add_0_r. do 2 f_equal.
      apply imap_ext. intros k [n' t] _. simpl. do 2 f_equal. lia.
    + rewrite (proj2 (Z.leb_gt 1 _)) by lia. apply IH.
Qed.

Lemma load_pgm_list_numbered max_str_digits content :
  load_pgm_list max_str_digits content
  = numbered (omap (emitted_of max_str_digits) (readlines content)).
Proof.
  unfold load_pgm_list, numbered. rewrite load_pgm_loop_numbered. simpl.
  apply imap_ext. by intros k [n t] _.
Qed.

Lemma emitted_of_emits max_str_digits line :
  line_emits max_str_digits line (emitted_of max_str_digits line).
Proof.
  unfold emitted_of, line_emits.
  destruct (ptrn_match line) as [[g1 g2]|] eqn:Hm.
  - apply ptrn_match_digits in Hm as Hd.
    destruct (int_of_str max_str_digits g1) as [n|] eqn:Hint.
    + assert (convertible max_str_digits g1 ∧ n = int_of_digits g1) as [Hc ->].
      { destruct (classic_convertible max_str_digits g1) as [Hc|Hc].
        - apply (int_of_str_convertible max_str_digits g1) in Hc as Hs.
          rewrite Hint in Hs. by injection Hs as ->.
        - apply (int_of_str_convertible max_str_digits g1) in Hc. congruence. }
      destruct (Z.leb_spec 1 (int_of_digits g1)) as [Hn|Hn].
      * by exists g1.
      * intros ds title Hl. apply ptrn_match_digits in Hl. rewrite Hm in Hl.
        injection Hl as <- <-. left.
        pose proof (pgm_line_nonneg _ _ _ (pgm_digits_line _ _ _ Hd)). lia.
    + intros ds title Hl. apply ptrn_match_digits in Hl. rewrite Hm in Hl.
      injection Hl as <- <-. right. intros Hc.
      apply (int_of_str_convertible max_str_digits g1) in Hc. congruence.
  - intros ds title Hl. apply ptrn_match_digits in Hl. congruence.
Qed.

(** *** The program list of a small bank file *)

Definition str (s : string) : text := list_ascii_of_string s.

(** Four lines, the second ended by CR LF and the third by a CR alone:
    program 2 named Jazz, program 0 (dropped), a comment, and program 10
    named Full organ with no space before the brace. *)
Definition sample_bank : text :=
  str "2 { name=" ++ [dquote] ++ str "Jazz" ++ [dquote] ++ str ", drawbars=888 }" ++ [newline]
  ++ str "0 {name=" ++ [dquote] ++ str "none" ++ [dquote] ++ str "}"
  ++ [carriage_return; newline]
  ++ str "# comment" ++ [carriage_return]
  ++ str "10{name=" ++ [dquote] ++ str "Full organ" ++ [dquote] ++ str "}".

Example readlines_sample : length (readlines sample_bank) = 4%nat.
Proof. reflexivity. Qed.

Example load_pgm_list_sample :
  load_pgm_list 4300 sample_bank
  = [ (0, [0; 0; 1], str "Jazz"); (1, [0; 0; 9], str "Full organ") ].
Proof. reflexivity. Qed.

(** C4, as the code has it: for every file content, [load_pgm_list]
    returns one tuple per line of the file (as read with universal
    newlines) of the shape digits, optional whitespace, brace, optional
    whitespace, name= and a quoted title, whose leading integer n is at
    least 1 and whose run of digits [int] converts, that is, is not longer
    than the interpreter's limit when there is one; the tuples come in line
    order as (i, [0, 0, n-1], title), numbered from 0; every other line,
    also a matching one with leading integer 0 or with too long a run of
    digits, gives nothing. *)
Theorem load_pgm_list_spec (max_str_digits : nat) (content : text) :
  ∃ (lines : list text) (emitted : list (option (Z * text))),
    file_lines content lines
    ∧ Forall2 (line_emits max_str_digits) lines emitted
    ∧ load_pgm_list max_str_digits content = numbered (omap id emitted).
Proof.
  exists (readlines content), (emitted_of max_str_digits <$> readlines content).
  split; [apply readlines_file_lines|]. split.
  - apply Forall2_fmap_r, Forall_Forall2_diag, Forall_forall.
    intros line _. apply emitted_of_emits.
  - rewrite load_pgm_list_numbered. f_equal.
    induction (readlines content) as [|l ls IH]; [done|].
    csimpl. destruct (emitted_of max_str_digits l); csimpl; congruence.
Qed.

(** A line whose leading integer has 4301 digits. *)
Definition long_digits : text := "1"%char :: replicate 4300 "0"%char.

Definition long_line : text :=
  long_digits ++ str "{name=" ++ [dquote] ++ str "A" ++ [dquote] ++ str "}" ++ [newline].

(** Under the default limit of 4300 digits a line of the claimed shape
    with leading integer 10^4300 gives no tuple: [int] raises, and the
    [except] drops the line. *)
Lemma long_number_line_skipped :
  file_lines long_line [long_line]
  ∧ pgm_line long_line (int_of_digits long_digits) (str "A")
  ∧ 1 ≤ int_of_digits long_digits
  ∧ load_pgm_list 4300 long_line = [].
Proof.
  split; [|split; [|split]].
  - assert (readlines long_line = [long_line]) as <- by (vm_compute; reflexivity).
    apply readlines_file_lines.
  - apply ptrn_match_sound. vm_compute. reflexivity.
  - vm_compute. discriminate.
  - vm_compute. reflexivity.
Qed.

(** C10: every controller entry of the five screens of [map_list] has a CC
    number in 0..127, the CC numbers are pairwise distinct over the whole
    table, and [default_ctrl_config] is the controller list of the first
    screen, main. *)
Theorem map_list_well_formed :
  length map_list = 5%nat
  ∧ Forall (λ c, 0 ≤ ctrl_cc c ≤ 127) all_ctrls
  ∧ NoDup (ctrl_cc <$> all_ctrls)
  ∧ ∃ rest, map_list = (default_ctrl_config, 0, "main"%string) :: rest.
Proof.
  split; [reflexivity|]. split; [|split].
  - unfold all_ctrls, map_list. simpl. repeat constructor; simpl; lia.
  - apply (bool_decide_unpack _). by vm_compute.
  - by eexists.
Qed.

(** *** Further properties of the program-list parser *)

(** What follows the closing quote of the name is not read: a matching
    line matches with the same groups whatever is appended to it. *)
Theorem ptrn_match_ignores_rest (line more : text) (g : text * text) :
  ptrn_match line = Some g → ptrn_match (line ++ more) = Some g.
Proof.
  destruct g as [g1 g2]. intros Hm.
  apply ptrn_match_sound in Hm as Hl.
  destruct Hl as (ds & ws1 & ws2 & rest & Hline & Hds & Hdig & Hws1 & Hws2 & Ht & Hq & Hn).
  assert (ptrn_match line = Some (ds, g2)) as Hm'.
  { rewrite Hline. by apply ptrn_match_groups. }
  rewrite Hm in Hm'. injection Hm' as ->.
  rewrite Hline. repeat rewrite <- app_assoc. by apply ptrn_match_groups.
Qed.

Lemma ptrn_match_ignores_rest_witness :
  ptrn_match (str "7{name=" ++ [dquote] ++ str "Gospel" ++ [dquote]) = Some (str "7", str "Gospel")
  ∧ ptrn_match ((str "7{name=" ++ [dquote] ++ str "Gospel" ++ [dquote]) ++ str ", perc=on }")
    = Some (str "7", str "Gospel").
Proof.
  split; [reflexivity|].
  apply (ptrn_match_ignores_rest _ (str ", perc=on }") (str "7", str "Gospel")).
  reflexivity.
Defined.

Lemma elem_of_omap_emitted max_str_digits (lines : list text) (n : Z) (title : text) :
  (n, title) ∈ omap (emitted_of max_str_digits) lines →
  ∃ line ds, line ∈ lines ∧ pgm_digits line ds title ∧ n = int_of_digits ds ∧ 1 ≤ n
             ∧ convertible max_str_digits ds.
Proof.
  intros Hin. apply list_elem_of_omap in Hin as (line & Hline & He).
  pose proof (emitted_of_emits max_str_digits line) as Hem. rewrite He in Hem.
  destruct Hem as (ds & Hem). by exists line, ds.
Qed.

(** Every entry of the returned list carries its own position as index,
    bank bytes 0 and 0, a program number that is not negative, and a
    non-empty title without a double quote, taken from a line of the file
    (as read with universal newlines) whose leading integer is the program
    number plus one and is within the limit of [int]. *)
Theorem load_pgm_list_entries (max_str_digits : nat) (content : text) (k : nat)
  (e : pgm_entry) :
  load_pgm_list max_str_digits content !! k = Some e →
  ∃ prg title,
    e = (Z.of_nat k, [0; 0; prg], title)
    ∧ 0 ≤ prg ∧ title ≠ [] ∧ (dquote ∉ title)
    ∧ ∃ lines line ds,
        file_lines content lines ∧ line ∈ lines
        ∧ pgm_digits line ds title ∧ int_of_digits ds = prg + 1
        ∧ convertible max_str_digits ds.
Proof.
  rewrite load_pgm_list_numbered. unfold numbered. rewrite list_lookup_imap.
  destruct (omap (emitted_of max_str_digits) (readlines content) !! k)
    as [[n title]|] eqn:Hk; [|done].
  simpl. intros [= <-].
  apply list_elem_of_lookup_2, elem_of_omap_emitted in Hk
    as (line & ds & Hin & Hl & -> & Hn & Hc).
  exists (int_of_digits ds - 1), title. split; [done|]. split; [lia|].
  pose proof Hl as (ws1 & ws2 & rest & _ & _ & _ & _ & _ & Ht & Hq).
  split; [done|]. split; [done|].
  exists (readlines content), line, ds.
  split; [apply readlines_file_lines|]. repeat split; try done. lia.
Qed.

Lemma load_pgm_list_entries_witness :
  load_pgm_list 4300 sample_bank !! 1%nat = Some (1, [0; 0; 9], str "Full organ")
  ∧ ∃ lines line ds,
      file_lines sample_bank lines ∧ line ∈ lines
      ∧ pgm_digits line ds (str "Full organ") ∧ int_of_digits ds = 10.
Proof.
  split; [reflexivity|].
  destruct (load_pgm_list_entries 4300 sample_bank 1 (1, [0; 0; 9], str "Full organ"))
    as (prg & title & He & _ & _ & _ & lines & line & ds & Hf & Hin & Hd & Hn & _);
    [reflexivity|].
  injection He as <- <-. by exists lines, line, ds.
Defined.

(** Reading two texts in a row, the first of which ends in a newline. *)
Lemma readlines_from_newlines_app (b : bool) (cur c1 t2 : text) :
  (b = true → c1 = [] → cur = []) →
  readlines_from cur (universal_newlines_from b (c1 ++ [newline]) ++ t2)
  = readlines_from cur (universal_newlines_from b (c1 ++ [newline]))
    ++ readlines_from [] t2.
Proof.
  revert b cur. induction c1 as [|c c1 IH]; intros b cur Hb.
  - destruct b; simpl.
    + rewrite (Hb eq_refl eq_refl). simpl. done.
    + done.
  - simpl. destruct (Ascii.eqb c carriage_return) eqn:Hcr.
    + simpl. f_equal. by apply IH.
    + destruct (Ascii.eqb c newline && b) eqn:Hskip.
      * by apply IH.
      * simpl. destruct (Ascii.eqb c newline).
        -- simpl. f_equal. by apply IH.
        -- by apply IH.
Qed.

Lemma universal_newlines_from_app (b : bool) (c1 c2 : text) :
  universal_newlines_from b ((c1 ++ [newline]) ++ c2)
  = universal_newlines_from b (c1 ++ [newline]) ++ universal_newlines c2.
Proof.
  revert b. induction c1 as [|c c1 IH]; intros b.
  - by destruct b.
  - simpl. destruct (Ascii.eqb c carriage_return); simpl; [by rewrite IH|].
    destruct (Ascii.eqb c newline && b); simpl; by rewrite IH.
Qed.

(** Renumbering an entry that follows [n] others. *)
Definition shift_index (n : nat) (e : pgm_entry) : pgm_entry :=
  (e.1.1 + Z.of_nat n, e.1.2, e.2).

(** Two bank files in a row, the first ending in a newline, give the
    programs of the first followed by the programs of the second, numbered
    on; this holds whatever line ends (LF, CR LF, CR) the two parts use
    inside. *)
Theorem load_pgm_list_app (max_str_digits : nat) (c1 c2 : text) :
  load_pgm_list max_str_digits ((c1 ++ [newline]) ++ c2)
  = load_pgm_list max_str_digits (c1 ++ [newline])
    ++ (shift_index (length (load_pgm_list max_str_digits (c1 ++ [newline])))
        <$> load_pgm_list max_str_digits c2).
Proof.
  rewrite !load_pgm_list_numbered. unfold readlines, universal_newlines.
  rewrite universal_newlines_from_app, readlines_from_newlines_app by done.
  rewrite omap_app. unfold numbered. rewrite imap_app, length_imap. f_equal.
  rewrite fmap_imap. apply imap_ext. intros k [n t] _. unfold shift_index. simpl.
  do 2 f_equal. lia.
Qed.

End Setbfree.

(* ===================================================================== *)
(** ** zynthian_gui_control: page navigation *)
(* ===================================================================== *)

Module GuiControl.

(** A row of [list_data]: a separator naming a chain's engine, or a
    controller screen [(cscr, i, cscr, layer, j)] (the layer object is left
    out). *)
Inductive list_item :=
  | Separator (title : string)
  | CtrlScreen (cscr : string) (i j : Z).

(** The methods of the selector base class and the widget set-up the
    navigation reaches; a page method is modelled by the calls it makes, in
    order. *)
Inductive gui_call :=
  | SelectorSelect (i : Z)        (* super().select(index) *)
  | SetControllerScreen
  | SetSelectorScreen
  | ClickListbox.

Inductive gui_mode := ModeNone | ModeControl | ModeSelect.

Record zynthian_gui_control := {
  mode : gui_mode;
  index : Z;
  list_data : list list_item
}.

(** [select(index)] of the control screen. *)
Definition select (i : Z) (g : zynthian_gui_control) : list gui_call :=
  SelectorSelect i ::
  match mode g with
  | ModeSelect => [SetControllerScreen; SetSelectorScreen]
  | _ => []
  end.

Definition previous_page (wrap : bool) (g : zynthian_gui_control) : list gui_call :=
  let i := index g - 1 in
  let i := if i <? 0 then 0 else i in
  select i g ++ [ClickListbox].

Definition next_page (wrap : bool) (g : zynthian_gui_control) : list gui_call :=
  let i := index g + 1 in
  let i :=
    if Z.of_nat (length (list_data g)) <=? i then
      if wrap then 0 else Z.of_nat (length (list_data g)) - 1
    else i in
  select i g ++ [ClickListbox].

(** The index a run of calls selects. *)
Definition selected (calls : list gui_call) : list Z :=
  omap (λ c, match c with SelectorSelect i => Some i | _ => None end) calls.

Lemma selected_select i g : selected (select i g ++ [ClickListbox]) = [i].
Proof. unfold select. by destruct (mode g). Qed.

(** C9: [previous_page] selects max(index - 1, 0) whatever [wrap] is;
    [next_page] selects index + 1, except at the last entry of [list_data],
    where it selects 0 when [wrap] is set and stays on the last entry when
    it is not; on a non-empty list with the index in range the selected
    index stays within 0 .. len(list_data) - 1. *)
Theorem page_navigation (g : zynthian_gui_control) (wrap : bool) :
  let len := Z.of_nat (length (list_data g)) in
  0 ≤ index g < len →
  selected (previous_page wrap g) = [Z.max (index g - 1) 0]
  ∧ selected (next_page wrap g)
    = [if bool_decide (index g = len - 1)
       then (if wrap then 0 else len - 1) else index g + 1]
  ∧ Forall (λ i, 0 ≤ i ≤ len - 1)
      (selected (previous_page wrap g) ++ selected (next_page wrap g)).
Proof.
  intros len Hin. unfold previous_page, next_page. fold len.
  rewrite !selected_select. repeat split.
  - f_equal. destruct (Z.ltb_spec (index g - 1) 0); lia.
  - f_equal. case_bool_decide; destruct (Z.leb_spec len (index g + 1)); (done || lia).
  - repeat constructor;
      destruct (Z.ltb_spec (index g - 1) 0), (Z.leb_spec len (index g + 1)), wrap; lia.
Qed.

Definition two_pages : zynthian_gui_control :=
  {| mode := ModeControl; index := 1;
     list_data := [CtrlScreen "main" 0 0; CtrlScreen "drawbars low" 1 1] |}.

Lemma page_navigation_witness :
  selected (previous_page false two_pages) = [0]
  ∧ selected (next_page true two_pages) = [0]
  ∧ selected (next_page false two_pages) = [1].
Proof.
  destruct (page_navigation two_pages true) as (_ & Hn & _); [simpl; lia|].
  destruct (page_navigation two_pages false) as (Hp & Hn' & _); [simpl; lia|].
  repeat split; assumption.
Defined.

(** *** XY selection *)

Inductive axis := AxisX | AxisY.

(** [set_hl()] and [unset_hl()] on the widget at a position of
    [zgui_controllers]. *)
Inductive widget_call := SetHl (i : nat) | UnsetHl (i : nat).

(** The three attributes that [set_xyselect_mode] creates. *)
Record zread := ZRead {
  xyselect_zread_axis : axis;
  xyselect_zread_counter : Z;
  xyselect_zread_last_zctrl : option nat
}.

(** The attributes XY selection works on. [zgui_controllers] holds, for
    each widget, the controller it shows ([None] for an empty widget);
    controllers compare by identity. [xyselect_zread] is [None] as long as
    [set_xyselect_mode] has not run. [widget_calls] are the highlight calls
    made so far. *)
Record xyselect := XY {
  zgui_controllers : list (option nat);
  xyselect_mode : bool;
  xyselect_zread : option zread;
  x_zctrl : option nat;
  y_zctrl : option nat;
  widget_calls : list widget_call
}.

Definition with_xyselect_mode (b : bool) (g : xyselect) : xyselect :=
  XY (zgui_controllers g) b (xyselect_zread g) (x_zctrl g) (y_zctrl g) (widget_calls g).

Definition with_xyselect_zread (r : option zread) (g : xyselect) : xyselect :=
  XY (zgui_controllers g) (xyselect_mode g) r (x_zctrl g) (y_zctrl g) (widget_calls g).

Definition with_x_zctrl (z : option nat) (g : xyselect) : xyselect :=
  XY (zgui_controllers g) (xyselect_mode g) (xyselect_zread g) z (y_zctrl g)
     (widget_calls g).

Definition with_y_zctrl (z : option nat) (g : xyselect) : xyselect :=
  XY (zgui_controllers g) (xyselect_mode g) (xyselect_zread g) (x_zctrl g) z
     (widget_calls g).

Inductive xy_outcome (A : Type) :=
  | XReturns (a : A) (g : xyselect)
  | XRaises (e : Py.exn) (g : xyselect).
Arguments XReturns {A} a g.
Arguments XRaises {A} e g.

Definition xy_state_of {A : Type} (o : xy_outcome A) : xyselect :=
  match o with XReturns _ g => g | XRaises _ g => g end.

(** [set_xyselect_controllers]: one highlight call per widget. *)
Definition set_xyselect_controllers (g : xyselect) : xyselect :=
  let hl (i : nat) (zctrl : option nat) :=
    if xyselect_mode g
       && (bool_decide (zctrl = x_zctrl g) || bool_decide (zctrl = y_zctrl g))
    then SetHl i else UnsetHl i in
  XY (zgui_controllers g) (xyselect_mode g) (xyselect_zread g) (x_zctrl g) (y_zctrl g)
     (widget_calls g ++ imap hl (zgui_controllers g)).

Definition set_xyselect_mode (xctrl_i yctrl_i : Z) (g : xyselect) : xy_outcome unit :=
  let g := with_xyselect_zread (Some (ZRead AxisX 0 None)) (with_xyselect_mode true g) in
  match Py.list_index (zgui_controllers g) xctrl_i with
  | None => XRaises Py.IndexError g
  | Some zx =>
      let g := with_x_zctrl zx g in
      match Py.list_index (zgui_controllers g) yctrl_i with
      | None => XRaises Py.IndexError g
      | Some zy => XReturns tt (set_xyselect_controllers (with_y_zctrl zy g))
      end
  end.

Definition unset_xyselect_mode (g : xyselect) : xyselect :=
  set_xyselect_controllers (with_xyselect_mode false g).

(** [set_xyselect_x]; the result is [true] for True and [false] for the
    None of falling off the end. *)
Definition set_xyselect_x (xctrl_i : Z) (g : xyselect) : xy_outcome bool :=
  match Py.list_index (zgui_controllers g) xctrl_i with
  | None => XRaises Py.IndexError g
  | Some zctrl =>
      if negb (bool_decide (x_zctrl g = zctrl)) && negb (bool_decide (y_zctrl g = zctrl))
      then XReturns true (set_xyselect_controllers (with_x_zctrl zctrl g))
      else XReturns false g
  end.

Definition set_xyselect_y (yctrl_i : Z) (g : xyselect) : xy_outcome bool :=
  match Py.list_index (zgui_controllers g) yctrl_i with
  | None => XRaises Py.IndexError g
  | Some zctrl =>
      if negb (bool_decide (y_zctrl g = zctrl)) && negb (bool_decide (x_zctrl g = zctrl))
      then XReturns true (set_xyselect_controllers (with_y_zctrl zctrl g))
      else XReturns false g
  end.

(** [zynpot_read_xyselect] *)
Definition zynpot_read_xyselect (i : Z) (g : xyselect) : xy_outcome unit :=
  match Py.list_index (zgui_controllers g) i with
  | None => XRaises Py.IndexError g
  | Some zctrl =>
      match xyselect_zread g with
      | None => XRaises Py.AttributeError g
      | Some r =>
          let r :=
            if bool_decide (zctrl = xyselect_zread_last_zctrl r)
            then ZRead (xyselect_zread_axis r) (xyselect_zread_counter r + 1)
                       (xyselect_zread_last_zctrl r)
            else ZRead (xyselect_zread_axis r) 0 zctrl in
          let g := with_xyselect_zread (Some r) g in
          if 5 <? xyselect_zread_counter r then
            match xyselect_zread_axis r with
            | AxisX =>
                match set_xyselect_x i g with
                | XReturns true g =>
                    XReturns tt
                      (with_xyselect_zread
                         (Some (ZRead AxisY 0 (xyselect_zread_last_zctrl r))) g)
                | XReturns false g => XReturns tt g
                | XRaises e g => XRaises e g
                end
            | AxisY =>
                match set_xyselect_y i g with
                | XReturns true g =>
                    XReturns tt
                      (with_xyselect_zread
                         (Some (ZRead AxisX 0 (xyselect_zread_last_zctrl r))) g)
                | XReturns false g => XReturns tt g
                | XRaises e g => XRaises e g
                end
            end
          else XReturns tt g
      end
  end.

(** [n] turns of the knob at position [i], one after the other. *)
Definition reads (n : nat) (i : Z) (g : xyselect) : xyselect :=
  Nat.iter n (λ g, xy_state_of (zynpot_read_xyselect i g)) g.

Lemma set_xyselect_x_distinct i g :
  x_zctrl g ≠ y_zctrl g →
  x_zctrl (xy_state_of (set_xyselect_x i g)) ≠ y_zctrl (xy_state_of (set_xyselect_x i g)).
Proof.
  intros Hd. unfold set_xyselect_x.
  destruct (Py.list_index _ _) as [z|]; [|done].
  repeat case_bool_decide; simpl; congruence.
Qed.

Lemma set_xyselect_y_distinct i g :
  x_zctrl g ≠ y_zctrl g →
  x_zctrl (xy_state_of (set_xyselect_y i g)) ≠ y_zctrl (xy_state_of (set_xyselect_y i g)).
Proof.
  intros Hd. unfold set_xyselect_y.
  destruct (Py.list_index _ _) as [z|]; [|done].
  repeat case_bool_decide; simpl; congruence.
Qed.

Lemma zynpot_read_xyselect_distinct i g :
  x_zctrl g ≠ y_zctrl g →
  x_zctrl (xy_state_of (zynpot_read_xyselect i g))
  ≠ y_zctrl (xy_state_of (zynpot_read_xyselect i g)).
Proof.
  intros Hd. unfold zynpot_read_xyselect.
  destruct (Py.list_index _ _) as [z|] eqn:Hz; [|done].
  destruct (xyselect_zread g) as [[ax cnt last]|]; [|done]. simpl.
  assert (∀ r, x_zctrl (with_xyselect_zread r g) ≠ y_zctrl (with_xyselect_zread r g))
    as Hd1 by done.
  destruct (bool_decide (z = last)); simpl; [|done].
  destruct (5 <? cnt + 1); [|done].
  destruct ax;
    match goal with
    | |- context [set_xyselect_x i ?g1] =>
        pose proof (set_xyselect_x_distinct i g1 (Hd1 _)) as Hx;
        destruct (set_xyselect_x i g1) as [[] g2|e g2]; done
    | |- context [set_xyselect_y i ?g1] =>
        pose proof (set_xyselect_y_distinct i g1 (Hd1 _)) as Hy;
        destruct (set_xyselect_y i g1) as [[] g2|e g2]; done
    end.
Qed.

(** Once the X and Y controllers differ they keep differing: neither
    [set_xyselect_x], [set_xyselect_y] nor any run of
    [zynpot_read_xyselect] puts one controller on both axes, whether the
    call returns or raises. *)
Theorem xy_controllers_stay_distinct (g : xyselect) (i : Z) (n : nat) :
  x_zctrl g ≠ y_zctrl g →
  x_zctrl (xy_state_of (set_xyselect_x i g)) ≠ y_zctrl (xy_state_of (set_xyselect_x i g))
  ∧ x_zctrl (xy_state_of (set_xyselect_y i g)) ≠ y_zctrl (xy_state_of (set_xyselect_y i g))
  ∧ x_zctrl (reads n i g) ≠ y_zctrl (reads n i g).
Proof.
  intros Hd. split; [by apply set_xyselect_x_distinct|].
  split; [by apply set_xyselect_y_distinct|].
  induction n as [|n IH]; [done|]. simpl. by apply zynpot_read_xyselect_distinct.
Qed.

Lemma reads_counting (n : nat) i g z r :
  Py.list_index (zgui_controllers g) i = Some z →
  xyselect_zread g = Some r →
  xyselect_zread_last_zctrl r ≠ z →
  (n ≤ 5)%nat →
  reads (S n) i g
  = with_xyselect_zread (Some (ZRead (xyselect_zread_axis r) (Z.of_nat n) z)) g.
Proof.
  intros Hz Hr Hlast. induction n as [|n IH]; intros Hn.
  - simpl. unfold zynpot_read_xyselect. rewrite Hz, Hr.
    rewrite bool_decide_eq_false_2 by done. done.
  - change (reads (S (S n)) i g)
      with (xy_state_of (zynpot_read_xyselect i (reads (S n) i g))).
    rewrite IH by lia. unfold zynpot_read_xyselect. simpl. rewrite Hz.
    rewrite bool_decide_eq_true_2 by done. simpl.
    destruct (Z.ltb_spec 5 (Z.of_nat n + 1)) as [?|_]; [lia|].
    simpl. unfold with_xyselect_zread. simpl. do 3 f_equal. lia.
Qed.

(** Seven turns in a row of a knob whose controller is on neither axis,
    and was not the one turned last, are what it takes to put it on the X
    axis: up to six turns leave both axes as they are, the seventh assigns
    the controller to X, highlights the widgets anew and makes Y the axis
    to assign next. *)
Theorem zynpot_read_xyselect_seven_turns (g : xyselect) (i : Z) (z : option nat)
  (counter : Z) (last : option nat) :
  Py.list_index (zgui_controllers g) i = Some z →
  xyselect_zread g = Some (ZRead AxisX counter last) →
  last ≠ z → x_zctrl g ≠ z → y_zctrl g ≠ z →
  (∀ n, (n ≤ 6)%nat →
     x_zctrl (reads n i g) = x_zctrl g ∧ y_zctrl (reads n i g) = y_zctrl g
     ∧ widget_calls (reads n i g) = widget_calls g)
  ∧ reads 7 i g
    = with_xyselect_zread (Some (ZRead AxisY 0 z))
        (set_xyselect_controllers (with_x_zctrl z g)).
Proof.
  intros Hz Hr Hlast Hx Hy. split.
  - intros [|n] Hn; [done|]. by rewrite (reads_counting n i g z _ Hz Hr Hlast) by lia.
  - change (reads 7 i g) with (xy_state_of (zynpot_read_xyselect i (reads 6 i g))).
    rewrite (reads_counting 5 i g z _ Hz Hr Hlast) by lia.
    unfold zynpot_read_xyselect. simpl. rewrite Hz.
    rewrite bool_decide_eq_true_2 by done. simpl.
    unfold set_xyselect_x. simpl. rewrite Hz.
    rewrite !bool_decide_eq_false_2 by done. done.
Qed.

Definition four_knobs : xyselect :=
  xy_state_of
    (set_xyselect_mode 0 1
       (XY [Some 10%nat; Some 11%nat; Some 12%nat; Some 13%nat] false None None None [])).

Lemma xy_controllers_stay_distinct_witness :
  x_zctrl four_knobs = Some 10%nat ∧ y_zctrl four_knobs = Some 11%nat
  ∧ x_zctrl (reads 7 2 four_knobs) ≠ y_zctrl (reads 7 2 four_knobs).
Proof.
  split; [reflexivity|]. split; [reflexivity|].
  assert (x_zctrl four_knobs ≠ y_zctrl four_knobs) as Hd by discriminate.
  destruct (xy_controllers_stay_distinct four_knobs 2 7 Hd) as (_ & _ & Hreads).
  exact Hreads.
Defined.

Lemma zynpot_read_xyselect_seven_turns_witness :
  x_zctrl (reads 6 2 four_knobs) = Some 10%nat
  ∧ x_zctrl (reads 7 2 four_knobs) = Some 12%nat
  ∧ y_zctrl (reads 7 2 four_knobs) = Some 11%nat.
Proof.
  assert (None ≠ Some 12%nat) as Hlast by discriminate.
  assert (x_zctrl four_knobs ≠ Some 12%nat) as Hx by discriminate.
  assert (y_zctrl four_knobs ≠ Some 12%nat) as Hy by discriminate.
  destruct (zynpot_read_xyselect_seven_turns four_knobs 2 (Some 12%nat) 0 None
              eq_refl eq_refl Hlast Hx Hy) as [Hsix Hseven].
  destruct (Hsix 6%nat) as (Hx6 & _); [lia|].
  split; [exact Hx6|]. rewrite Hseven. split; reflexivity.
Defined.

(** *** The list of controller screens *)

(** A layer as [fill_list] sees it: the object's identity, its engine's
    nickname and name, and the screen names [get_ctrl_screens()] yields,
    in order. *)
Record layer := Layer {
  layer_id : nat;
  engine_nickname : string;
  engine_name : string;
  ctrl_screens : list string
}.

(** [s.split(/)[-1]]: what follows the last slash. *)
Fixpoint last_segment_from (acc s : string) : string :=
  match s with
  | EmptyString => acc
  | String c s' =>
      if Ascii.eqb c "/" then last_segment_from EmptyString s'
      else last_segment_from (acc +:+ String c EmptyString) s'
  end.

Definition last_segment (s : string) : string := last_segment_from EmptyString s.

(** The variables of the loop of [fill_list]. *)
Record fill_state := Fill {
  f_list_data : list list_item;
  f_i : Z;
  f_layers_changed : bool;
  f_index : Z
}.

(** The body of the inner loop, for the screen [cscr] of a layer that is
    ([is_cur]) or is not the current layer; [j] is threaded along. *)
Definition fill_screen (is_cur : bool) (st : fill_state * Z) (cscr : string)
  : fill_state * Z :=
  let list_data := f_list_data st.1 ++ [CtrlScreen cscr (f_i st.1) st.2] in
  let i := f_i st.1 + 1 in
  let j := st.2 + 1 in
  if f_layers_changed st.1 && negb (String.eqb cscr EmptyString) && is_cur
  then (Fill list_data i false i, j)
  else (Fill list_data i (f_layers_changed st.1) (f_index st.1), j).

(** The body of the outer loop; [several] is [len(self.layers) > 1]. *)
Definition fill_layer (several : bool) (curlayer : layer) (st : fill_state) (l : layer)
  : fill_state :=
  if (0 <? length (ctrl_screens l))%nat then
    let st :=
      if several
      then Fill (f_list_data st ++ [Separator ("> " +:+ last_segment (engine_name l))])
                (f_i st) (f_layers_changed st) (f_index st)
      else st in
    (foldl (fill_screen (bool_decide (layer_id l = layer_id curlayer))) (st, 0)
           (ctrl_screens l)).1
  else st.

(** [self.layers]: the current layer alone for the mixer engine, else the
    chain ([chain] is the list the three calls on the layer screen build:
    MIDI effects, root, audio effects). *)
Definition fill_layers (curlayer : layer) (chain : list layer) : list layer :=
  if String.eqb (engine_nickname curlayer) "MX" then [curlayer] else chain.

(** [fill_list], up to the call of the base class's [fill_list]: the
    screen with its new [list_data] and [index], and [layers_changed].
    Without a current layer nothing is done. *)
Definition fill_list (curlayer : option layer) (chain : list layer)
  (layers_changed : bool) (g : zynthian_gui_control) : zynthian_gui_control * bool :=
  match curlayer with
  | None => (g, layers_changed)
  | Some cur =>
      let layers := fill_layers cur chain in
      let st :=
        foldl (fill_layer (1 <? length layers)%nat cur)
              (Fill [] 0 layers_changed (index g)) layers in
      ({| mode := mode g; index := f_index st; list_data := f_list_data st |},
       f_layers_changed st)
  end.

Definition row_cscr (r : list_item) : option string :=
  match r with CtrlScreen cscr _ _ => Some cscr | Separator _ => None end.

Definition row_i (r : list_item) : option Z :=
  match r with CtrlScreen _ i _ => Some i | Separator _ => None end.

Definition row_j (r : list_item) : option Z :=
  match r with CtrlScreen _ _ j => Some j | Separator _ => None end.

Definition row_title (r : list_item) : option string :=
  match r with Separator t => Some t | CtrlScreen _ _ _ => None end.

(** The rows a run of the loops has added, by their components. *)
Record filled (st st' : fill_state) (cscrs : list string) (js : list Z)
  (titles : list string) : Prop := {
  filled_cscr : omap row_cscr (f_list_data st') = omap row_cscr (f_list_data st) ++ cscrs;
  filled_i : omap row_i (f_list_data st')
             = omap row_i (f_list_data st)
               ++ ((λ k, f_i st + Z.of_nat k) <$> seq 0 (length cscrs));
  filled_j : omap row_j (f_list_data st') = omap row_j (f_list_data st) ++ js;
  filled_title : omap row_title (f_list_data st')
                 = omap row_title (f_list_data st) ++ titles;
  filled_next : f_i st' = f_i st + Z.of_nat (length cscrs)
}.

Lemma filled_refl st : filled st st [] [] [].
Proof. split; simpl; rewrite ?app_nil_r; (done || lia). Qed.

Lemma filled_trans st1 st2 st3 c1 c2 j1 j2 t1 t2 :
  filled st1 st2 c1 j1 t1 → filled st2 st3 c2 j2 t2 →
  filled st1 st3 (c1 ++ c2) (j1 ++ j2) (t1 ++ t2).
Proof.
  intros [A1 A2 A3 A4 A5] [B1 B2 B3 B4 B5]. split.
  - by rewrite B1, A1, app_assoc.
  - rewrite B2, A2, A5, length_app, seq_app, fmap_app, <- app_assoc. f_equal. f_equal.
    replace (0 + length c1)%nat with (length c1 + 0)%nat by lia.
    rewrite <- fmap_add_seq, <- list_fmap_compose.
    apply list_fmap_ext. intros _ k _. simpl. lia.
  - by rewrite B3, A3, app_assoc.
  - by rewrite B4, A4, app_assoc.
  - rewrite B5, A5, length_app. lia.
Qed.

Lemma fill_screens_filled is_cur st j0 (screens : list string) :
  let r := foldl (fill_screen is_cur) (st, j0) screens in
  filled st r.1 screens ((λ k, j0 + Z.of_nat k) <$> seq 0 (length screens)) []
  ∧ r.2 = j0 + Z.of_nat (length screens).
Proof.
  induction screens as [|cscr screens IH] using rev_ind; simpl.
  - split; [apply filled_refl | lia].
  - rewrite foldl_app. simpl. destruct IH as [IH Hj].
    set (r := foldl (fill_screen is_cur) (st, j0) screens) in *.
    rewrite length_app, seq_app, fmap_app. simpl. split.
    + replace (@nil string) with (@nil string ++ @nil string) by done.
      apply (filled_trans st r.1); [exact IH|].
      unfold fill_screen.
      destruct (f_layers_changed r.1 && negb (cscr =? EmptyString)%string && is_cur);
        split; simpl; rewrite ?omap_app, ?app_nil_r; simpl;
        rewrite ?Hj, ?Z.add_0_r; (done || lia).
    + unfold fill_screen.
      destruct (f_layers_changed r.1 && negb (cscr =? EmptyString)%string && is_cur);
        simpl; lia.
Qed.

(** The separator of a layer: shown when there are several layers and the
    layer has a screen. *)
Definition layer_title (several : bool) (l : layer) : list string :=
  if several && (0 <? length (ctrl_screens l))%nat
  then ["> " +:+ last_segment (engine_name l)] else [].

Lemma fill_layer_filled several cur st l :
  filled st (fill_layer several cur st l) (ctrl_screens l)
    (Z.of_nat <$> seq 0 (length (ctrl_screens l))) (layer_title several l).
Proof.
  unfold fill_layer, layer_title.
  destruct (0 <? length (ctrl_screens l))%nat eqn:Hlen.
  - match goal with |- context [foldl ?f (?s, 0) ?xs] =>
      destruct (fill_screens_filled (bool_decide (layer_id l = layer_id cur)) s 0
                  (ctrl_screens l)) as [Hf _]
    end.
    simpl in Hf.
    replace (ctrl_screens l) with ([] ++ ctrl_screens l) at 2 by done.
    replace (Z.of_nat <$> seq 0 (length (ctrl_screens l)))
      with ([] ++ (Z.of_nat <$> seq 0 (length (ctrl_screens l)))) by done.
    rewrite andb_true_r.
    replace (if several then ["> " +:+ last_segment (engine_name l)] else [])
      with ((if several then ["> " +:+ last_segment (engine_name l)] else []) ++ [])
      by apply app_nil_r.
    eapply filled_trans; [|exact Hf].
    destruct several; [|apply filled_refl].
    split; simpl; rewrite ?omap_app, ?app_nil_r; simpl; rewrite ?app_nil_r; (done || lia).
  - apply Nat.ltb_ge in Hlen.
    assert (ctrl_screens l = []) as -> by (destruct (ctrl_screens l); [done | simpl in Hlen; lia]).
    rewrite andb_false_r. apply filled_refl.
Qed.

Lemma fill_layers_filled several cur st (layers : list layer) :
  filled st (foldl (fill_layer several cur) st layers)
    (concat (ctrl_screens <$> layers))
    (concat ((λ l, Z.of_nat <$> seq 0 (length (ctrl_screens l))) <$> layers))
    (concat (layer_title several <$> layers)).
Proof.
  revert st. induction layers as [|l layers IH]; intros st; simpl.
  - apply filled_refl.
  - eapply filled_trans; [apply fill_layer_filled | apply IH].
Qed.

(** The rows of one layer: its separator, if it is shown, then one row
    per screen, numbered from [i] over all layers and from 0 within the
    layer. *)
Definition layer_rows (several : bool) (i : Z) (l : layer) : list list_item :=
  (Separator <$> layer_title several l)
  ++ imap (λ j cscr, CtrlScreen cscr (i + Z.of_nat j) (Z.of_nat j)) (ctrl_screens l).

(** The rows of the layers, one layer after the other; [i] is the number
    of screens listed before. *)
Fixpoint layers_rows (several : bool) (i : Z) (layers : list layer) : list list_item :=
  match layers with
  | [] => []
  | l :: layers' =>
      layer_rows several i l
      ++ layers_rows several (i + Z.of_nat (length (ctrl_screens l))) layers'
  end.

Lemma fill_screens_rows is_cur st j0 (screens : list string) :
  f_list_data (foldl (fill_screen is_cur) (st, j0) screens).1
  = f_list_data st
    ++ imap (λ j cscr, CtrlScreen cscr (f_i st + Z.of_nat j) (j0 + Z.of_nat j)) screens.
Proof.
  induction screens as [|cscr screens IH] using rev_ind; simpl.
  - by rewrite app_nil_r.
  - rewrite foldl_app, imap_app, app_assoc, <- IH. simpl.
    destruct (fill_screens_filled is_cur st j0 screens) as [[_ _ _ _ Hi] Hj].
    simpl in Hi, Hj.
    set (r := foldl (fill_screen is_cur) (st, j0) screens) in *.
    unfold fill_screen.
    destruct (f_layers_changed r.1 && negb (cscr =? EmptyString)%string && is_cur);
      simpl; rewrite Hi, Hj, Nat.add_0_r; done.
Qed.

Lemma fill_layer_rows several cur st l :
  f_list_data (fill_layer several cur st l)
  = f_list_data st ++ layer_rows several (f_i st) l.
Proof.
  unfold fill_layer, layer_rows, layer_title.
  destruct (0 <? length (ctrl_screens l))%nat eqn:Hlen.
  - rewrite fill_screens_rows, andb_true_r.
    destruct several; simpl; [by rewrite <- app_assoc | done].
  - apply Nat.ltb_ge in Hlen.
    assert (ctrl_screens l = []) as -> by (destruct (ctrl_screens l); [done | simpl in Hlen; lia]).
    rewrite andb_false_r. simpl. by rewrite app_nil_r.
Qed.

Lemma fill_layers_rows several cur st (layers : list layer) :
  f_list_data (foldl (fill_layer several cur) st layers)
  = f_list_data st ++ layers_rows several (f_i st) layers.
Proof.
  revert st. induction layers as [|l layers IH]; intros st; simpl.
  - by rewrite app_nil_r.
  - rewrite IH, fill_layer_rows, <- app_assoc. do 3 f_equal.
    by destruct (fill_layer_filled several cur st l) as [_ _ _ _ ->].
Qed.

(** The list [fill_list] builds is, layer after layer in the order of
    [self.layers]: a separator row with the layer's title, only when there
    are several layers and the layer has a screen, directly followed by one
    row per controller screen of the layer in order, carrying the screen
    name, the number of the screen counted from 0 over all layers, and its
    number counted from 0 within the layer. So the screen rows list every
    screen of every layer once, in order, numbered 0, 1, 2, ... *)
Theorem fill_list_rows (cur : layer) (chain : list layer) (layers_changed : bool)
  (g : zynthian_gui_control) :
  list_data (fill_list (Some cur) chain layers_changed g).1
  = layers_rows (1 <? length (fill_layers cur chain))%nat 0 (fill_layers cur chain)
  ∧ omap row_cscr (list_data (fill_list (Some cur) chain layers_changed g).1)
    = concat (ctrl_screens <$> fill_layers cur chain)
  ∧ omap row_i (list_data (fill_list (Some cur) chain layers_changed g).1)
    = Py.range (length (concat (ctrl_screens <$> fill_layers cur chain))).
Proof.
  unfold fill_list. simpl. split; [by rewrite fill_layers_rows|].
  destruct (fill_layers_filled (1 <? length (fill_layers cur chain))%nat cur
              (Fill [] 0 layers_changed (index g)) (fill_layers cur chain))
    as [H1 H2 _ _ _].
  simpl in H1, H2. split; [exact H1|].
  rewrite H2. unfold Py.range. apply list_fmap_ext. intros _ k _. lia.
Qed.

(** A chain of two layers, the first with two screens, and the single
    layer of the mixer. *)
Example fill_list_two_layers :
  let synth := Layer 1 "FS" "FluidSynth" ["main"%string; "envelope"%string] in
  let reverb := Layer 2 "JV" "Jalv/Dragonfly Reverb" ["reverb"%string] in
  list_data (fill_list (Some synth) [synth; reverb] true
               {| mode := ModeControl; index := 0; list_data := [] |}).1
  = [ Separator "> FluidSynth"; CtrlScreen "main" 0 0; CtrlScreen "envelope" 1 1;
      Separator "> Dragonfly Reverb"; CtrlScreen "reverb" 2 0 ].
Proof. reflexivity. Qed.

(** **** Where [fill_list] leaves the index *)

(** Whether the inner loop assigns [index] at a screen. *)
Definition fill_hits (cur : layer) (layers : list layer) : list bool :=
  concat ((λ l, (λ cscr, negb (String.eqb cscr EmptyString)
                         && bool_decide (layer_id l = layer_id cur))
                <$> ctrl_screens l) <$> layers).

(** [layers_changed] and [index] after screens with the given hits, the
    first of them being screen number [i]. *)
Definition fill_index (hits : list bool) (i : Z) (layers_changed : bool) (index : Z)
  : bool * Z :=
  if layers_changed then
    match list_find (λ b, b = true) hits with
    | Some (n, _) => (false, i + Z.of_nat n + 1)
    | None => (true, index)
    end
  else (false, index).

Lemma fill_index_app h1 h2 i lc idx :
  fill_index (h1 ++ h2) i lc idx
  = fill_index h2 (i + Z.of_nat (length h1)) (fill_index h1 i lc idx).1
      (fill_index h1 i lc idx).2.
Proof.
  unfold fill_index. destruct lc; [|done].
  destruct (list_find (λ b, b = true) h1) as [[n b]|] eqn:Hf.
  - by erewrite list_find_app_l by exact Hf.
  - rewrite list_find_app_r by done. simpl.
    destruct (list_find (λ b, b = true) h2) as [[n b]|]; simpl; [|done].
    f_equal. lia.
Qed.

Lemma fill_screens_index is_cur st j0 (screens : list string) :
  let r := (foldl (fill_screen is_cur) (st, j0) screens).1 in
  (f_layers_changed r, f_index r)
  = fill_index ((λ cscr, negb (String.eqb cscr EmptyString) && is_cur) <$> screens)
      (f_i st) (f_layers_changed st) (f_index st).
Proof.
  induction screens as [|cscr screens IH] using rev_ind; simpl.
  - unfold fill_index. by destruct (f_layers_changed st).
  - rewrite foldl_app, fmap_app, fill_index_app. simpl in *. rewrite <- IH. simpl.
    destruct (fill_screens_filled is_cur st j0 screens) as [[_ _ _ _ Hi] _].
    simpl in Hi. rewrite length_fmap, <- Hi.
    set (r := foldl (fill_screen is_cur) (st, j0) screens) in *.
    unfold fill_screen, fill_index. simpl.
    destruct (f_layers_changed r.1); simpl; [|done].
    destruct (negb (cscr =? EmptyString)%string && is_cur) eqn:Hhit; simpl.
    + f_equal. lia.
    + done.
Qed.

Lemma fill_layer_index several cur st l :
  (f_layers_changed (fill_layer several cur st l), f_index (fill_layer several cur st l))
  = fill_index (fill_hits cur [l]) (f_i st) (f_layers_changed st) (f_index st).
Proof.
  unfold fill_layer, fill_hits. simpl. rewrite app_nil_r.
  destruct (0 <? length (ctrl_screens l))%nat eqn:Hlen.
  - match goal with |- context [foldl ?f (?s, 0) ?xs] =>
      pose proof (fill_screens_index (bool_decide (layer_id l = layer_id cur)) s 0
                    (ctrl_screens l)) as Hf
    end.
    simpl in Hf. rewrite Hf. by destruct several.
  - apply Nat.ltb_ge in Hlen.
    assert (ctrl_screens l = []) as -> by (destruct (ctrl_screens l); [done | simpl in Hlen; lia]).
    unfold fill_index. simpl. by destruct (f_layers_changed st).
Qed.

Lemma fill_hits_app cur l1 l2 : fill_hits cur (l1 ++ l2) = fill_hits cur l1 ++ fill_hits cur l2.
Proof. unfold fill_hits. by rewrite fmap_app, concat_app. Qed.

Lemma fill_hits_length cur layers :
  length (fill_hits cur layers) = length (concat (ctrl_screens <$> layers)).
Proof.
  induction layers as [|l layers IH]; [done|].
  replace (l :: layers) with ([l] ++ layers) by done.
  rewrite fill_hits_app, fmap_app, concat_app, !length_app, IH. f_equal.
  unfold fill_hits. simpl. by rewrite !app_nil_r, length_fmap.
Qed.

Lemma fill_layers_index several cur st (layers : list layer) :
  let st' := foldl (fill_layer several cur) st layers in
  (f_layers_changed st', f_index st')
  = fill_index (fill_hits cur layers) (f_i st) (f_layers_changed st) (f_index st).
Proof.
  induction layers as [|l layers IH] using rev_ind; simpl.
  - unfold fill_index, fill_hits. simpl. by destruct (f_layers_changed st).
  - rewrite foldl_app. simpl. rewrite fill_layer_index, fill_hits_app, fill_index_app.
    simpl in IH. rewrite <- IH. simpl.
    destruct (fill_layers_filled several cur st layers) as [_ _ _ _ Hi].
    by rewrite Hi, fill_hits_length.
Qed.

(** With [layers_changed] set, [fill_list] clears it and moves the index
    at the first screen with a non-empty name of a layer that is the
    current one, and the index it sets is the number of screens listed up
    to and including that one; when there is no such screen, or
    [layers_changed] is not set, both are left as they were. *)
Theorem fill_list_index (cur : layer) (chain : list layer) (layers_changed : bool)
  (g : zynthian_gui_control) :
  ((fill_list (Some cur) chain layers_changed g).2,
   index (fill_list (Some cur) chain layers_changed g).1)
  = if layers_changed then
      match list_find (λ b, b = true) (fill_hits cur (fill_layers cur chain)) with
      | Some (n, _) => (false, Z.of_nat n + 1)
      | None => (true, index g)
      end
    else (false, index g).
Proof.
  unfold fill_list. simpl.
  pose proof (fill_layers_index (1 <? length (fill_layers cur chain))%nat cur
                (Fill [] 0 layers_changed (index g)) (fill_layers cur chain)) as H.
  simpl in H. rewrite H. unfold fill_index. destruct layers_changed; [|done].
  by destruct (list_find _ _) as [[n b]|].
Qed.

End GuiControl.

(* ===================================================================== *)
(** ** zynmixer: the wrapper around libzynmixer *)
(* ===================================================================== *)

Module Zynmixer.

Import Py.

(** *** Values, controllers, strips *)

(** The Python values that pass through the wrapper. *)
Inductive pyval :=
  | PyNone
  | PyBool (b : bool)
  | PyInt (n : Z)
  | PyFloat (f : float)
  | PyStr (s : string).

(** The keys of a strip dictionary, in insertion order. *)
Inductive ctrl_key := Level | Balance | Mute | Solo | Mono | Phase.

Global Instance ctrl_key_eq_dec : EqDecision ctrl_key.
Proof. solve_decision. Defined.

Definition key_name (k : ctrl_key) : string :=
  match k with
  | Level => "level" | Balance => "balance" | Mute => "mute"
  | Solo => "solo" | Mono => "mono" | Phase => "phase"
  end.

Definition strip_keys : list ctrl_key := [Level; Balance; Mute; Solo; Mono; Phase].

(** A [zynthian_controller] object, as the constructor calls of [__init__]
    fill it: the symbol and the entries of the options dictionary. The
    class itself (zyngine/zynthian_controller.py) is not among the sources;
    its methods are parameters of the model below. *)
Record zynthian_controller := ZCtrl {
  symbol : string;
  midi_chan : Z;
  is_integer : option bool;
  is_toggle : option bool;
  value_min : option pyval;
  value_max : pyval;
  value_default : pyval;
  value : pyval;
  graph_path : string
}.

(** [strip_dict]: one controller per key. *)
Record strip := Strip {
  c_level : zynthian_controller;
  c_balance : zynthian_controller;
  c_mute : zynthian_controller;
  c_solo : zynthian_controller;
  c_mono : zynthian_controller;
  c_phase : zynthian_controller
}.

(** [strip_dict[k]] *)
Definition strip_get (k : ctrl_key) (s : strip) : zynthian_controller :=
  match k with
  | Level => c_level s | Balance => c_balance s | Mute => c_mute s
  | Solo => c_solo s | Mono => c_mono s | Phase => c_phase s
  end.

(** A method call on [strip_dict[k]] that changes the object to [f z]. *)
Definition strip_alter (k : ctrl_key) (f : zynthian_controller → zynthian_controller)
  (s : strip) : strip :=
  match k with
  | Level => Strip (f (c_level s)) (c_balance s) (c_mute s) (c_solo s) (c_mono s) (c_phase s)
  | Balance => Strip (c_level s) (f (c_balance s)) (c_mute s) (c_solo s) (c_mono s) (c_phase s)
  | Mute => Strip (c_level s) (c_balance s) (f (c_mute s)) (c_solo s) (c_mono s) (c_phase s)
  | Solo => Strip (c_level s) (c_balance s) (c_mute s) (f (c_solo s)) (c_mono s) (c_phase s)
  | Mono => Strip (c_level s) (c_balance s) (c_mute s) (c_solo s) (f (c_mono s)) (c_phase s)
  | Phase => Strip (c_level s) (c_balance s) (c_mute s) (c_solo s) (c_mono s) (f (c_phase s))
  end.

(** *** The binding table *)

(** A controller object as the binding table refers to it: one of the
    wrapper's own (strip index and key) or any other controller handed to
    [enable_midi_learn]. Controllers compare by identity. *)
Inductive zref := OwnCtrl (chan : nat) (k : ctrl_key) | OtherCtrl (id : nat).

Global Instance zref_eq_dec : EqDecision zref.
Proof. solve_decision. Defined.

(** A dictionary of [learned_cc]: CC number to controller, in insertion
    order. *)
Definition cc_dict : Type := list (Z * zref).

(** [d[cc]]; [None] is KeyError. *)
Fixpoint dict_get (cc : Z) (d : cc_dict) : option zref :=
  match d with
  | [] => None
  | (k, z) :: d' => if bool_decide (k = cc) then Some z else dict_get cc d'
  end.

(** [d[cc] = z]: an existing key keeps its place, a new one goes last. *)
Fixpoint dict_set (cc : Z) (z : zref) (d : cc_dict) : cc_dict :=
  match d with
  | [] => [(cc, z)]
  | (k, z') :: d' =>
      if bool_decide (k = cc) then (k, z) :: d' else (k, z') :: dict_set cc z d'
  end.

(** [d.pop(cc)] on a key that is present. *)
Definition dict_pop (cc : Z) (d : cc_dict) : cc_dict :=
  filter (λ kv, kv.1 ≠ cc) d.

(** *** The instance and what it calls *)

(** The identity of a callable handed to the wrapper. *)
Definition callback : Type := nat.

(** Calls that leave the wrapper, in the order they are made. *)
Inductive event :=
  | Native (fn : string) (args : list pyval)   (* self.lib_zynmixer.fn(args) *)
  | CtrlMidiCC (z : zref) (val : pyval)        (* zctrl.midi_control_change(val) *)
  | Call (cb : callback) (args : list pyval).  (* a registered callback *)

(** The loaded shared object. *)
Inductive cdll := LibZynmixer.

Record zynmixer := Mixer {
  lib_zynmixer : option cdll;
  zctrls : list strip;
  learned_cc : list cc_dict;
  midi_learn_zctrl : option zref;
  midi_learn_cb : option callback;
  MAX_NUM_CHANNELS : Z;
  processor_cb : option callback;   (* attribute of the zynthian_engine base *)
  trace : list event
}.

Definition log (e : event) (m : zynmixer) : zynmixer :=
  Mixer (lib_zynmixer m) (zctrls m) (learned_cc m) (midi_learn_zctrl m)
        (midi_learn_cb m) (MAX_NUM_CHANNELS m) (processor_cb m) (trace m ++ [e]).

Definition with_lib (l : option cdll) (m : zynmixer) : zynmixer :=
  Mixer l (zctrls m) (learned_cc m) (midi_learn_zctrl m)
        (midi_learn_cb m) (MAX_NUM_CHANNELS m) (processor_cb m) (trace m).

Definition with_zctrls (zs : list strip) (m : zynmixer) : zynmixer :=
  Mixer (lib_zynmixer m) zs (learned_cc m) (midi_learn_zctrl m)
        (midi_learn_cb m) (MAX_NUM_CHANNELS m) (processor_cb m) (trace m).

Definition with_learned_cc (l : list cc_dict) (m : zynmixer) : zynmixer :=
  Mixer (lib_zynmixer m) (zctrls m) l (midi_learn_zctrl m)
        (midi_learn_cb m) (MAX_NUM_CHANNELS m) (processor_cb m) (trace m).

Definition with_midi_learn_zctrl (z : option zref) (m : zynmixer) : zynmixer :=
  Mixer (lib_zynmixer m) (zctrls m) (learned_cc m) z
        (midi_learn_cb m) (MAX_NUM_CHANNELS m) (processor_cb m) (trace m).

Definition with_midi_learn_cb (cb : option callback) (m : zynmixer) : zynmixer :=
  Mixer (lib_zynmixer m) (zctrls m) (learned_cc m) (midi_learn_zctrl m)
        cb (MAX_NUM_CHANNELS m) (processor_cb m) (trace m).

Definition with_MAX_NUM_CHANNELS (n : Z) (m : zynmixer) : zynmixer :=
  Mixer (lib_zynmixer m) (zctrls m) (learned_cc m) (midi_learn_zctrl m)
        (midi_learn_cb m) n (processor_cb m) (trace m).

(** *** Methods as state transformers that may raise *)

(** A method call ends by returning a value or by raising; either way it
    leaves the instance in some state. *)
Inductive outcome (A : Type) :=
  | Returns (a : A) (m : zynmixer)
  | Raises (e : exn) (m : zynmixer).
Arguments Returns {A} a m.
Arguments Raises {A} e m.

Definition state_of {A : Type} (o : outcome A) : zynmixer :=
  match o with Returns _ m => m | Raises _ m => m end.

Definition M (A : Type) : Type := zynmixer → outcome A.

Global Instance M_ret : MRet M := λ A a m, Returns a m.
Global Instance M_bind : MBind M := λ A B f x m,
  match x m with
  | Returns a m' => f a m'
  | Raises e m' => Raises e m'
  end.

Definition raise {A : Type} (e : exn) : M A := λ m, Raises e m.
Definition gets {A : Type} (f : zynmixer → A) : M A := λ m, Returns (f m) m.
Definition modify (f : zynmixer → zynmixer) : M unit := λ m, Returns tt (f m).
(** A step given by what it does to the instance. *)
Definition act {A : Type} (f : zynmixer → outcome A) : M A := f.

(** [try: body except: handler] with a bare [except]. *)
Definition try_except (body handler : M unit) : M unit := λ m,
  match body m with
  | Returns a m' => Returns a m'
  | Raises _ m' => handler m'
  end.

(** [for x in xs: body(x)] *)
Fixpoint for_each {A : Type} (xs : list A) (body : A → M unit) : M unit :=
  match xs with
  | [] => mret tt
  | x :: xs' => body x ;; for_each xs' body
  end.

Definition when (b : bool) (x : M unit) : M unit := if b then x else mret tt.

(** **** What the model takes as given *)

Class Externals := {
  (** libzynmixer: [getMaxChannels()] is a constant of the library; what
      any other reading call returns is determined by the calls made so
      far. *)
  max_channels : nat;
  native_read : list event → string → list pyval → pyval;
  (** Whether the shared object exports a symbol named [get_solo], which
      [toggle_solo] asks it for. *)
  exports_get_solo : bool;
  (** zynthian_controller: the object after [set_value(val, send)] and
      after [reset_value()], and the dictionary [get_state(full)] returns.
      These methods act on the controller they are called on. *)
  zctrl_set_value : zynthian_controller → pyval → bool → zynthian_controller;
  zctrl_reset_value : zynthian_controller → zynthian_controller;
  zctrl_get_state : zynthian_controller → bool → gmap string pyval;
  (** zynthian_engine: [set_midi_learn(zctrl, int(chan), int(cc))], which
      the wrapper inherits; it acts on the binding table or raises (the
      conversions to int included). *)
  set_midi_learn : list cc_dict → zref → pyval → pyval → exn + list cc_dict;
  (** zynthian_engine: a method [set_<name>] of the base class, for a name
      that is none of those this class defines, if there is one
      ([set_midi_learn] is one), called with three arguments of which the
      first is an int; like [set_midi_learn] it acts on the binding table
      or raises. *)
  inherited_set :
    string → option (list cc_dict → pyval → pyval → pyval → exn + list cc_dict)
}.

Section Wrapper.

Context {ext : Externals}.

(** **** Reading the library *)

Definition loaded (m : zynmixer) : bool :=
  match lib_zynmixer m with Some _ => true | None => false end.

Definition get_max_channels (m : zynmixer) : Z :=
  if loaded m then Z.of_nat max_channels else 0.

Definition get_level (channel : Z) (m : zynmixer) : pyval :=
  if loaded m then native_read (trace m) "getLevel" [PyInt channel] else PyInt 0.

Definition get_balance (channel : Z) (m : zynmixer) : pyval :=
  if loaded m then native_read (trace m) "getBalance" [PyInt channel] else PyInt 0.

Definition get_mute (channel : Z) (m : zynmixer) : pyval :=
  if loaded m then native_read (trace m) "getMute" [PyInt channel] else PyBool true.

Definition get_phase (channel : Z) (m : zynmixer) : pyval :=
  if loaded m then native_read (trace m) "getPhase" [PyInt channel] else PyBool true.

(** [x == 1] *)
Definition py_eq_1 (x : pyval) : bool :=
  match x with
  | PyInt n => n =? 1
  | PyBool b => b
  | PyFloat f => (f =? 1)%float
  | _ => false
  end.

(** [x != 0] *)
Definition py_ne_0 (x : pyval) : bool :=
  match x with
  | PyInt n => negb (n =? 0)
  | PyBool b => b
  | PyFloat f => negb (f =? 0)%float
  | _ => true
  end.

Definition get_solo (channel : Z) (m : zynmixer) : pyval :=
  if loaded m then PyBool (py_eq_1 (native_read (trace m) "getSolo" [PyInt channel]))
  else PyBool true.

Definition get_mono (channel : Z) (m : zynmixer) : pyval :=
  if loaded m then PyBool (py_eq_1 (native_read (trace m) "getMono" [PyInt channel]))
  else PyBool true.

Definition is_channel_routed (channel : Z) (m : zynmixer) : pyval :=
  if loaded m then PyBool (py_ne_0 (native_read (trace m) "isChannelRouted" [PyInt channel]))
  else PyBool false.

Definition get_dpm (channel leg : Z) (m : zynmixer) : pyval :=
  if loaded m then native_read (trace m) "getDpm" [PyInt channel; PyInt leg]
  else PyFloat (-200)%float.

Definition get_dpm_hold (channel leg : Z) (m : zynmixer) : pyval :=
  if loaded m then native_read (trace m) "getDpmHold" [PyInt channel; PyInt leg]
  else PyFloat (-200)%float.

(** **** The constructor *)

(** The [strip_dict] built for channel [i]; the default level 0.8 is the
    double 0x1.999999999999ap-1. *)
Definition new_strip (i : Z) (m : zynmixer) : strip :=
  {| c_level :=
       ZCtrl "level" i (Some false) None None (PyFloat 1) (PyFloat 0x1.999999999999ap-1)
             (get_level i m) ("level_" +:+ pretty i);
     c_balance :=
       ZCtrl "balance" i (Some false) None (Some (PyFloat (-1))) (PyFloat 1) (PyFloat 0)
             (get_balance i m) ("balance_" +:+ pretty i);
     c_mute :=
       ZCtrl "mute" i None (Some true) None (PyInt 1) (PyInt 0)
             (get_mute i m) ("mute_" +:+ pretty i);
     c_solo :=
       ZCtrl "solo" i None (Some true) None (PyInt 1) (PyInt 0)
             (get_solo i m) ("solo_" +:+ pretty i);
     c_mono :=
       ZCtrl "mono" i None (Some true) None (PyInt 1) (PyInt 0)
             (get_mono i m) ("mono_" +:+ pretty i);
     c_phase :=
       ZCtrl "phase" i None (Some true) None (PyInt 1) (PyInt 0)
             (get_phase i m) ("phase_" +:+ pretty i) |}.

(** [__init__]. [load_ok] tells whether the [try] block (loading the shared
    object, [init()], the four [restype] assignments) ran through;
    [base_cb] is the [processor_cb] that [super().__init__()] leaves.
    [MAX_NUM_CHANNELS] is assigned last: when that line raises, the
    attribute does not exist (the field then holds 0). *)
Definition __init__ (load_ok : bool) (base_cb : option callback) : outcome unit :=
  let m :=
    {| lib_zynmixer := if load_ok then Some LibZynmixer else None;
       zctrls := [];
       learned_cc := replicate 16 [];
       midi_learn_zctrl := None;
       midi_learn_cb := None;
       MAX_NUM_CHANNELS := 0;
       processor_cb := base_cb;
       trace := if load_ok then [Native "init" []] else [] |} in
  let m :=
    foldl (λ m i, with_zctrls (zctrls m ++ [new_strip i m]) m) m
          (range (Z.to_nat (get_max_channels m + 1))) in
  match lib_zynmixer m with
  | Some _ => Returns tt (with_MAX_NUM_CHANNELS (Z.of_nat max_channels) m)
  | None => Raises AttributeError m
  end.

(** **** Pieces shared by the setters *)

(** [if channel >= self.MAX_NUM_CHANNELS: channel = self.MAX_NUM_CHANNELS] *)
Definition clamp_channel (channel : Z) (m : zynmixer) : Z :=
  if MAX_NUM_CHANNELS m <=? channel then MAX_NUM_CHANNELS m else channel.

(** [if self.lib_zynmixer: self.lib_zynmixer.fn(args)]. The trace records
    the call with its Python arguments; ctypes hands an int on as a C int,
    which is the int itself from -2^31 up to 2^31 - 1. *)
Definition lib_call (fn : string) (args : list pyval) : M unit := λ m,
  if loaded m then Returns tt (log (Native fn args) m) else Returns tt m.

(** [self.zctrls[channel][k].method(...)], the object becoming [f z]. *)
Definition zctrl_call (channel : Z) (k : ctrl_key)
  (f : zynthian_controller → zynthian_controller) : M unit := λ m,
  match list_slot (zctrls m) channel with
  | Some i => Returns tt (with_zctrls (alter (strip_alter k f) i (zctrls m)) m)
  | None => Raises IndexError m
  end.

(** [send_update] *)
Definition send_update (chan : pyval) (ctrl : string) (val : pyval) : M unit := λ m,
  match processor_cb m with
  | Some cb => Returns tt (log (Call cb [chan; PyStr ctrl; val]) m)
  | None => Returns tt m
  end.

(** The body common to [set_level], [set_balance], [set_phase], [set_solo]
    and [set_mono]; [fn] is the library's setter. For level and balance the
    value goes to the library wrapped in [ctypes.c_float]. *)
Definition set_ctrl (k : ctrl_key) (fn : string) (channel : Z) (val : pyval)
  (update : bool) : M unit :=
  channel ← gets (clamp_channel channel);
  lib_call fn [PyInt channel; val];;
  when update (zctrl_call channel k (λ z, zctrl_set_value z val false));;
  send_update (PyInt channel) (key_name k) val.

Definition set_level := set_ctrl Level "setLevel".
Definition set_balance := set_ctrl Balance "setBalance".
Definition set_phase := set_ctrl Phase "setPhase".
Definition set_solo := set_ctrl Solo "setSolo".
Definition set_mono := set_ctrl Mono "setMono".

(** [set_mute]: the channel may be [None], which is then used as it is. *)
Definition set_mute (channel : option Z) (mute : pyval) (update : bool) : M unit :=
  channel ← gets (λ m, (λ c, clamp_channel c m) <$> channel);
  let ch := from_option PyInt PyNone channel in
  lib_call "setMute" [ch; mute];;
  when update
    (match channel with
     | Some c => zctrl_call c Mute (λ z, zctrl_set_value z mute false)
     | None => raise TypeError
     end);;
  send_update ch "mute" mute.

Definition toggle_mute (channel : Z) : M unit :=
  channel ← gets (clamp_channel channel);
  lib_call "toggleMute" [PyInt channel].

(** [self.lib_zynmixer.fn(channel)] outside an [if self.lib_zynmixer] *)
Definition lib_read (fn : string) (channel : Z) : M pyval := λ m,
  if loaded m then Returns (native_read (trace m) fn [PyInt channel]) m
  else Raises AttributeError m.

(** [self.zctrls[channel][k]], looked up before the arguments of the call *)
Definition zctrl_lookup (channel : Z) : M unit := λ m,
  match list_slot (zctrls m) channel with
  | Some _ => Returns tt m
  | None => Raises IndexError m
  end.

Definition toggle_phase (channel : Z) (update : bool) : M unit :=
  channel ← gets (clamp_channel channel);
  lib_call "togglePhase" [PyInt channel];;
  when update
    (zctrl_lookup channel;;
     v ← lib_read "getPhase" channel;
     zctrl_call channel Phase (λ z, zctrl_set_value z v false)).

Definition truthy (x : pyval) : bool :=
  match x with
  | PyNone => false
  | PyBool b => b
  | PyInt n => negb (n =? 0)
  | PyFloat f => negb (f =? 0)%float
  | PyStr s => negb (bool_decide (s = ""%string))
  end.

Definition toggle_solo (channel : Z) (update : bool) : M unit :=
  channel ← gets (clamp_channel channel);
  is_loaded ← gets loaded;
  when is_loaded
    (on ← gets (get_solo channel);
     if truthy on then set_solo channel (PyBool false) true
     else set_solo channel (PyBool true) true);;
  when update
    (zctrl_lookup channel;;
     v ← (if exports_get_solo then lib_read "get_solo" channel else raise AttributeError);
     zctrl_call channel Solo (λ z, zctrl_set_value z v false)).

Definition toggle_mono (channel : Z) (update : bool) : M unit :=
  channel ← gets (clamp_channel channel);
  is_loaded ← gets loaded;
  when is_loaded
    (on ← gets (get_mono channel);
     if truthy on then set_mono channel (PyBool false) true
     else set_mono channel (PyBool true) true);;
  when update
    (zctrl_lookup channel;;
     v ← lib_read "getMono" channel;
     zctrl_call channel Mono (λ z, zctrl_set_value z v false)).

(** [enable_dpm]; [int(enable)] for a bool. *)
Definition enable_dpm (chan : Z) (enable : bool) : M unit :=
  lib_call "enableDpm" [PyInt chan; PyInt (Z.b2z enable)].

Definition add_osc_client (client : string) : M unit :=
  lib_call "addOscClient" [PyStr client].

Definition remove_osc_client (client : string) : M unit :=
  lib_call "removeOscClient" [PyStr client].

(** [destroy]: the module ctypes has no attribute [dlclose], so that with
    a library loaded the call raises AttributeError once [end()] has run,
    before [lib_zynmixer] is cleared. *)
Definition destroy : M unit :=
  is_loaded ← gets loaded;
  when is_loaded
    (lib_call "end" [];;
     raise AttributeError);;
  modify (with_lib None).

(** **** State management (for snapshots) *)

(** [isinstance(channel, int)]: an int or a bool, with its integer value. *)
Definition as_int (x : pyval) : option Z :=
  match x with
  | PyInt n => Some n
  | PyBool b => Some (Z.b2z b)
  | _ => None
  end.

(** [reset]: the six [reset_value()] calls in the order of the source. *)
Definition reset (channel : pyval) : M unit :=
  match as_int channel with
  | None => mret tt
  | Some channel =>
      channel ← gets (clamp_channel channel);
      zctrl_call channel Level zctrl_reset_value;;
      zctrl_call channel Balance zctrl_reset_value;;
      zctrl_call channel Mute zctrl_reset_value;;
      zctrl_call channel Mono zctrl_reset_value;;
      zctrl_call channel Solo zctrl_reset_value;;
      zctrl_call channel Phase zctrl_reset_value
  end.

Definition reset_state : M unit :=
  n ← gets get_max_channels;
  for_each (range (Z.to_nat (n + 1))) (λ channel, reset (PyInt channel)).

(** ['{:02d}'.format(n)] *)
Definition format_02d (n : Z) : string :=
  let s := pretty n in
  if (String.length s <? 2)%nat then "0" +:+ s else s.

(** The key of a strip in a snapshot. *)
Definition chan_key (chan : Z) (m : zynmixer) : string :=
  if chan <? get_max_channels m then "chan_" +:+ format_02d chan else "main".

(** A snapshot: strip key, then controller symbol, then the controller's
    own state dictionary. *)
Abbreviation ctrl_state_t := (gmap string pyval).
Abbreviation chan_state_t := (gmap string (gmap string pyval)).
Abbreviation state_t := (gmap string (gmap string (gmap string pyval))).

(** Truth value of a dictionary: non-empty. *)
Definition dict_truthy {V : Type} (d : gmap string V) : bool :=
  negb (bool_decide (size d = 0%nat)).

(** The inner loop of [get_state]: [chan_state] for one strip. *)
Definition get_chan_state (full : bool) (s : strip) : chan_state_t :=
  foldl (λ chan_state k,
           let zctrl := strip_get k s in
           let ctrl_state := zctrl_get_state zctrl full in
           if dict_truthy ctrl_state
           then <[symbol zctrl := ctrl_state]> chan_state
           else chan_state)
        ∅ strip_keys.

Fixpoint get_state_loop (full : bool) (chans : list Z) (state : state_t) : M state_t :=
  match chans with
  | [] => mret state
  | chan :: chans' =>
      key ← gets (chan_key chan);
      strips ← gets zctrls;
      match list_index strips chan with
      | None => raise IndexError
      | Some s =>
          let chan_state := get_chan_state full s in
          get_state_loop full chans'
            (if dict_truthy chan_state then <[key := chan_state]> state else state)
      end
  end.

Definition get_state (full : bool) : M state_t :=
  n ← gets get_max_channels;
  get_state_loop full (range (Z.to_nat (n + 1))) ∅.

(** The method call on the controller that [enumerate(self.zctrls)] and
    [zctrls.items()] have reached: strip [chan], key [k]. *)
Definition zctrl_at (chan : nat) (k : ctrl_key)
  (f : zynthian_controller → zynthian_controller) : M unit :=
  modify (λ m, with_zctrls (alter (strip_alter k f) chan (zctrls m)) m).

(** [state[key][symbol]] *)
Definition state_lookup (state : state_t) (key sym : string) : M ctrl_state_t :=
  match state !! key with
  | None => raise KeyError
  | Some chan_state =>
      match chan_state !! sym with
      | None => raise KeyError
      | Some ctrl_state => mret ctrl_state
      end
  end.

(** The two [if]s of the [try] block of [set_state], once
    [ctrl_state = state[key][symbol]] is found. *)
Definition restore_ctrl (chan : nat) (k : ctrl_key) (ctrl_state : gmap string pyval)
  : M unit :=
  match ctrl_state !! "value" with
  | Some v => zctrl_at chan k (λ z, zctrl_set_value z v true)
  | None => mret tt
  end;;
  match ctrl_state !! "midi_learn_chan", ctrl_state !! "midi_learn_cc" with
  | Some c1, Some c2 =>
      act (λ m, match set_midi_learn (learned_cc m) (OwnCtrl chan k) c1 c2 with
                | inr l => Returns tt (with_learned_cc l m)
                | inl e => Raises e m
                end)
  | _, _ => mret tt
  end.

(** The [try] block of [set_state] and its handler, for one controller. *)
Definition set_state_ctrl (state : state_t) (full : bool) (chan : nat) (k : ctrl_key)
  : M unit :=
  try_except
    (key ← gets (chan_key (Z.of_nat chan));
     state_lookup state key (key_name k) ≫= restore_ctrl chan k)
    (when full (zctrl_at chan k zctrl_reset_value)).

Definition set_state (state : state_t) (full : bool) : M unit :=
  strips ← gets zctrls;
  for_each (seq 0 (length strips))
    (λ chan, for_each strip_keys (set_state_ctrl state full chan)).

(** **** MIDI learn *)

(** [self.learned_cc[ch][ccnum].midi_control_change(val)] *)
Definition forward_cc (ch ccnum : Z) (val : pyval) : M unit := λ m,
  match list_index (learned_cc m) ch with
  | None => Raises IndexError m
  | Some d =>
      match dict_get ccnum d with
      | None => Raises KeyError m
      | Some z => Returns tt (log (CtrlMidiCC z val) m)
      end
  end.

Definition disable_midi_learn : M unit :=
  modify (with_midi_learn_zctrl None);;
  cb ← gets midi_learn_cb;
  match cb with
  | Some cb => modify (log (Call cb []))
  | None => mret tt
  end.

(** [midi_control_change]; the first argument is the global
    [zynthian_gui_config.midi_single_active_channel]. A controller object
    is true, [None] is false. *)
Definition midi_control_change (midi_single_active_channel : bool)
  (chan ccnum : Z) (val : pyval) : M unit :=
  pending ← gets midi_learn_zctrl;
  match pending with
  | Some zctrl =>
      act (λ m, match list_slot (learned_cc m) chan with
                | Some i =>
                    Returns tt
                      (with_learned_cc (alter (dict_set ccnum zctrl) i (learned_cc m)) m)
                | None => Raises IndexError m
                end);;
      disable_midi_learn
  | None =>
      if midi_single_active_channel then
        for_each (range 16) (λ ch, try_except (forward_cc ch ccnum val) (mret tt))
      else
        try_except (forward_cc chan ccnum val) (mret tt)
  end.

(** What [self.learned_cc] is subscripted with: an int, or, in
    [midi_unlearn], whose loop variable ranges over the list itself, one of
    its dictionaries. *)
Inductive subscript := SubInt (i : Z) | SubDict (d : cc_dict).

(** [self.learned_cc[chan]]: the slot it denotes; a list does not take a
    dictionary as index. *)
Definition learned_cc_slot (chan : subscript) : M nat := λ m,
  match chan with
  | SubInt i =>
      match list_slot (learned_cc m) i with
      | Some n => Returns n m
      | None => Raises IndexError m
      end
  | SubDict _ => Raises TypeError m
  end.

(** The dictionary iterator of the inner loop of [midi_unlearn]: before
    each step, the end included, it raises RuntimeError if the dictionary
    (at [slot]) has changed size since the loop began. *)
Fixpoint midi_unlearn_keys (zctrl : zref) (chan : subscript) (slot size : nat)
  (keys : list Z) : M unit :=
  d ← gets (λ m, default [] (learned_cc m !! slot));
  if negb (length d =? size)%nat then raise RuntimeError else
  match keys with
  | [] => mret tt
  | cc :: keys' =>
      i ← learned_cc_slot chan;
      d ← gets (λ m, default [] (learned_cc m !! i));
      match dict_get cc d with
      | None => raise KeyError
      | Some z =>
          when (bool_decide (z = zctrl))
            (j ← learned_cc_slot chan;
             modify (λ m, with_learned_cc (alter (dict_pop cc) j (learned_cc m)) m))
      end;;
      midi_unlearn_keys zctrl chan slot size keys'
  end.

Definition midi_unlearn (zctrl : zref) : M unit :=
  chans ← gets learned_cc;
  for_each (SubDict <$> chans)
    (λ chan,
       slot ← learned_cc_slot chan;
       d ← gets (λ m, default [] (learned_cc m !! slot));
       midi_unlearn_keys zctrl chan slot (length d) (d.*1)).

(** [midi_unlearn_chan]: [self.zctrls[chan].values] is the bound method,
    which a [for] cannot iterate. *)
Definition midi_unlearn_chan (chan : Z) : M unit :=
  zctrl_lookup chan;;
  raise TypeError.

(** [get_learned_cc]: the first binding of [zctrl], channel by channel. *)
Fixpoint get_learned_cc_from (zctrl : zref) (chans : list Z) (m : zynmixer)
  : option (option (Z * Z)) :=
  match chans with
  | [] => Some None
  | chan :: chans' =>
      d ← list_index (learned_cc m) chan;
      match filter (λ kv, kv.2 = zctrl) d with
      | (cc, _) :: _ => Some (Some (chan, cc))
      | [] => get_learned_cc_from zctrl chans' m
      end
  end.

Definition get_learned_cc (zctrl : zref) : M (option (Z * Z)) := λ m,
  match get_learned_cc_from zctrl (range 16) m with
  | Some r => Returns r m
  | None => Raises IndexError m
  end.

Definition enable_midi_learn (zctrl : zref) : M unit :=
  modify (with_midi_learn_zctrl (Some zctrl)).

Definition set_midi_learn_cb (cb : option callback) : M unit :=
  modify (with_midi_learn_cb cb).

(** The method [set_<symbol>] of the wrapper that takes a channel, a value
    and [update]. *)
Definition setter (k : ctrl_key) (channel : Z) (val : pyval) (update : bool) : M unit :=
  match k with
  | Level => set_level channel val update
  | Balance => set_balance channel val update
  | Mute => set_mute (Some channel) val update
  | Solo => set_solo channel val update
  | Mono => set_mono channel val update
  | Phase => set_phase channel val update
  end.

Definition key_of_symbol (sym : string) : option ctrl_key :=
  find (λ k, String.eqb (key_name k) sym) strip_keys.

(** The binding table handed to inherited code, and what comes back. *)
Definition on_learned_cc (f : list cc_dict → exn + list cc_dict) : M unit :=
  act (λ m, match f (learned_cc m) with
            | inr l => Returns tt (with_learned_cc l m)
            | inl e => Raises e m
            end).

(** [send_controller_value]: [getattr] finds the attribute named
    set_ and the controller's symbol: one of the six setters; [set_state]
    or [set_midi_learn_cb], which do not take three arguments (TypeError);
    else a method of the base class, or none (AttributeError). Whatever is
    raised is logged and dropped. *)
Definition send_controller_value (zctrl : zynthian_controller) : M unit :=
  try_except
    (match key_of_symbol (symbol zctrl) with
     | Some k => setter k (midi_chan zctrl) (value zctrl) false
     | None =>
         if bool_decide (symbol zctrl = "state")
            || bool_decide (symbol zctrl = "midi_learn_cb")
         then raise TypeError
         else
           match inherited_set (symbol zctrl) with
           | Some f =>
               on_learned_cc
                 (λ l, f l (PyInt (midi_chan zctrl)) (value zctrl) (PyBool false))
           | None => raise AttributeError
           end
     end)
    (mret tt).

(** **** The calls a client can make on an instance *)

Inductive op :=
  | Destroy
  | SetLevel (channel : Z) (val : pyval) (update : bool)
  | SetBalance (channel : Z) (val : pyval) (update : bool)
  | SetMute (channel : option Z) (val : pyval) (update : bool)
  | ToggleMute (channel : Z)
  | SetPhase (channel : Z) (val : pyval) (update : bool)
  | TogglePhase (channel : Z) (update : bool)
  | SetSolo (channel : Z) (val : pyval) (update : bool)
  | ToggleSolo (channel : Z) (update : bool)
  | SetMono (channel : Z) (val : pyval) (update : bool)
  | ToggleMono (channel : Z) (update : bool)
  | EnableDpm (chan : Z) (enable : bool)
  | AddOscClient (client : string)
  | RemoveOscClient (client : string)
  | Reset (channel : pyval)
  | ResetState
  | SetState (state : state_t) (full : bool)
  | SendControllerValue (zctrl : zynthian_controller)
  | MidiControlChange (single_active_channel : bool) (chan ccnum : Z) (val : pyval)
  | MidiUnlearnChan (chan : Z)
  | MidiUnlearn (zctrl : zref)
  | EnableMidiLearn (zctrl : zref)
  | DisableMidiLearn
  | SetMidiLearnCb (cb : option callback).

Definition run (o : op) : M unit :=
  match o with
  | Destroy => destroy
  | SetLevel c v u => set_level c v u
  | SetBalance c v u => set_balance c v u
  | SetMute c v u => set_mute c v u
  | ToggleMute c => toggle_mute c
  | SetPhase c v u => set_phase c v u
  | TogglePhase c u => toggle_phase c u
  | SetSolo c v u => set_solo c v u
  | ToggleSolo c u => toggle_solo c u
  | SetMono c v u => set_mono c v u
  | ToggleMono c u => toggle_mono c u
  | EnableDpm c e => enable_dpm c e
  | AddOscClient c => add_osc_client c
  | RemoveOscClient c => remove_osc_client c
  | Reset c => reset c
  | ResetState => reset_state
  | SetState st f => set_state st f
  | SendControllerValue z => send_controller_value z
  | MidiControlChange f c n v => midi_control_change f c n v
  | MidiUnlearnChan c => midi_unlearn_chan c
  | MidiUnlearn z => midi_unlearn z
  | EnableMidiLearn z => enable_midi_learn z
  | DisableMidiLearn => disable_midi_learn
  | SetMidiLearnCb cb => set_midi_learn_cb cb
  end.

(** The instance after a sequence of calls; a call that raises leaves the
    instance as it was when it raised. *)
Definition run_all (ops : list op) (m : zynmixer) : zynmixer :=
  foldl (λ m o, state_of (run o m)) m ops.

(** A constructed instance: the constructor returned, then any calls. *)
Definition reachable (m : zynmixer) : Prop :=
  ∃ load_ok base_cb m0 ops,
    __init__ load_ok base_cb = Returns tt m0 ∧ m = run_all ops m0.

Definition is_destroy (o : op) : bool :=
  match o with Destroy => true | _ => false end.

End Wrapper.

(** *** A small instance to run the model on *)

(** Modelled from the spec: the methods of zynthian_controller
    (zyngine/zynthian_controller.py) and the inherited
    zynthian_engine.set_midi_learn, neither among the sources. The wrapper
    "caches last-known values for snapshot persistence": [set_value] stores
    the value, [reset_value] stores the default, [get_state] reports the
    stored value, [set_midi_learn] binds the controller in the table. *)
Definition standin_set_value (z : zynthian_controller) (v : pyval) (send : bool)
  : zynthian_controller :=
  ZCtrl (symbol z) (midi_chan z) (is_integer z) (is_toggle z) (value_min z)
        (value_max z) (value_default z) v (graph_path z).

Definition standin_reset_value (z : zynthian_controller) : zynthian_controller :=
  standin_set_value z (value_default z) true.

Definition standin_get_state (z : zynthian_controller) (full : bool) : gmap string pyval :=
  {[ "value"%string := value z ]}.

Definition standin_set_midi_learn (l : list cc_dict) (z : zref) (chan cc : pyval)
  : exn + list cc_dict :=
  match chan, cc with
  | PyInt chan, PyInt cc =>
      match list_slot l chan with
      | Some i => inr (alter (dict_set cc z) i l)
      | None => inl IndexError
      end
  | _, _ => inl TypeError
  end.

(** Modelled from the spec: the base class zynthian_engine, not among the
    sources, has [set_midi_learn] and no other setter; handed an int for a
    controller it fails on the first attribute it asks it for. *)
Definition standin_inherited_set (name : string)
  : option (list cc_dict → pyval → pyval → pyval → exn + list cc_dict) :=
  if bool_decide (name = "midi_learn") then Some (λ _ _ _ _, inl AttributeError)
  else None.

(** A library with two channels and the main bus, every reading call
    answering 0; it exports no symbol [get_solo]. *)
Definition standin_read (tr : list event) (fn : string) (args : list pyval) : pyval :=
  PyInt 0.

Definition standin : Externals :=
  {| max_channels := 2;
     native_read := standin_read;
     exports_get_solo := false;
     zctrl_set_value := standin_set_value;
     zctrl_reset_value := standin_reset_value;
     zctrl_get_state := standin_get_state;
     set_midi_learn := standin_set_midi_learn;
     inherited_set := standin_inherited_set |}.

Abbreviation init2 := (__init__ (ext := standin)).
Abbreviation run2 := (run (ext := standin)).
Abbreviation run_all2 := (run_all (ext := standin)).

(** The instance a successful constructor returns. *)
Definition fresh2 : zynmixer := state_of (init2 true None).

Example init2_returns : init2 true None = Returns tt fresh2.
Proof. reflexivity. Qed.

Example fresh2_shape :
  length (zctrls fresh2) = 3%nat ∧ MAX_NUM_CHANNELS fresh2 = 2
  ∧ length (learned_cc fresh2) = 16%nat ∧ trace fresh2 = [Native "init" []].
Proof. by vm_compute. Qed.

Example set_level_example :
  let m := state_of (run2 (SetLevel 1 (PyFloat 0.5) true) fresh2) in
  value <$> (c_level <$> zctrls m !! 1%nat) = Some (PyFloat 0.5)
  ∧ trace m = [Native "init" []; Native "setLevel" [PyInt 1; PyFloat 0.5]].
Proof. by vm_compute. Qed.

Example learn_then_forward :
  let m := run_all2 [EnableMidiLearn (OwnCtrl 1 Level);
                     MidiControlChange false 3 7 (PyInt 100);
                     MidiControlChange false 3 7 (PyInt 64);
                     MidiControlChange false 4 7 (PyInt 65)] fresh2 in
  trace m = [Native "init" []; CtrlMidiCC (OwnCtrl 1 Level) (PyInt 64)]
  ∧ midi_learn_zctrl m = None.
Proof. by vm_compute. Qed.

(** *** Reasoning about method calls *)

Section Facts.

Context {ext : Externals}.

(** [hoare P E x]: from a state in [P], the call [x] ends in a state in
    [P], and what it raises is in [E]. *)
Definition hoare {A : Type} (P : zynmixer → Prop) (E : exn → Prop) (x : M A) : Prop :=
  ∀ m, P m →
    match x m with
    | Returns _ m' => P m'
    | Raises e m' => E e ∧ P m'
    end.

Definition any_exn : exn → Prop := λ _, True.
Definition not_IndexError : exn → Prop := λ e, e ≠ IndexError.

Lemma hoare_ret {A} P E (a : A) : hoare P E (mret a).
Proof. by intros m Hm. Qed.

Lemma hoare_gets {A} P E (f : zynmixer → A) : hoare P E (gets f).
Proof. by intros m Hm. Qed.

Lemma hoare_raise {A} P (E : exn → Prop) e : E e → hoare P E (raise (A := A) e).
Proof. by intros He m Hm. Qed.

Lemma hoare_modify P E f : (∀ m, P m → P (f m)) → hoare P E (modify f).
Proof. intros Hf m Hm. by apply Hf. Qed.

Lemma hoare_bind {A B} P E (x : M A) (f : A → M B) :
  hoare P E x → (∀ a, hoare P E (f a)) → hoare P E (x ≫= f).
Proof.
  intros Hx Hf m Hm. specialize (Hx m Hm). unfold mbind, M_bind.
  destruct (x m) as [a m'|e m']; [by apply Hf | done].
Qed.

(** After [gets g] the continuation runs on a value read in a [P]-state. *)
Lemma hoare_gets_bind {A B} P E (g : zynmixer → A) (f : A → M B) :
  (∀ a, (∃ m0, P m0 ∧ a = g m0) → hoare P E (f a)) → hoare P E (gets g ≫= f).
Proof. intros Hf m Hm. unfold mbind, M_bind, gets. apply Hf; eauto. Qed.

Lemma hoare_try P E E' (body handler : M unit) :
  hoare P E' body → hoare P E handler → hoare P E (try_except body handler).
Proof.
  intros Hb Hh m Hm. specialize (Hb m Hm). unfold try_except.
  destruct (body m) as [a m'|e m']; [done | by apply Hh, Hb].
Qed.

Lemma hoare_when P E b (x : M unit) : hoare P E x → hoare P E (when b x).
Proof. destruct b; [done | intros _; apply hoare_ret]. Qed.

Lemma hoare_for_each {A} P E (xs : list A) (body : A → M unit) :
  (∀ x, x ∈ xs → hoare P E (body x)) → hoare P E (for_each xs body).
Proof.
  induction xs as [|x xs IH]; intros Hb; simpl; [apply hoare_ret|].
  apply hoare_bind; [apply Hb; left | intros _; apply IH].
  intros y Hy. apply Hb. by right.
Qed.

Lemma hoare_weaken {A} P (E E' : exn → Prop) (x : M A) :
  (∀ e, E e → E' e) → hoare P E x → hoare P E' x.
Proof.
  intros HE Hx m Hm. specialize (Hx m Hm).
  destruct (x m); [done | split; [apply HE|]; apply Hx].
Qed.

(** What a method call on a cached controller can be. *)
Inductive ctrl_method : (zynthian_controller → zynthian_controller) → Prop :=
  | cm_set_value v send : ctrl_method (λ z, zctrl_set_value z v send)
  | cm_reset_value : ctrl_method zctrl_reset_value.

(** A property of the instance that none of the state changes below can
    break; these are all the changes the methods other than [destroy]
    make. *)
Record stable (P : zynmixer → Prop) : Prop := {
  stable_log : ∀ e m, P m → P (log e m);
  stable_ctrl : ∀ i k f m,
    ctrl_method f → P m → P (with_zctrls (alter (strip_alter k f) i (zctrls m)) m);
  stable_learned_cc : ∀ l m, P m → P (with_learned_cc l m);
  stable_learn_zctrl : ∀ z m, P m → P (with_midi_learn_zctrl z m);
  stable_learn_cb : ∀ cb m, P m → P (with_midi_learn_cb cb m)
}.

Section Stable.

(** [P] is the property kept, [E] what may be raised, [G] the channel
    arguments considered: clamping keeps a channel in [G] and, unless
    IndexError is allowed, makes it a valid index of the cache. *)
Variable P : zynmixer → Prop.
Variable E : exn → Prop.
Variable G : Z → Prop.
Hypothesis HP : stable P.
Hypothesis HE : ∀ e, e ≠ IndexError → E e.

Definition in_bounds (c : Z) : Prop :=
  E IndexError ∨ ∀ m, P m → is_Some (list_slot (zctrls m) c).

Hypothesis HG : ∀ c m0, G c → P m0 →
  G (clamp_channel c m0) ∧ in_bounds (clamp_channel c m0).

Lemma hoare_lib_call fn args : hoare P E (lib_call fn args).
Proof.
  intros m Hm. unfold lib_call. destruct (loaded m); [|done]. by apply stable_log.
Qed.

Lemma hoare_send_update chan ctrl val : hoare P E (send_update chan ctrl val).
Proof.
  intros m Hm. unfold send_update. destruct (processor_cb m); [|done].
  by apply stable_log.
Qed.

Lemma hoare_zctrl_call channel k f :
  ctrl_method f → in_bounds channel → hoare P E (zctrl_call channel k f).
Proof.
  intros Hf Hin m Hm. unfold zctrl_call.
  destruct (list_slot (zctrls m) channel) as [i|] eqn:Hi.
  - by apply stable_ctrl.
  - destruct Hin as [Hin|Hin]; [done|]. apply Hin in Hm. rewrite Hi in Hm.
    by destruct Hm.
Qed.

Lemma hoare_zctrl_lookup channel : in_bounds channel → hoare P E (zctrl_lookup channel).
Proof.
  intros Hin m Hm. unfold zctrl_lookup.
  destruct (list_slot (zctrls m) channel) as [i|] eqn:Hi; [done|].
  destruct Hin as [Hin|Hin]; [done|]. apply Hin in Hm. rewrite Hi in Hm. by destruct Hm.
Qed.

Lemma hoare_lib_read fn channel : hoare P E (lib_read fn channel).
Proof.
  intros m Hm. unfold lib_read. destruct (loaded m); [done|]. split; [by apply HE|done].
Qed.

Lemma hoare_zctrl_at chan k f : ctrl_method f → hoare P E (zctrl_at chan k f).
Proof. intros Hf. apply hoare_modify. intros m Hm. by apply stable_ctrl. Qed.

Lemma hoare_set_ctrl k fn channel val update :
  G channel → hoare P E (set_ctrl k fn channel val update).
Proof.
  intros Hc. unfold set_ctrl. apply hoare_gets_bind. intros c (m0 & Hm0 & ->).
  apply hoare_bind; [apply hoare_lib_call | intros _].
  apply hoare_bind; [| intros _; apply hoare_send_update].
  apply hoare_when, hoare_zctrl_call; [constructor|]. by apply HG.
Qed.

Lemma hoare_set_mute channel val update :
  from_option G True channel → hoare P E (set_mute channel val update).
Proof.
  intros Hc. unfold set_mute. apply hoare_gets_bind. intros c (m0 & Hm0 & ->).
  apply hoare_bind; [apply hoare_lib_call | intros _].
  apply hoare_bind; [| intros _; apply hoare_send_update].
  apply hoare_when. destruct channel as [c|]; simpl; [|by apply hoare_raise, HE].
  apply hoare_zctrl_call; [constructor|]. by apply HG.
Qed.

Lemma hoare_toggle_mute channel : hoare P E (toggle_mute channel).
Proof.
  unfold toggle_mute. apply hoare_gets_bind. intros c _. apply hoare_lib_call.
Qed.

Lemma hoare_toggle_phase channel update :
  G channel → hoare P E (toggle_phase channel update).
Proof.
  intros Hc. unfold toggle_phase. apply hoare_gets_bind. intros c (m0 & Hm0 & ->).
  destruct (HG _ _ Hc Hm0) as [_ Hin].
  apply hoare_bind; [apply hoare_lib_call | intros _].
  apply hoare_when, hoare_bind; [by apply hoare_zctrl_lookup | intros _].
  apply hoare_bind; [by apply hoare_lib_read | intros v].
  apply hoare_zctrl_call; [constructor | done].
Qed.

Lemma hoare_toggle_solo channel update :
  G channel → hoare P E (toggle_solo channel update).
Proof.
  intros Hc. unfold toggle_solo. apply hoare_gets_bind. intros c (m0 & Hm0 & ->).
  destruct (HG _ _ Hc Hm0) as [Hc' Hin].
  apply hoare_gets_bind. intros b _.
  apply hoare_bind; [| intros _].
  - apply hoare_when, hoare_gets_bind. intros on _.
    destruct (truthy on); by apply hoare_set_ctrl.
  - apply hoare_when, hoare_bind; [by apply hoare_zctrl_lookup | intros _].
    apply hoare_bind; [| intros v; apply hoare_zctrl_call; [constructor | done]].
    destruct exports_get_solo; [apply hoare_lib_read | by apply hoare_raise, HE].
Qed.

Lemma hoare_toggle_mono channel update :
  G channel → hoare P E (toggle_mono channel update).
Proof.
  intros Hc. unfold toggle_mono. apply hoare_gets_bind. intros c (m0 & Hm0 & ->).
  destruct (HG _ _ Hc Hm0) as [Hc' Hin].
  apply hoare_gets_bind. intros b _.
  apply hoare_bind; [| intros _].
  - apply hoare_when, hoare_gets_bind. intros on _.
    destruct (truthy on); by apply hoare_set_ctrl.
  - apply hoare_when, hoare_bind; [by apply hoare_zctrl_lookup | intros _].
    apply hoare_bind; [apply hoare_lib_read | intros v].
    apply hoare_zctrl_call; [constructor | done].
Qed.

Lemma hoare_reset channel :
  from_option G True (as_int channel) → hoare P E (reset channel).
Proof.
  intros Hc. unfold reset. destruct (as_int channel) as [c|]; [|apply hoare_ret].
  apply hoare_gets_bind. intros c' (m0 & Hm0 & ->).
  destruct (HG _ _ Hc Hm0) as [_ Hin].
  repeat (apply hoare_bind; [| intros _]);
    (apply hoare_zctrl_call; [constructor | done]).
Qed.

End Stable.

Definition any_channel : Z → Prop := λ _, True.

(** Every call but [destroy] keeps a stable property, whatever it raises. *)
Section StableRun.

Variable P : zynmixer → Prop.
Hypothesis HP : stable P.

Lemma any_exn_all e : e ≠ IndexError → any_exn e.
Proof. done. Qed.

Lemma any_channel_clamp c m0 :
  any_channel c → P m0 →
  any_channel (clamp_channel c m0) ∧ in_bounds P any_exn (clamp_channel c m0).
Proof. intros _ _. split; [done | by left]. Qed.

(** Instantiating the lemmas above for any channel and any exception. *)
Ltac with_any lem :=
  eapply lem;
  try first [ exact HP | exact any_exn_all | exact any_channel_clamp | exact I ].

Lemma hoare_setter k channel val update :
  hoare P any_exn (setter k channel val update).
Proof. destruct k; simpl; first [with_any hoare_set_ctrl | with_any hoare_set_mute]. Qed.

Lemma hoare_reset_state : hoare P any_exn reset_state.
Proof.
  unfold reset_state. apply hoare_gets_bind. intros n _.
  apply hoare_for_each. intros c _.
  with_any hoare_reset.
Qed.

Lemma hoare_restore_ctrl chan k ctrl_state :
  hoare P any_exn (restore_ctrl chan k ctrl_state).
Proof.
  unfold restore_ctrl. apply hoare_bind; [| intros _].
  - destruct (ctrl_state !! "value"); [|apply hoare_ret].
    with_any hoare_zctrl_at. constructor.
  - destruct (ctrl_state !! "midi_learn_chan"); [|apply hoare_ret].
    destruct (ctrl_state !! "midi_learn_cc"); [|apply hoare_ret].
    intros m Hm. unfold act.
    destruct (set_midi_learn _ _ _ _); [done | by apply stable_learned_cc].
Qed.

Lemma hoare_set_state state full : hoare P any_exn (set_state state full).
Proof.
  unfold set_state. apply hoare_gets_bind. intros strips _.
  apply hoare_for_each. intros chan _. apply hoare_for_each. intros k _.
  unfold set_state_ctrl. apply hoare_try with (E' := any_exn).
  - apply hoare_gets_bind. intros key _. apply hoare_bind.
    + unfold state_lookup. destruct (state !! key) as [cs|]; [|by apply hoare_raise].
      destruct (cs !! key_name k); [apply hoare_ret | by apply hoare_raise].
    + apply hoare_restore_ctrl.
  - apply hoare_when. with_any hoare_zctrl_at. constructor.
Qed.

Lemma hoare_send_controller_value zctrl :
  hoare P any_exn (send_controller_value zctrl).
Proof.
  unfold send_controller_value. apply hoare_try with (E' := any_exn); [|apply hoare_ret].
  destruct (key_of_symbol _); [apply hoare_setter |].
  destruct (_ || _); [by apply hoare_raise|].
  destruct (inherited_set _) as [f|]; [|by apply hoare_raise].
  intros m Hm. unfold on_learned_cc, act.
  destruct (f _ _ _ _); [done | by apply stable_learned_cc].
Qed.

Lemma hoare_forward_cc ch ccnum val : hoare P any_exn (forward_cc ch ccnum val).
Proof.
  intros m Hm. unfold forward_cc. destruct (list_index _ _) as [d|]; [|done].
  destruct (dict_get ccnum d); [by apply stable_log | done].
Qed.

Lemma hoare_disable_midi_learn : hoare P any_exn disable_midi_learn.
Proof.
  unfold disable_midi_learn. apply hoare_bind; [|intros _].
  - apply hoare_modify. intros m. by apply stable_learn_zctrl.
  - apply hoare_gets_bind. intros [cb|] _; [|apply hoare_ret].
    apply hoare_modify. intros m. by apply stable_log.
Qed.

Lemma hoare_midi_control_change flag chan ccnum val :
  hoare P any_exn (midi_control_change flag chan ccnum val).
Proof.
  unfold midi_control_change. apply hoare_gets_bind. intros [z|] _.
  - apply hoare_bind; [|intros _; apply hoare_disable_midi_learn].
    intros m Hm. unfold act. destruct (list_slot _ _); [|done].
    by apply stable_learned_cc.
  - destruct flag.
    + apply hoare_for_each. intros ch _.
      apply hoare_try with (E' := any_exn); [apply hoare_forward_cc | apply hoare_ret].
    + apply hoare_try with (E' := any_exn); [apply hoare_forward_cc | apply hoare_ret].
Qed.

Lemma hoare_learned_cc_slot chan : hoare P any_exn (learned_cc_slot chan).
Proof.
  intros m Hm. unfold learned_cc_slot. destruct chan; [|done].
  by destruct (list_slot _ _).
Qed.

Lemma hoare_midi_unlearn_keys zctrl chan slot size keys :
  hoare P any_exn (midi_unlearn_keys zctrl chan slot size keys).
Proof.
  induction keys as [|cc keys IH]; simpl.
  - apply hoare_gets_bind. intros d _.
    destruct (negb _); [by apply hoare_raise | apply hoare_ret].
  - apply hoare_gets_bind. intros d _.
    destruct (negb _); [by apply hoare_raise |].
    apply hoare_bind; [apply hoare_learned_cc_slot | intros i].
    apply hoare_gets_bind. intros d' _.
    apply hoare_bind; [| intros _; apply IH].
    destruct (dict_get cc d'); [|by apply hoare_raise].
    apply hoare_when, hoare_bind; [apply hoare_learned_cc_slot | intros j].
    apply hoare_modify. intros m. by apply stable_learned_cc.
Qed.

Lemma hoare_midi_unlearn zctrl : hoare P any_exn (midi_unlearn zctrl).
Proof.
  unfold midi_unlearn. apply hoare_gets_bind. intros chans _.
  apply hoare_for_each. intros chan _.
  apply hoare_bind; [apply hoare_learned_cc_slot | intros slot].
  apply hoare_gets_bind. intros d _. apply hoare_midi_unlearn_keys.
Qed.

Lemma hoare_run o : is_destroy o = false → hoare P any_exn (run o).
Proof.
  destruct o; simpl; intros Hd; try done; try (with_any hoare_set_ctrl).
  - with_any hoare_set_mute. by destruct channel.
  - with_any hoare_toggle_mute.
  - with_any hoare_toggle_phase.
  - with_any hoare_toggle_solo.
  - with_any hoare_toggle_mono.
  - with_any hoare_lib_call.
  - with_any hoare_lib_call.
  - with_any hoare_lib_call.
  - with_any hoare_reset. by destruct (as_int channel).
  - apply hoare_reset_state.
  - apply hoare_set_state.
  - apply hoare_send_controller_value.
  - apply hoare_midi_control_change.
  - unfold midi_unlearn_chan. apply hoare_bind; [|intros _; by apply hoare_raise].
    with_any hoare_zctrl_lookup. by left.
  - apply hoare_midi_unlearn.
  - apply hoare_modify. intros m. by apply stable_learn_zctrl.
  - apply hoare_disable_midi_learn.
  - apply hoare_modify. intros m. by apply stable_learn_cb.
Qed.

(** [destroy] keeps what clearing [lib_zynmixer] keeps. *)
Lemma hoare_destroy :
  (∀ m, P m → loaded m = false → P (with_lib None m)) → hoare P any_exn destroy.
Proof.
  intros Hl m Hm. unfold destroy, mbind, M_bind, gets, when, lib_call, raise, modify.
  destruct (loaded m) eqn:Hld; simpl.
  - rewrite Hld. split; [done|]. by apply stable_log.
  - by apply Hl.
Qed.

Lemma run_all_keeps ops m0 :
  (∀ o, o ∈ ops → hoare P any_exn (run o)) → P m0 → P (run_all ops m0).
Proof.
  revert m0. induction ops as [|o ops IH]; intros m0 Hops Hm0; [done|].
  simpl. apply IH; [intros o' Ho'; apply Hops; by right|].
  specialize (Hops o (list_elem_of_here _ _) m0 Hm0).
  destruct (run o m0); [done | apply Hops].
Qed.

End StableRun.

(** *** Invariants of a constructed instance *)

(** The cache has one strip per channel and one for the main bus, and
    [MAX_NUM_CHANNELS] is the library's channel count. *)
Definition shape (m : zynmixer) : Prop :=
  MAX_NUM_CHANNELS m = Z.of_nat max_channels ∧ length (zctrls m) = S max_channels.

Lemma shape_stable : stable shape.
Proof.
  split; unfold shape; simpl; try done.
  intros i k f m _ [? Hl]. by rewrite length_alter.
Qed.

Lemma loaded_stable : stable (λ m, loaded m = true).
Proof. by split. Qed.

Lemma new_strip_with_zctrls i zs m : new_strip i (with_zctrls zs m) = new_strip i m.
Proof. done. Qed.

Lemma init_strips m l :
  foldl (λ m i, with_zctrls (zctrls m ++ [new_strip i m]) m) m l
  = with_zctrls (zctrls m ++ ((λ i, new_strip i m) <$> l)) m.
Proof.
  revert m. induction l as [|i l IH]; intros m; simpl.
  - rewrite app_nil_r. by destruct m.
  - rewrite IH. simpl. rewrite <- app_assoc. simpl. f_equal.
Qed.

(** The constructor returns only when the library was loaded, and then
    with these attributes. *)
Lemma init_returns load_ok base_cb m0 :
  __init__ load_ok base_cb = Returns tt m0 →
  load_ok = true
  ∧ lib_zynmixer m0 = Some LibZynmixer
  ∧ MAX_NUM_CHANNELS m0 = Z.of_nat max_channels
  ∧ length (zctrls m0) = S max_channels
  ∧ learned_cc m0 = replicate 16 []
  ∧ midi_learn_zctrl m0 = None.
Proof.
  unfold __init__. rewrite init_strips. destruct load_ok; simpl; [|done].
  intros [= <-]. simpl. repeat split; try done.
  unfold get_max_channels, range. simpl.
  rewrite length_fmap, length_fmap, length_seq. lia.
Qed.

Lemma reachable_shape m : reachable m → shape m.
Proof.
  intros (load_ok & cb & m0 & ops & Hinit & ->).
  apply init_returns in Hinit as (_ & _ & HM & Hl & _).
  apply run_all_keeps; [| done].
  intros o _. destruct (is_destroy o) eqn:Ho.
  - destruct o; try done. simpl. apply hoare_destroy; [apply shape_stable | done].
  - by apply hoare_run; [apply shape_stable|].
Qed.

(** A constructed instance has its library: [destroy] raises before it
    clears the attribute. *)
Lemma reachable_loaded m : reachable m → lib_zynmixer m = Some LibZynmixer.
Proof.
  intros (load_ok & cb & m0 & ops & Hinit & ->).
  apply init_returns in Hinit as (_ & Hlib & _).
  assert (loaded (run_all ops m0) = true) as Hl.
  { apply (run_all_keeps (λ m, loaded m = true)).
    - intros o _. destruct (is_destroy o) eqn:Ho.
      + destruct o; try done. simpl. apply hoare_destroy; [apply loaded_stable|].
        intros m Hm Hm'. congruence.
      + by apply hoare_run; [apply loaded_stable|].
    - unfold loaded. by rewrite Hlib. }
  unfold loaded in Hl. by destruct (lib_zynmixer (run_all ops m0)) as [[]|].
Qed.

(** *** Clamping of the channel argument *)

(** The methods of the claim that take a channel, with their other
    arguments. *)
Inductive channel_op :=
  | CSetLevel (val : pyval) (update : bool)
  | CSetBalance (val : pyval) (update : bool)
  | CSetMute (val : pyval) (update : bool)
  | CSetSolo (val : pyval) (update : bool)
  | CSetMono (val : pyval) (update : bool)
  | CSetPhase (val : pyval) (update : bool)
  | CToggleMute
  | CToggleSolo (update : bool)
  | CToggleMono (update : bool)
  | CTogglePhase (update : bool)
  | CReset.

Definition at_channel (co : channel_op) (channel : Z) : op :=
  match co with
  | CSetLevel v u => SetLevel channel v u
  | CSetBalance v u => SetBalance channel v u
  | CSetMute v u => SetMute (Some channel) v u
  | CSetSolo v u => SetSolo channel v u
  | CSetMono v u => SetMono channel v u
  | CSetPhase v u => SetPhase channel v u
  | CToggleMute => ToggleMute channel
  | CToggleSolo u => ToggleSolo channel u
  | CToggleMono u => ToggleMono channel u
  | CTogglePhase u => TogglePhase channel u
  | CReset => Reset (PyInt channel)
  end.

Definition nonneg : Z → Prop := λ c, 0 ≤ c.

Lemma not_IndexError_all e : e ≠ IndexError → not_IndexError e.
Proof. done. Qed.

Lemma list_slot_in_range {A} (l : list A) (c : Z) :
  0 ≤ c < Z.of_nat (length l) → list_slot l c = Some (Z.to_nat c).
Proof.
  intros Hc. unfold list_slot.
  rewrite (proj2 (Z.leb_le 0 c)) by lia. by rewrite (proj2 (Z.ltb_lt _ _)) by lia.
Qed.

Lemma clamp_channel_min c m : clamp_channel c m = Z.min c (MAX_NUM_CHANNELS m).
Proof. unfold clamp_channel. destruct (Z.leb_spec (MAX_NUM_CHANNELS m) c); lia. Qed.

Lemma nonneg_clamp c m0 :
  nonneg c → shape m0 →
  nonneg (clamp_channel c m0) ∧ in_bounds shape not_IndexError (clamp_channel c m0).
Proof.
  unfold nonneg. intros Hc [HM Hl]. rewrite clamp_channel_min. split; [lia|].
  right. intros m [HM' Hl']. rewrite list_slot_in_range; [done | lia].
Qed.

(** On a constructed instance, a method given a non-negative channel
    never raises IndexError. *)
Lemma channel_op_in_bounds co channel :
  0 ≤ channel → hoare shape not_IndexError (run (at_channel co channel)).
Proof.
  intros Hc.
  destruct co; simpl;
    first [ eapply hoare_set_ctrl | eapply hoare_set_mute | eapply hoare_toggle_mute
          | eapply hoare_toggle_solo | eapply hoare_toggle_mono
          | eapply hoare_toggle_phase | eapply hoare_reset ];
    first [ exact shape_stable | exact not_IndexError_all | exact nonneg_clamp | exact Hc ].
Qed.

(** Clamped once, a channel at or above [MAX_NUM_CHANNELS] is
    [MAX_NUM_CHANNELS]; the methods use their channel only clamped. *)
Lemma channel_op_over_range co channel m :
  MAX_NUM_CHANNELS m ≤ channel →
  run (at_channel co channel) m = run (at_channel co (MAX_NUM_CHANNELS m)) m.
Proof.
  intros Hc.
  assert (clamp_channel channel m = clamp_channel (MAX_NUM_CHANNELS m) m) as Heq
    by (rewrite !clamp_channel_min; lia).
  destruct co; simpl;
    unfold set_level, set_balance, set_phase, set_solo, set_mono, set_ctrl, set_mute,
      toggle_mute, toggle_solo, toggle_mono, toggle_phase, reset;
    simpl; unfold mbind, M_bind, gets; simpl; by rewrite Heq.
Qed.

(** *** The binding table *)

(** The controller bound at [learned_cc[ch][cc]], if the subscripts
    succeed. *)
Definition bound_at (m : zynmixer) (ch cc : Z) : option zref :=
  list_index (learned_cc m) ch ≫= dict_get cc.

(** The instance after the calls [es] have left it. *)
Definition log_all (es : list event) (m : zynmixer) : zynmixer :=
  foldl (λ m e, log e m) m es.

Lemma log_all_app es e m : log_all (es ++ [e]) m = log (e) (log_all es m).
Proof. unfold log_all. by rewrite foldl_app. Qed.

Lemma log_all_fields es m :
  lib_zynmixer (log_all es m) = lib_zynmixer m
  ∧ zctrls (log_all es m) = zctrls m
  ∧ learned_cc (log_all es m) = learned_cc m
  ∧ midi_learn_zctrl (log_all es m) = midi_learn_zctrl m
  ∧ midi_learn_cb (log_all es m) = midi_learn_cb m
  ∧ MAX_NUM_CHANNELS (log_all es m) = MAX_NUM_CHANNELS m
  ∧ processor_cb (log_all es m) = processor_cb m
  ∧ trace (log_all es m) = trace m ++ es.
Proof.
  revert m. induction es as [|e es IH]; intros m; simpl.
  - by rewrite app_nil_r.
  - destruct (IH (log e m)) as (-> & -> & -> & -> & -> & -> & -> & ->). simpl.
    by rewrite <- app_assoc.
Qed.

Lemma forward_cc_try ch ccnum val m :
  try_except (forward_cc ch ccnum val) (mret tt) m
  = Returns tt (log_all ((λ z, CtrlMidiCC z val) <$> option_list (bound_at m ch ccnum)) m).
Proof.
  unfold try_except, forward_cc, bound_at.
  destruct (list_index (learned_cc m) ch) as [d|]; simpl; [|done].
  by destruct (dict_get ccnum d).
Qed.

Lemma bound_at_log_all es m ch cc : bound_at (log_all es m) ch cc = bound_at m ch cc.
Proof. unfold bound_at. by destruct (log_all_fields es m) as (_ & _ & -> & _). Qed.

Lemma forward_cc_all chs ccnum val m :
  for_each chs (λ ch, try_except (forward_cc ch ccnum val) (mret tt)) m
  = Returns tt
      (log_all ((λ z, CtrlMidiCC z val) <$> omap (λ ch, bound_at m ch ccnum) chs) m).
Proof.
  assert (∀ es, for_each chs (λ ch, try_except (forward_cc ch ccnum val) (mret tt))
                  (log_all es m)
    = Returns tt (log_all (es ++ ((λ z, CtrlMidiCC z val)
                                    <$> omap (λ ch, bound_at m ch ccnum) chs)) m)) as H.
  { induction chs as [|ch chs IH]; intros es; simpl.
    - by rewrite app_nil_r.
    - unfold mbind, M_bind. rewrite forward_cc_try, bound_at_log_all.
      destruct (bound_at m ch ccnum) as [z|]; simpl.
      + rewrite <- log_all_app, IH, <- app_assoc. done.
      + apply IH. }
  apply (H []).
Qed.

Lemma omap_all_None {A B} (f : A → option B) (l : list A) :
  (∀ x, x ∈ l → f x = None) → omap f l = [].
Proof.
  induction l as [|x l IH]; intros Hf; [done|]. csimpl.
  rewrite (Hf x) by left. apply IH. intros y Hy. apply Hf. by right.
Qed.

Lemma elem_of_range n c : c ∈ range n ↔ 0 ≤ c < Z.of_nat n.
Proof.
  unfold range. rewrite list_elem_of_fmap. split.
  - intros (i & -> & Hi). apply elem_of_seq in Hi. lia.
  - intros Hc. exists (Z.to_nat c). split; [lia|]. apply elem_of_seq. lia.
Qed.

(** C1, as the code has it: with no controller pending learn, a control
    change is forwarded, when [midi_single_active_channel] is set, to every
    controller bound to the CC number on any of the 16 channels, whatever
    the event's channel, and otherwise only to the controller bound at
    (chan, ccnum); nothing else changes. The event leaves the state as it
    was when, with the flag clear, its own slot is unbound, and, with the
    flag set, when the CC number is unbound on all 16 channels. *)
Theorem midi_control_change_forwards (m : zynmixer) (flag : bool) (chan ccnum : Z)
  (val : pyval) :
  midi_learn_zctrl m = None →
  let targets :=
    if flag then omap (λ ch, bound_at m ch ccnum) (range 16)
    else option_list (bound_at m chan ccnum) in
  midi_control_change flag chan ccnum val m
  = Returns tt (log_all ((λ z, CtrlMidiCC z val) <$> targets) m)
  ∧ (flag = false → bound_at m chan ccnum = None →
     midi_control_change flag chan ccnum val m = Returns tt m)
  ∧ (flag = true → (∀ ch, 0 ≤ ch < 16 → bound_at m ch ccnum = None) →
     midi_control_change flag chan ccnum val m = Returns tt m).
Proof.
  intros Hnone targets.
  assert (midi_control_change flag chan ccnum val m
          = Returns tt (log_all ((λ z, CtrlMidiCC z val) <$> targets) m)) as Hrun.
  { unfold midi_control_change, mbind, M_bind, gets. rewrite Hnone.
    destruct flag; [apply forward_cc_all | apply forward_cc_try]. }
  split; [done|]. rewrite Hrun. subst targets. split.
  - intros -> Hb. by rewrite Hb.
  - intros -> Hb. rewrite omap_all_None; [done|].
    intros ch Hch. apply Hb. by apply (elem_of_range 16).
Qed.

(** Facts about the dictionaries of the table. *)
Lemma dict_get_set cc z d : dict_get cc (dict_set cc z d) = Some z.
Proof.
  induction d as [|[k z'] d IH]; simpl.
  - by rewrite bool_decide_eq_true_2.
  - case_bool_decide as Hk; simpl; [by rewrite bool_decide_eq_true_2|].
    by rewrite bool_decide_eq_false_2.
Qed.

Lemma dict_get_set_ne cc cc' z d : cc' ≠ cc → dict_get cc' (dict_set cc z d) = dict_get cc' d.
Proof.
  intros Hne. induction d as [|[k z'] d IH]; simpl.
  - by rewrite bool_decide_eq_false_2.
  - case_bool_decide as Hk; simpl.
    + subst k. by rewrite !bool_decide_eq_false_2.
    + by rewrite IH.
Qed.

Lemma list_index_in_range {A} (l : list A) (c : Z) :
  0 ≤ c → list_index l c = l !! Z.to_nat c.
Proof. intros Hc. unfold list_index. by rewrite (proj2 (Z.leb_le 0 c)). Qed.

(** C2: when a controller z is pending learn, the next control change on
    a MIDI channel binds z at learned_cc[chan][ccnum], whatever was bound
    there, leaves the other slots alone, clears the pending state, calls
    the registered learn callback, and forwards the value to no controller. *)
Theorem midi_learn_binds (m : zynmixer) (z : zref) (flag : bool) (chan ccnum : Z)
  (val : pyval) :
  midi_learn_zctrl m = Some z →
  length (learned_cc m) = 16%nat →
  0 ≤ chan < 16 →
  ∃ m',
    midi_control_change flag chan ccnum val m = Returns tt m'
    ∧ bound_at m' chan ccnum = Some z
    ∧ (∀ ch cc, 0 ≤ ch < 16 → (ch, cc) ≠ (chan, ccnum) →
         bound_at m' ch cc = bound_at m ch cc)
    ∧ midi_learn_zctrl m' = None
    ∧ trace m' = trace m ++ match midi_learn_cb m with
                            | Some cb => [Call cb []]
                            | None => []
                            end
    ∧ zctrls m' = zctrls m
    ∧ midi_learn_cb m' = midi_learn_cb m.
Proof.
  intros Hz Hlen Hchan.
  unfold midi_control_change, disable_midi_learn, mbind, M_bind, gets, act, modify.
  rewrite Hz. rewrite list_slot_in_range by lia. simpl.
  assert (∀ l, length l = 16%nat →
    (list_index (alter (dict_set ccnum z) (Z.to_nat chan) l) chan ≫= dict_get ccnum = Some z)
    ∧ ∀ ch cc, 0 ≤ ch < 16 → (ch, cc) ≠ (chan, ccnum) →
        list_index (alter (dict_set ccnum z) (Z.to_nat chan) l) ch ≫= dict_get cc
        = list_index l ch ≫= dict_get cc) as Htable.
  { intros l Hl. split.
    - rewrite list_index_in_range by lia. rewrite list_lookup_alter_eq.
      destruct (l !! Z.to_nat chan) as [d|] eqn:Hd; simpl; [apply dict_get_set|].
      apply lookup_ge_None in Hd. lia.
    - intros ch cc Hch Hne. rewrite !list_index_in_range by lia.
      destruct (decide (Z.to_nat ch = Z.to_nat chan)) as [Heq|Hneq].
      + assert (ch = chan) as -> by lia. rewrite list_lookup_alter_eq.
        destruct (l !! Z.to_nat chan) as [d|]; simpl; [|done].
        apply dict_get_set_ne. congruence.
      + by rewrite list_lookup_alter_ne by done. }
  destruct (Htable _ Hlen) as [Hb Ho].
  destruct (midi_learn_cb m) as [cb|] eqn:Hcb; simpl; rewrite ?Hcb;
    eexists; (split; [reflexivity|]); unfold bound_at; simpl;
    repeat split; try done; by rewrite ?app_nil_r.
Qed.

(** [midi_unlearn] subscripts the list of dictionaries with its first
    dictionary and raises TypeError there, before it has read or removed
    any binding. *)
Lemma midi_unlearn_raises zctrl m :
  learned_cc m ≠ [] → midi_unlearn zctrl m = Raises TypeError m.
Proof.
  unfold midi_unlearn, mbind, M_bind, gets.
  destruct (learned_cc m) as [|d l]; [done|]. intros _. reflexivity.
Qed.

(** C8: on every constructed instance [zctrls] holds MAX_NUM_CHANNELS + 1
    strips; each of set_level, set_balance, set_mute (channel not None),
    set_solo, set_mono, set_phase, toggle_mute, toggle_solo, toggle_mono,
    toggle_phase and reset clamps its channel to MAX_NUM_CHANNELS first, so
    that for a non-negative channel the cache is subscripted in bounds (no
    IndexError), and a channel at or above MAX_NUM_CHANNELS acts as
    MAX_NUM_CHANNELS does, on the last strip, the main bus. *)
Theorem cache_channel_clamped (m : zynmixer) (co : channel_op) (channel : Z) :
  reachable m →
  0 ≤ channel →
  Z.of_nat (length (zctrls m)) = MAX_NUM_CHANNELS m + 1
  ∧ list_slot (zctrls m) (clamp_channel channel m)
    = Some (Z.to_nat (Z.min channel (MAX_NUM_CHANNELS m)))
  ∧ (∀ e m', run (at_channel co channel) m = Raises e m' → e ≠ IndexError)
  ∧ (MAX_NUM_CHANNELS m ≤ channel →
     run (at_channel co channel) m = run (at_channel co (MAX_NUM_CHANNELS m)) m
     ∧ list_slot (zctrls m) (clamp_channel channel m) = Some (length (zctrls m) - 1)%nat).
Proof.
  intros Hr Hc. pose proof (reachable_shape m Hr) as [HM Hl].
  assert (list_slot (zctrls m) (clamp_channel channel m)
          = Some (Z.to_nat (Z.min channel (MAX_NUM_CHANNELS m)))) as Hslot.
  { rewrite clamp_channel_min. apply list_slot_in_range. lia. }
  repeat split.
  - lia.
  - done.
  - intros e m' Hrun. pose proof (channel_op_in_bounds co channel Hc m (conj HM Hl)) as H.
    rewrite Hrun in H. apply H.
  - by apply channel_op_over_range.
  - rewrite Hslot. f_equal. lia.
Qed.

(** C7: when loading the shared library fails the constructor raises, so
    that no constructed instance, whatever is called on it afterwards, has
    [lib_zynmixer] equal to None; on a constructed instance no accessor
    takes its library-absent branch (0, True, -200.0), each returning what
    the library answers. *)
Theorem library_always_loaded (m : zynmixer) (channel leg : Z) :
  reachable m →
  (∀ base_cb, ∃ m0, __init__ false base_cb = Raises AttributeError m0)
  ∧ lib_zynmixer m = Some LibZynmixer
  ∧ get_max_channels m = Z.of_nat max_channels
  ∧ get_level channel m = native_read (trace m) "getLevel" [PyInt channel]
  ∧ get_balance channel m = native_read (trace m) "getBalance" [PyInt channel]
  ∧ get_mute channel m = native_read (trace m) "getMute" [PyInt channel]
  ∧ get_phase channel m = native_read (trace m) "getPhase" [PyInt channel]
  ∧ get_solo channel m
    = PyBool (py_eq_1 (native_read (trace m) "getSolo" [PyInt channel]))
  ∧ get_mono channel m
    = PyBool (py_eq_1 (native_read (trace m) "getMono" [PyInt channel]))
  ∧ get_dpm channel leg m = native_read (trace m) "getDpm" [PyInt channel; PyInt leg]
  ∧ get_dpm_hold channel leg m
    = native_read (trace m) "getDpmHold" [PyInt channel; PyInt leg].
Proof.
  intros Hr. split.
  - intros cb. unfold __init__. rewrite init_strips. simpl. by eexists.
  - apply reachable_loaded in Hr.
    unfold get_max_channels, get_level, get_balance, get_mute, get_phase, get_solo,
      get_mono, get_dpm, get_dpm_hold, loaded.
    by rewrite Hr.
Qed.

(** *** The cache under the setters *)

(** The cached controller of strip [c] under key [k]. *)
Definition cached (m : zynmixer) (c : nat) (k : ctrl_key) : option zynthian_controller :=
  strip_get k <$> zctrls m !! c.

(** The library function a setter calls. *)
Definition native_setter (k : ctrl_key) : string :=
  match k with
  | Level => "setLevel" | Balance => "setBalance" | Mute => "setMute"
  | Solo => "setSolo" | Mono => "setMono" | Phase => "setPhase"
  end.

Lemma strip_get_alter k f s : strip_get k (strip_alter k f s) = f (strip_get k s).
Proof. by destruct k. Qed.

Lemma strip_get_alter_ne k k' f s :
  k ≠ k' → strip_get k' (strip_alter k f s) = strip_get k' s.
Proof. by destruct k, k'. Qed.

Lemma cached_alter m zs i k f c' k' :
  zctrls m = alter (strip_alter k f) i zs →
  cached m c' k'
  = if decide ((c', k') = (i, k)) then f <$> (strip_get k <$> zs !! i)
    else strip_get k' <$> zs !! c'.
Proof.
  intros Hz. unfold cached. rewrite Hz. case_decide as Heq.
  - injection Heq as -> ->. rewrite list_lookup_alter_eq.
    destruct (zs !! i); simpl; [|done]. by rewrite strip_get_alter.
  - destruct (decide (i = c')) as [->|Hi].
    + rewrite list_lookup_alter_eq. destruct (zs !! c'); simpl; [|done].
      rewrite strip_get_alter_ne; [done | congruence].
    + by rewrite list_lookup_alter_ne.
Qed.

(** What a setter with [update=True] does on an instance whose library is
    loaded, for a channel that is an index of the cache. *)
Lemma setter_run m k c v :
  loaded m = true →
  0 ≤ c ≤ MAX_NUM_CHANNELS m →
  Z.of_nat (length (zctrls m)) = MAX_NUM_CHANNELS m + 1 →
  setter k c v true m
  = Returns tt
      (log_all (Native (native_setter k) [PyInt c; v]
                :: match processor_cb m with
                   | Some cb => [Call cb [PyInt c; PyStr (key_name k); v]]
                   | None => []
                   end)
         (with_zctrls
            (alter (strip_alter k (λ z, zctrl_set_value z v false)) (Z.to_nat c) (zctrls m))
            m)).
Proof.
  intros Hl Hc Hlen.
  assert (clamp_channel c m = c) as Hclamp by (rewrite clamp_channel_min; lia).
  assert (list_slot (zctrls m) c = Some (Z.to_nat c)) as Hslot
    by (apply list_slot_in_range; lia).
  destruct k; simpl;
    unfold set_level, set_balance, set_phase, set_solo, set_mono, set_ctrl, set_mute,
      mbind, M_bind, gets, lib_call, when, zctrl_call, send_update; simpl;
    rewrite Hclamp, Hl; simpl; rewrite Hslot; simpl;
    by destruct (processor_cb m).
Qed.

(** C6: on a constructed instance, for a channel c in
    0..MAX_NUM_CHANNELS and a value v, each of
    set_level, set_balance, set_mute, set_solo, set_mono, set_phase with
    update=True passes v to the library's setter, stores v in the cached
    controller of (c, its key), and leaves every other cached controller
    and the binding table as they were. *)
Theorem setter_frame (m : zynmixer) (k : ctrl_key) (c : Z) (v : pyval) :
  reachable m →
  0 ≤ c ≤ MAX_NUM_CHANNELS m →
  (∀ z x send, value (zctrl_set_value z x send) = x) →
  ∃ m',
    setter k c v true m = Returns tt m'
    ∧ trace m' = trace m ++ Native (native_setter k) [PyInt c; v]
                 :: match processor_cb m with
                    | Some cb => [Call cb [PyInt c; PyStr (key_name k); v]]
                    | None => []
                    end
    ∧ value <$> cached m' (Z.to_nat c) k = Some v
    ∧ (∀ c' k', (c', k') ≠ (Z.to_nat c, k) → cached m' c' k' = cached m c' k')
    ∧ learned_cc m' = learned_cc m
    ∧ midi_learn_zctrl m' = midi_learn_zctrl m
    ∧ lib_zynmixer m' = lib_zynmixer m.
Proof.
  intros Hr Hc Hval. pose proof (reachable_shape m Hr) as [HM Hlen].
  pose proof (reachable_loaded m Hr) as Hlib.
  eexists. split.
  { apply setter_run; [unfold loaded; by rewrite Hlib | done | lia]. }
  match goal with |- context [log_all ?es ?m0] =>
    destruct (log_all_fields es m0) as (Hf1 & Hf2 & Hf3 & Hf4 & _ & _ & _ & Hf8) end.
  rewrite Hf8, Hf3, Hf4, Hf1. simpl. repeat split; try done.
  - erewrite cached_alter by exact Hf2. rewrite decide_True by done.
    destruct (zctrls m !! Z.to_nat c) as [s|] eqn:Hs; simpl; [by rewrite Hval|].
    apply lookup_ge_None in Hs. lia.
  - intros c' k' Hne. erewrite cached_alter by exact Hf2. by rewrite decide_False.
Qed.

(** *** Snapshots *)

(** The decimal form of a positive number starts with a non-zero digit. *)
Lemma pretty_N_go_head (x : N) (s : string) :
  (0 < x)%N → ∃ c t, pretty_N_go x s = String c t ∧ c ≠ "0"%char.
Proof.
  revert s. induction (N.lt_wf_0 x) as [x _ IH]; intros s Hx.
  rewrite pretty_N_go_step by done.
  destruct (decide (x < 10)%N) as [Hlt|Hge].
  - rewrite N.div_small by done. rewrite pretty_N_go_0.
    rewrite N.mod_small by done. eexists _, _. split; [done|].
    assert (x = 1 ∨ x = 2 ∨ x = 3 ∨ x = 4 ∨ x = 5 ∨ x = 6 ∨ x = 7 ∨ x = 8 ∨ x = 9)%N
      as Hcases by lia.
    by destruct Hcases as [->|[->|[->|[->|[->|[->|[->|[->| ->]]]]]]]].
  - apply IH; [apply N.div_lt; lia|]. apply N.div_str_pos. lia.
Qed.

Lemma pretty_Z_leading_zero (b : Z) (t : string) :
  0 ≤ b → pretty b = String "0" t → b = 0.
Proof.
  intros Hb Hp. destruct b as [|p|p]; [done| |lia].
  unfold pretty, pretty_Z, pretty, pretty_positive, pretty, pretty_N in Hp.
  rewrite decide_False in Hp by done.
  destruct (pretty_N_go_head (N.pos p) "") as (c & t' & Hc & Hne); [lia|].
  rewrite Hc in Hp. by injection Hp as -> _.
Qed.

Lemma format_02d_inj (a b : Z) : 0 ≤ a → 0 ≤ b → format_02d a = format_02d b → a = b.
Proof.
  intros Ha Hb. unfold format_02d.
  destruct (String.length (pretty a) <? 2)%nat eqn:Hla,
           (String.length (pretty b) <? 2)%nat eqn:Hlb; simpl.
  - intros [= H]. by apply (inj pretty).
  - intros H. symmetry in H. apply pretty_Z_leading_zero in H as ->; [|done].
    by vm_compute in Hlb.
  - intros H. apply pretty_Z_leading_zero in H as ->; [|done]. by vm_compute in Hla.
  - apply (inj pretty).
Qed.

(** The snapshot key of strip [c] while the library is loaded. *)
Definition strip_name (c : nat) : string :=
  if (c <? max_channels)%nat then "chan_" +:+ format_02d (Z.of_nat c) else "main".

Lemma chan_key_loaded (c : nat) m :
  loaded m = true → chan_key (Z.of_nat c) m = strip_name c.
Proof.
  intros Hl. unfold chan_key, strip_name, get_max_channels. rewrite Hl.
  destruct (Nat.ltb_spec c max_channels), (Z.ltb_spec (Z.of_nat c) (Z.of_nat max_channels));
    (done || lia).
Qed.

Lemma strip_name_inj (c c' : nat) :
  strip_name c = strip_name c' →
  (c ≤ max_channels)%nat → (c' ≤ max_channels)%nat → c = c'.
Proof.
  intros Heq Hc Hc'. unfold strip_name in Heq.
  destruct (Nat.ltb_spec c max_channels) as [H1|H1],
           (Nat.ltb_spec c' max_channels) as [H2|H2]; try done; try lia.
  injection Heq as Heq. apply format_02d_inj in Heq; lia.
Qed.

Lemma dict_truthy_lookup {V} (d : gmap string V) k v : d !! k = Some v → dict_truthy d = true.
Proof.
  intros Hk. unfold dict_truthy. apply negb_true_iff, bool_decide_eq_false_2.
  intros Hs. apply map_size_empty_iff in Hs. subst d. by rewrite lookup_empty in Hk.
Qed.

(** What the methods of zynthian_controller and the inherited
    set_midi_learn are assumed to do for a snapshot to be restorable:
    [set_value] and [reset_value] keep the symbol, [set_value] stores the
    value it is given, a full [get_state] carries the cached value, and
    restoring a binding it carries does not raise. *)
Record snapshot_contract : Prop := {
  set_value_symbol : ∀ z v send, symbol (zctrl_set_value z v send) = symbol z;
  reset_value_symbol : ∀ z, symbol (zctrl_reset_value z) = symbol z;
  set_value_stores : ∀ z v send, value (zctrl_set_value z v send) = v;
  get_state_value : ∀ z, zctrl_get_state z true !! "value" = Some (value z);
  learn_restores : ∀ z l r c1 c2,
    zctrl_get_state z true !! "midi_learn_chan" = Some c1 →
    zctrl_get_state z true !! "midi_learn_cc" = Some c2 →
    ∃ l', set_midi_learn l r c1 c2 = inr l'
}.

(** Every cached controller carries the symbol of its key. *)
Definition symbols_ok (m : zynmixer) : Prop :=
  ∀ c s k, zctrls m !! c = Some s → symbol (strip_get k s) = key_name k.

Lemma symbols_ok_stable : snapshot_contract → stable symbols_ok.
Proof.
  intros K. split; unfold symbols_ok; simpl; try done.
  intros i k f m Hf Hm c s k' Hs.
  destruct (decide (i = c)) as [->|Hi].
  - rewrite list_lookup_alter_eq in Hs.
    destruct (zctrls m !! c) as [s0|] eqn:Hs0; [|done]. injection Hs as <-.
    destruct (decide (k = k')) as [->|Hk].
    + rewrite strip_get_alter.
      destruct Hf; rewrite ?set_value_symbol, ?reset_value_symbol by done; eauto.
    + rewrite strip_get_alter_ne by done. eauto.
  - rewrite list_lookup_alter_ne in Hs by done. eauto.
Qed.

Lemma reachable_symbols_ok m : snapshot_contract → reachable m → symbols_ok m.
Proof.
  intros K (load_ok & cb & m0 & ops & Hinit & ->).
  apply run_all_keeps.
  - intros o _. destruct (is_destroy o) eqn:Ho.
    + destruct o; try done. simpl. apply hoare_destroy; [by apply symbols_ok_stable | done].
    + by apply hoare_run; [apply symbols_ok_stable|].
  - unfold __init__ in Hinit. rewrite init_strips in Hinit.
    destruct load_ok; [|done]. injection Hinit as <-.
    intros c s k. simpl. intros Hs. apply list_lookup_fmap_Some in Hs as (i & -> & _).
    by destruct k.
Qed.

Lemma for_each_cons {A} (x : A) xs (body : A → M unit) m :
  for_each (x :: xs) body m
  = match body x m with
    | Returns _ m' => for_each xs body m'
    | Raises e m' => Raises e m'
    end.
Proof. done. Qed.

Section RoundTrip.

Hypothesis K : snapshot_contract.

Lemma get_chan_state_lookup s k :
  (∀ k, symbol (strip_get k s) = key_name k) →
  get_chan_state true s !! key_name k = Some (zctrl_get_state (strip_get k s) true).
Proof.
  intros Hs. unfold get_chan_state. simpl.
  rewrite !(dict_truthy_lookup _ _ _ (get_state_value K _)).
  pose proof (Hs Level) as H1. pose proof (Hs Balance) as H2. pose proof (Hs Mute) as H3.
  pose proof (Hs Solo) as H4. pose proof (Hs Mono) as H5. pose proof (Hs Phase) as H6.
  simpl in *. rewrite H1, H2, H3, H4, H5, H6.
  destruct k; simpl; by simplify_map_eq.
Qed.

(** [get_state] files strip [c] of [m] in the snapshot under its key. *)
Definition file_strip (m : zynmixer) (st : gmap string (gmap string (gmap string pyval)))
  (c : nat) : gmap string (gmap string (gmap string pyval)) :=
  match zctrls m !! c with
  | Some s => <[strip_name c := get_chan_state true s]> st
  | None => st
  end.

Lemma get_state_loop_returns (cs : list nat) acc m :
  symbols_ok m →
  (∀ c, c ∈ cs → (c < length (zctrls m))%nat) →
  loaded m = true →
  get_state_loop true (Z.of_nat <$> cs) acc m = Returns (foldl (file_strip m) acc cs) m.
Proof.
  intros Hsym Hcs Hl. revert acc. induction cs as [|c cs IH]; intros acc; [done|].
  simpl. unfold mbind, M_bind, gets, file_strip at 2. rewrite chan_key_loaded by done.
  rewrite list_index_in_range by lia. rewrite Nat2Z.id.
  destruct (zctrls m !! c) as [s|] eqn:Hs.
  - rewrite (dict_truthy_lookup _ (key_name Level) _ (get_chan_state_lookup s Level
               (λ k, Hsym c s k Hs))).
    apply IH. intros c' Hc'. apply Hcs. by right.
  - apply lookup_ge_None in Hs. specialize (Hcs c (list_elem_of_here _ _)). lia.
Qed.

Lemma snapshot_fold_lookup (cs : list nat) acc m c0 s0 :
  (∀ c, c ∈ cs → (c ≤ max_channels)%nat) →
  c0 ∈ cs → zctrls m !! c0 = Some s0 →
  foldl (file_strip m) acc cs !! strip_name c0 = Some (get_chan_state true s0).
Proof.
  intros Hcs. induction cs as [|c cs IH] using rev_ind; intros Hin Hs0.
  - by apply elem_of_nil in Hin.
  - rewrite foldl_app. simpl. unfold file_strip at 1.
    destruct (decide (c = c0)) as [->|Hne].
    + rewrite Hs0. apply lookup_insert_eq.
    + apply elem_of_app in Hin as [Hin|Hin]; [|apply list_elem_of_singleton in Hin; done].
      assert (strip_name c ≠ strip_name c0) as Hk.
      { intros Heq. apply strip_name_inj in Heq; [done| |].
        - apply Hcs, elem_of_app. right. by left.
        - apply Hcs, elem_of_app. by left. }
      destruct (zctrls m !! c); [rewrite lookup_insert_ne by done|];
        (apply IH; [|done..]); intros c' Hc'; apply Hcs, elem_of_app; by left.
Qed.

(** [get_state(full=True)] returns, and files every strip under its key. *)
Lemma get_state_returns m :
  symbols_ok m → loaded m = true → length (zctrls m) = S max_channels →
  ∃ snap, get_state true m = Returns snap m
    ∧ ∀ c s, zctrls m !! c = Some s → snap !! strip_name c = Some (get_chan_state true s).
Proof.
  intros Hsym Hl Hlen. eexists. split.
  - unfold get_state, mbind, M_bind, gets, get_max_channels, range. rewrite Hl.
    replace (Z.to_nat (Z.of_nat max_channels + 1)) with (S max_channels) by lia.
    apply get_state_loop_returns; [done | | done].
    intros c Hc. apply elem_of_seq in Hc. lia.
  - intros c s Hs. apply snapshot_fold_lookup; [| |done].
    + intros c' Hc'. apply elem_of_seq in Hc'. lia.
    + apply elem_of_seq. apply lookup_lt_Some in Hs. lia.
Qed.

(** One controller restored: the [try] block runs through and calls
    [set_value] with the snapshot's value on that controller only. *)
Lemma set_state_ctrl_restores snap chan_state m1 c k z0 :
  loaded m1 = true →
  snap !! strip_name c = Some chan_state →
  chan_state !! key_name k = Some (zctrl_get_state z0 true) →
  ∃ m2, set_state_ctrl snap true c k m1 = Returns tt m2
    ∧ loaded m2 = true
    ∧ zctrls m2 = alter (strip_alter k (λ z, zctrl_set_value z (value z0) true)) c (zctrls m1).
Proof.
  intros Hl Hsnap Hcs.
  unfold set_state_ctrl, try_except, mbind, M_bind, gets, state_lookup.
  rewrite chan_key_loaded by done. rewrite Hsnap, Hcs. simpl.
  unfold restore_ctrl, mbind, M_bind. rewrite (get_state_value K). simpl.
  unfold zctrl_at, modify.
  destruct (zctrl_get_state z0 true !! "midi_learn_chan") as [c1|] eqn:H1;
    [|by eexists].
  destruct (zctrl_get_state z0 true !! "midi_learn_cc") as [c2|] eqn:H2;
    [|by eexists].
  unfold act. simpl.
  edestruct (learn_restores K z0) as [l' Hl']; [done..|]. rewrite Hl'. by eexists.
Qed.

(** The value a snapshot restores for strip [c], key [k]. *)
Definition restored (m m2 : zynmixer) (c : nat) (k : ctrl_key) : Prop :=
  value <$> cached m2 c k = value <$> cached m c k.

Section Restore.

(** [m] is the instance the snapshot [snap] was taken of. *)
Variable m : zynmixer.
Variable snap : gmap string (gmap string (gmap string pyval)).
Hypothesis Hsym : symbols_ok m.
Hypothesis Hsnap : ∀ c s,
  zctrls m !! c = Some s → snap !! strip_name c = Some (get_chan_state true s).

Lemma restore_keys (c : nat) (ks : list ctrl_key) m1 :
  NoDup ks → loaded m1 = true →
  (c < length (zctrls m))%nat → length (zctrls m1) = length (zctrls m) →
  ∃ m2, for_each ks (set_state_ctrl snap true c) m1 = Returns tt m2
    ∧ loaded m2 = true
    ∧ length (zctrls m2) = length (zctrls m)
    ∧ (∀ k, k ∈ ks → restored m m2 c k)
    ∧ (∀ c' k', c' ≠ c ∨ k' ∉ ks → cached m2 c' k' = cached m1 c' k').
Proof.
  intros Hnd Hl Hc. revert m1 Hl. induction Hnd as [|k ks Hk Hnd IH]; intros m1 Hl Hlen.
  - exists m1. repeat split; try done. intros k Hk. by apply elem_of_nil in Hk.
  - destruct (lookup_lt_is_Some_2 (zctrls m) c Hc) as [s Hs].
    destruct (set_state_ctrl_restores snap _ m1 c k (strip_get k s) Hl (Hsnap c s Hs))
      as (m2 & Hrun & Hl2 & Hz2).
    { apply get_chan_state_lookup. intros k'. by apply (Hsym c). }
    destruct (IH m2 Hl2) as (m3 & Hrun3 & Hl3 & Hlen3 & Hks & Hframe).
    { by rewrite Hz2, length_alter. }
    exists m3. rewrite for_each_cons, Hrun. split; [done|].
    repeat split; try done.
    + intros k' Hk'. apply elem_of_cons in Hk' as [->|Hk']; [|by apply Hks].
      unfold restored. rewrite Hframe by (by right).
      erewrite cached_alter by exact Hz2. rewrite decide_True by done.
      unfold cached. rewrite Hs.
      destruct (zctrls m1 !! c) as [s1|] eqn:Hs1; simpl.
      * by rewrite (set_value_stores K).
      * apply lookup_ge_None in Hs1. lia.
    + intros c' k' Hck. rewrite Hframe.
      * erewrite cached_alter by exact Hz2. rewrite decide_False; [done|].
        intros [= -> ->]. destruct Hck as [?|Hck]; [done|]. apply Hck. by left.
      * destruct Hck as [?|Hck]; [by left | right]. intros Hin. apply Hck. by right.
Qed.

Lemma strip_keys_NoDup : NoDup strip_keys.
Proof. apply (bool_decide_unpack _). by vm_compute. Qed.

Lemma strip_keys_all k : k ∈ strip_keys.
Proof. unfold strip_keys. destruct k; set_solver. Qed.

Lemma restore_strips (cs : list nat) m1 :
  NoDup cs → (∀ c, c ∈ cs → (c < length (zctrls m))%nat) →
  loaded m1 = true → length (zctrls m1) = length (zctrls m) →
  ∃ m2, for_each cs (λ chan, for_each strip_keys (set_state_ctrl snap true chan)) m1
        = Returns tt m2
    ∧ loaded m2 = true
    ∧ length (zctrls m2) = length (zctrls m)
    ∧ (∀ c k, c ∈ cs → restored m m2 c k)
    ∧ (∀ c' k', c' ∉ cs → cached m2 c' k' = cached m1 c' k').
Proof.
  intros Hnd. revert m1. induction Hnd as [|c cs Hc Hnd IH]; intros m1 Hcs Hl Hlen.
  - exists m1. repeat split; try done. intros c k Hc. by apply elem_of_nil in Hc.
  - destruct (restore_keys c strip_keys m1 strip_keys_NoDup Hl)
      as (m2 & Hrun & Hl2 & Hlen2 & Hks & Hframe); [apply Hcs; by left | done |].
    destruct (IH m2) as (m3 & Hrun3 & Hl3 & Hlen3 & Hcs3 & Hframe3); [|done..|].
    { intros c' Hc'. apply Hcs. by right. }
    exists m3. rewrite for_each_cons, Hrun. split; [done|].
    repeat split; try done.
    + intros c' k Hc'. apply elem_of_cons in Hc' as [->|Hc']; [|by apply Hcs3].
      unfold restored. rewrite Hframe3 by done. apply Hks, strip_keys_all.
    + intros c' k' Hc'. rewrite Hframe3, Hframe; [done| |].
      * left. intros ->. apply Hc'. by left.
      * intros Hin. apply Hc'. by right.
Qed.

End Restore.

End RoundTrip.

(** [state[key][symbol]["value"]] for strip [c], key [k]. *)
Definition snapshot_value (snap : gmap string (gmap string (gmap string pyval)))
  (c : nat) (k : ctrl_key) : option pyval :=
  match snap !! strip_name c with
  | Some chan_state =>
      match chan_state !! key_name k with
      | Some ctrl_state => ctrl_state !! "value"%string
      | None => None
      end
  | None => None
  end.

(** C5: a full snapshot of a constructed instance files every strip under chan_NN or main and
    every controller under its symbol, and set_state of that snapshot with
    full=True, on the instance in whatever state it is by then, gives every
    cached controller (level, balance, mute, solo, mono, phase of each
    strip) the value it had when the snapshot was taken. The controller
    methods are taken to satisfy [snapshot_contract]. *)
Theorem snapshot_round_trip (m m' : zynmixer) :
  snapshot_contract →
  reachable m → reachable m' →
  ∃ snap m'',
    get_state true m = Returns snap m
    ∧ set_state snap true m' = Returns tt m''
    ∧ ∀ c k, (c ≤ max_channels)%nat →
        ∃ z z'',
          cached m c k = Some z
          ∧ cached m'' c k = Some z''
          ∧ value z'' = value z
          ∧ snapshot_value snap c k = Some (value z).
Proof.
  intros K Hr Hr'.
  pose proof (reachable_loaded m Hr) as Hlib.
  pose proof (reachable_loaded m' Hr') as Hlib'.
  pose proof (reachable_shape m Hr) as [_ Hlen].
  pose proof (reachable_shape m' Hr') as [_ Hlen'].
  pose proof (reachable_symbols_ok m K Hr) as Hsym.
  assert (loaded m = true) as Hl by (unfold loaded; by rewrite Hlib).
  assert (loaded m' = true) as Hl' by (unfold loaded; by rewrite Hlib').
  destruct (get_state_returns K m Hsym Hl Hlen) as (snap & Hget & Hsnap).
  destruct (restore_strips K m snap Hsym Hsnap (seq 0 (length (zctrls m'))) m')
    as (m'' & Hset & _ & Hlen'' & Hres & _).
  { apply NoDup_seq. }
  { intros c Hc. apply elem_of_seq in Hc. lia. }
  { done. }
  { lia. }
  exists snap, m''. split; [done|]. split.
  { unfold set_state, mbind, M_bind, gets. exact Hset. }
  intros c k Hc.
  destruct (lookup_lt_is_Some_2 (zctrls m) c) as [s Hs]; [lia|].
  destruct (lookup_lt_is_Some_2 (zctrls m'') c) as [s'' Hs'']; [lia|].
  exists (strip_get k s), (strip_get k s'').
  assert (c ∈ seq 0 (length (zctrls m'))) as Hin by (apply elem_of_seq; lia).
  specialize (Hres c k Hin). unfold restored, cached in *.
  rewrite Hs, Hs'' in *. simpl in *. repeat split; try done.
  - by injection Hres.
  - unfold snapshot_value. rewrite (Hsnap c s Hs).
    rewrite (get_chan_state_lookup K s k (λ k', Hsym c s k' Hs)).
    apply (get_state_value K).
Qed.

End Facts.

(** *** The theorems on the small instance *)

Lemma standin_contract : snapshot_contract (ext := standin).
Proof. split; done. Qed.

(** An instance with one binding: the level of strip 1 learned on channel
    3, CC 7. *)
Definition learned2 : zynmixer :=
  run_all2 [EnableMidiLearn (OwnCtrl 1 Level); MidiControlChange false 3 7 (PyInt 100)]
           fresh2.

(** An instance with a controller pending learn and a learn callback. *)
Definition pending2 : zynmixer :=
  run_all2 [SetMidiLearnCb (Some 5%nat); EnableMidiLearn (OwnCtrl 0 Mute)] learned2.

(** An instance with the level of strip 0 set, and the same after a call
    of [destroy]. *)
Definition levelled2 : zynmixer := run_all2 [SetLevel 0 (PyFloat 0.5) true] fresh2.
Definition destroyed2 : zynmixer := run_all2 [Destroy] levelled2.

Example destroy_raises :
  run2 Destroy levelled2 = Raises AttributeError destroyed2
  ∧ lib_zynmixer destroyed2 = Some LibZynmixer
  ∧ trace destroyed2 = trace levelled2 ++ [Native "end" []].
Proof. by vm_compute. Qed.

Lemma midi_control_change_forwards_witness :
  midi_learn_zctrl learned2 = None
  ∧ midi_control_change true 9 7 (PyInt 64) learned2
    = Returns tt (log (CtrlMidiCC (OwnCtrl 1 Level) (PyInt 64)) learned2)
  ∧ midi_control_change false 9 7 (PyInt 64) learned2 = Returns tt learned2.
Proof.
  split; [reflexivity|].
  destruct (midi_control_change_forwards learned2 true 9 7 (PyInt 64) eq_refl)
    as (Hset & _ & _).
  destruct (midi_control_change_forwards learned2 false 9 7 (PyInt 64) eq_refl)
    as (_ & Hclear & _).
  split; [exact Hset | exact (Hclear eq_refl eq_refl)].
Defined.

(** With [midi_single_active_channel] set, an event on channel 0, whose
    own slot (0, 7) is unbound, reaches the controller bound at (3, 7). *)
Lemma single_active_channel_unbound_slot_forwards :
  midi_learn_zctrl learned2 = None
  ∧ bound_at learned2 0 7 = None
  ∧ ∃ m', midi_control_change true 0 7 (PyInt 64) learned2 = Returns tt m'
      ∧ trace m' = trace learned2 ++ [CtrlMidiCC (OwnCtrl 1 Level) (PyInt 64)]
      ∧ m' ≠ learned2.
Proof.
  split; [reflexivity|]. split; [reflexivity|]. eexists. split; [reflexivity|].
  split; [reflexivity|]. intros H. apply (f_equal (λ m, length (trace m))) in H.
  vm_compute in H. discriminate.
Qed.

Lemma midi_learn_binds_witness :
  midi_learn_zctrl pending2 = Some (OwnCtrl 0 Mute)
  ∧ ∃ m', midi_control_change true 3 7 (PyInt 1) pending2 = Returns tt m'
      ∧ bound_at m' 3 7 = Some (OwnCtrl 0 Mute)
      ∧ midi_learn_zctrl m' = None
      ∧ trace m' = trace pending2 ++ [Call 5%nat []].
Proof.
  split; [reflexivity|].
  destruct (midi_learn_binds pending2 (OwnCtrl 0 Mute) true 3 7 (PyInt 1))
    as (m' & Hrun & Hb & _ & Hz & Ht & _); [reflexivity | reflexivity | lia |].
  exists m'. repeat split; assumption.
Defined.

(** C3: [midi_unlearn] raises TypeError and removes nothing, whether the
    controller is bound nowhere (first instance) or bound at (3, 7)
    (second instance); the claim has it return normally in the first case
    and raise RuntimeError after removing the binding in the second. *)
Theorem midi_unlearn_raises_TypeError :
  get_learned_cc (OwnCtrl 1 Level) fresh2 = Returns None fresh2
  ∧ midi_unlearn (OwnCtrl 1 Level) fresh2 = Raises TypeError fresh2
  ∧ get_learned_cc (OwnCtrl 1 Level) learned2 = Returns (Some (3, 7)) learned2
  ∧ midi_unlearn (OwnCtrl 1 Level) learned2 = Raises TypeError learned2.
Proof. repeat split; by vm_compute. Qed.

(** Were the list subscripted with the channel number, the inner loop
    would remove the binding and then fail on the changed dictionary. *)
Example midi_unlearn_keys_int_subscript :
  ∃ m', midi_unlearn_keys (OwnCtrl 1 Level) (SubInt 3) 3 1 [7] learned2
        = Raises RuntimeError m'
    ∧ bound_at m' 3 7 = None.
Proof. eexists. split; by vm_compute. Qed.

Lemma snapshot_round_trip_witness :
  ∃ snap m'',
    get_state (ext := standin) true levelled2 = Returns snap levelled2
    ∧ set_state (ext := standin) snap true fresh2 = Returns tt m''
    ∧ value <$> cached m'' 0 Level = Some (PyFloat 0.5).
Proof.
  destruct (snapshot_round_trip (ext := standin) levelled2 fresh2)
    as (snap & m'' & Hget & Hset & Hval).
  - split; done.
  - exists true, None, fresh2, [SetLevel 0 (PyFloat 0.5) true]. split; reflexivity.
  - exists true, None, fresh2, []. split; reflexivity.
  - exists snap, m''. split; [assumption|]. split; [assumption|].
    destruct (Hval 0%nat Level) as (z & z'' & Hz & Hz'' & Hv & _); [simpl; lia|].
    rewrite Hz''. simpl. rewrite Hv. vm_compute in Hz. injection Hz as <-. reflexivity.
Defined.

Lemma setter_frame_witness :
  ∃ m', set_level (ext := standin) 1 (PyFloat 0.25) true destroyed2 = Returns tt m'
    ∧ trace m' = trace destroyed2 ++ [Native "setLevel" [PyInt 1; PyFloat 0.25]]
    ∧ value <$> cached m' 1 Level = Some (PyFloat 0.25)
    ∧ cached m' 0 Level = cached destroyed2 0 Level
    ∧ learned_cc m' = learned_cc destroyed2.
Proof.
  destruct (setter_frame (ext := standin) destroyed2 Level 1 (PyFloat 0.25))
    as (m' & Hrun & Ht & Hv & Hframe & Hl & _).
  - exists true, None, fresh2, [SetLevel 0 (PyFloat 0.5) true; Destroy].
    split; reflexivity.
  - simpl. lia.
  - reflexivity.
  - exists m'. repeat split; try assumption. apply Hframe. discriminate.
Defined.

Lemma library_always_loaded_witness :
  reachable (ext := standin) destroyed2
  ∧ lib_zynmixer destroyed2 = Some LibZynmixer
  ∧ get_max_channels (ext := standin) destroyed2 = 2.
Proof.
  assert (reachable (ext := standin) destroyed2) as Hr.
  { exists true, None, fresh2, [SetLevel 0 (PyFloat 0.5) true; Destroy].
    split; reflexivity. }
  split; [exact Hr|].
  destruct (library_always_loaded (ext := standin) destroyed2 0 0 Hr)
    as (_ & Hlib & Hmax & _).
  split; assumption.
Defined.

Lemma cache_channel_clamped_witness :
  Z.of_nat (length (zctrls levelled2)) = MAX_NUM_CHANNELS levelled2 + 1
  ∧ run2 (SetLevel 7 (PyFloat 0.25) true) levelled2
    = run2 (SetLevel 2 (PyFloat 0.25) true) levelled2.
Proof.
  destruct (cache_channel_clamped (ext := standin) levelled2
              (CSetLevel (PyFloat 0.25) true) 7) as (Hlen & _ & _ & Hover).
  - exists true, None, fresh2, [SetLevel 0 (PyFloat 0.5) true]. split; reflexivity.
  - lia.
  - split; [exact Hlen|]. apply Hover. simpl. lia.
Defined.

(** *** Further properties of the wrapper *)

Section MoreFacts.

Context {ext : Externals}.

(** **** The methods that leave MIDI learn alone *)

(** The calls that deal with the library and the cache only;
    [send_controller_value] is one when the controller's symbol names one
    of the six setters. *)
Definition is_mixing_op (o : op) : bool :=
  match o with
  | SetState _ _ | MidiControlChange _ _ _ _ | MidiUnlearnChan _ | MidiUnlearn _
  | EnableMidiLearn _ | DisableMidiLearn | SetMidiLearnCb _ => false
  | SendControllerValue zctrl =>
      match key_of_symbol (symbol zctrl) with Some _ => true | None => false end
  | _ => true
  end.

Section Mixing.

(** [P] is kept by a call to the library or to a callback, by a method
    call on a cached controller and by unloading the library. *)
Variable P : zynmixer → Prop.
Hypothesis P_log : ∀ e m, P m → P (log e m).
Hypothesis P_ctrl : ∀ i k f m, P m → P (with_zctrls (alter (strip_alter k f) i (zctrls m)) m).
Hypothesis P_lib : ∀ m, P m → P (with_lib None m).

Lemma keeps_lib_call fn args : hoare P any_exn (lib_call fn args).
Proof. intros m Hm. unfold lib_call. destruct (loaded m); [by apply P_log | done]. Qed.

Lemma keeps_send_update chan ctrl val : hoare P any_exn (send_update chan ctrl val).
Proof.
  intros m Hm. unfold send_update. destruct (processor_cb m); [by apply P_log | done].
Qed.

Lemma keeps_zctrl_call channel k f : hoare P any_exn (zctrl_call channel k f).
Proof.
  intros m Hm. unfold zctrl_call. destruct (list_slot _ _); [by apply P_ctrl | done].
Qed.

Lemma keeps_zctrl_lookup channel : hoare P any_exn (zctrl_lookup channel).
Proof. intros m Hm. unfold zctrl_lookup. by destruct (list_slot _ _). Qed.

Lemma keeps_lib_read fn channel : hoare P any_exn (lib_read fn channel).
Proof. intros m Hm. unfold lib_read. by destruct (loaded m). Qed.

Lemma keeps_set_ctrl k fn channel val update :
  hoare P any_exn (set_ctrl k fn channel val update).
Proof.
  unfold set_ctrl. apply hoare_gets_bind. intros c _.
  apply hoare_bind; [apply keeps_lib_call | intros _].
  apply hoare_bind; [| intros _; apply keeps_send_update].
  apply hoare_when, keeps_zctrl_call.
Qed.

Lemma keeps_set_mute channel val update : hoare P any_exn (set_mute channel val update).
Proof.
  unfold set_mute. apply hoare_gets_bind. intros c _.
  apply hoare_bind; [apply keeps_lib_call | intros _].
  apply hoare_bind; [| intros _; apply keeps_send_update].
  apply hoare_when. destruct c; [apply keeps_zctrl_call | by apply hoare_raise].
Qed.

Lemma keeps_setter k channel val update : hoare P any_exn (setter k channel val update).
Proof. destruct k; simpl; first [apply keeps_set_ctrl | apply keeps_set_mute]. Qed.

Lemma keeps_toggle (k : ctrl_key) (read : M pyval) channel :
  hoare P any_exn read →
  hoare P any_exn
    (zctrl_lookup channel;; v ← read; zctrl_call channel k (λ z, zctrl_set_value z v false)).
Proof.
  intros Hread. apply hoare_bind; [apply keeps_zctrl_lookup | intros _].
  apply hoare_bind; [done | intros v; apply keeps_zctrl_call].
Qed.

Lemma keeps_reset channel : hoare P any_exn (reset channel).
Proof.
  unfold reset. destruct (as_int channel); [|apply hoare_ret].
  apply hoare_gets_bind. intros c _.
  repeat (apply hoare_bind; [| intros _]); apply keeps_zctrl_call.
Qed.

Lemma keeps_mixing_op o : is_mixing_op o = true → hoare P any_exn (run o).
Proof.
  destruct o; simpl; try done; intros Ho; try apply keeps_set_ctrl.
  - intros m Hm. unfold destroy, mbind, M_bind, gets, when, lib_call, raise, modify.
    destruct (loaded m) eqn:Hld; simpl.
    + rewrite Hld. split; [done|]. by apply P_log.
    + by apply P_lib.
  - apply keeps_set_mute.
  - unfold toggle_mute. apply hoare_gets_bind. intros c _. apply keeps_lib_call.
  - unfold toggle_phase. apply hoare_gets_bind. intros c _.
    apply hoare_bind; [apply keeps_lib_call | intros _].
    apply hoare_when, keeps_toggle, keeps_lib_read.
  - unfold toggle_solo. apply hoare_gets_bind. intros c _. apply hoare_gets_bind.
    intros b _. apply hoare_bind; [| intros _].
    + apply hoare_when, hoare_gets_bind. intros on _.
      destruct (truthy on); apply keeps_set_ctrl.
    + apply hoare_when, keeps_toggle.
      destruct exports_get_solo; [apply keeps_lib_read | by apply hoare_raise].
  - unfold toggle_mono. apply hoare_gets_bind. intros c _. apply hoare_gets_bind.
    intros b _. apply hoare_bind; [| intros _].
    + apply hoare_when, hoare_gets_bind. intros on _.
      destruct (truthy on); apply keeps_set_ctrl.
    + apply hoare_when, keeps_toggle, keeps_lib_read.
  - apply keeps_lib_call.
  - apply keeps_lib_call.
  - apply keeps_lib_call.
  - apply keeps_reset.
  - unfold reset_state. apply hoare_gets_bind. intros n _.
    apply hoare_for_each. intros c _. apply keeps_reset.
  - unfold send_controller_value. apply hoare_try with (E' := any_exn); [|apply hoare_ret].
    destruct (key_of_symbol _); [apply keeps_setter | done].
Qed.

End Mixing.

Lemma mixing_frame (o : op) (m : zynmixer) :
  is_mixing_op o = true →
  learned_cc (state_of (run o m)) = learned_cc m
  ∧ midi_learn_zctrl (state_of (run o m)) = midi_learn_zctrl m
  ∧ midi_learn_cb (state_of (run o m)) = midi_learn_cb m.
Proof.
  intros Ho.
  pose proof (keeps_mixing_op
    (λ m', learned_cc m' = learned_cc m ∧ midi_learn_zctrl m' = midi_learn_zctrl m
           ∧ midi_learn_cb m' = midi_learn_cb m)) as H.
  specialize (H (λ e m' Hm', Hm') (λ i k f m' Hm', Hm') (λ m' Hm', Hm') o Ho m).
  simpl in H. destruct (run o m); simpl; [by apply H | by apply H].
Qed.

(** None of the library and cache methods touches the binding table, the
    pending learn or the learn callback, whether it returns or raises;
    [send_controller_value] is among them for a controller whose symbol is
    one of level, balance, mute, solo, mono, phase. *)
Theorem mixing_keeps_midi_learn (o : op) (m : zynmixer) :
  is_mixing_op o = true →
  learned_cc (state_of (run o m)) = learned_cc m
  ∧ midi_learn_zctrl (state_of (run o m)) = midi_learn_zctrl m
  ∧ midi_learn_cb (state_of (run o m)) = midi_learn_cb m.
Proof. apply mixing_frame. Qed.

(** **** Bindings are only ever added *)

Lemma midi_unlearn_state zctrl m : state_of (midi_unlearn zctrl m) = m.
Proof.
  destruct (decide (learned_cc m = [])) as [He|Hne].
  - unfold midi_unlearn, mbind, M_bind, gets. by rewrite He.
  - by rewrite midi_unlearn_raises.
Qed.

Lemma dict_get_set_is_Some cc cc0 z d :
  is_Some (dict_get cc d) → is_Some (dict_get cc (dict_set cc0 z d)).
Proof.
  intros Hd. destruct (decide (cc = cc0)) as [->|Hne].
  - rewrite dict_get_set. by eexists.
  - by rewrite dict_get_set_ne.
Qed.

Lemma list_index_alter {A} (f : A → A) (i : nat) (l : list A) (ch : Z) :
  list_index (alter f i l) ch
  = (if decide (list_slot l ch = Some i) then f else id) <$> list_index l ch.
Proof.
  unfold list_index, list_slot. rewrite length_alter.
  destruct (Z.leb_spec 0 ch) as [Hch|Hch].
  - destruct (Z.ltb_spec ch (Z.of_nat (length l))) as [Hlt|Hge].
    + case_decide as Hi.
      * injection Hi as <-. apply list_lookup_alter_eq.
      * rewrite list_lookup_alter_ne by congruence. by destruct (l !! Z.to_nat ch).
    + rewrite decide_False by done.
      rewrite !(proj2 (lookup_ge_None _ _)); [done | lia | rewrite length_alter; lia].
  - destruct (Z.leb_spec (- Z.of_nat (length l)) ch) as [Hlo|Hlo]; [|by case_decide].
    case_decide as Hi.
    + injection Hi as <-. apply list_lookup_alter_eq.
    + rewrite list_lookup_alter_ne by congruence.
      by destruct (l !! Z.to_nat (Z.of_nat (length l) + ch)).
Qed.

(** The calls that hand the binding table to inherited code: [set_state],
    and [send_controller_value] when the symbol names a setter of the base
    class. *)
Definition reaches_inherited (o : op) : bool :=
  match o with
  | SetState _ _ => true
  | SendControllerValue zctrl =>
      match key_of_symbol (symbol zctrl) with
      | Some _ => false
      | None =>
          negb (bool_decide (symbol zctrl = "state")
                || bool_decide (symbol zctrl = "midi_learn_cb"))
          && match inherited_set (symbol zctrl) with Some _ => true | None => false end
      end
  | _ => false
  end.

(** The code of the wrapper itself never removes a binding: whatever is
    called that does not hand the table to inherited code, a slot that is
    bound stays bound, [midi_unlearn] and [midi_unlearn_chan] included. *)
Theorem own_code_keeps_bindings (o : op) (m : zynmixer) (ch cc : Z) :
  reaches_inherited o = false →
  is_Some (bound_at m ch cc) →
  is_Some (bound_at (state_of (run o m)) ch cc).
Proof.
  intros Ho Hb. destruct (is_mixing_op o) eqn:Hmix.
  { unfold bound_at. by destruct (mixing_frame o m Hmix) as (-> & _). }
  destruct o; try done; simpl.
  - simpl in Ho, Hmix. unfold send_controller_value, try_except.
    destruct (key_of_symbol (symbol zctrl)); [done|].
    destruct (_ || _); [done|]. simpl in Ho.
    by destruct (inherited_set (symbol zctrl)).
  - unfold midi_control_change, mbind, M_bind, gets.
    destruct (midi_learn_zctrl m) as [z|] eqn:Hz.
    + unfold act. destruct (list_slot (learned_cc m) chan) as [i|] eqn:Hi; [|done].
      assert (∀ m1 : outcome (), (∀ m2, m1 = Returns tt m2 ∨ (∃ e, m1 = Raises e m2) →
                 learned_cc m2 = alter (dict_set ccnum z) i (learned_cc m)) →
               is_Some (bound_at (state_of m1) ch cc)) as Hgen.
      { intros m1 Hm1. unfold bound_at.
        rewrite (Hm1 (state_of m1)) by (destruct m1 as [[] ?|? ?]; simpl; eauto).
        rewrite list_index_alter. unfold bound_at in Hb.
        destruct (list_index (learned_cc m) ch) as [d|]; simpl in *; [|done].
        case_decide; [by apply dict_get_set_is_Some | done]. }
      apply Hgen. unfold disable_midi_learn, mbind, M_bind, modify, gets. simpl.
      intros m2. destruct (midi_learn_cb m); simpl;
        (intros [[= <-]|[e [=]]]); done.
    + destruct single_active_channel;
        [rewrite forward_cc_all | rewrite forward_cc_try];
        simpl; by rewrite bound_at_log_all.
  - unfold midi_unlearn_chan, mbind, M_bind, zctrl_lookup.
    by destruct (list_slot _ _).
  - by rewrite midi_unlearn_state.
  - unfold disable_midi_learn, mbind, M_bind, modify, gets. simpl.
    by destruct (midi_learn_cb m).
Qed.

(** **** Looking a binding up *)

(** A dictionary has each key once. *)
Definition dict_wf (d : cc_dict) : Prop := NoDup d.*1.

Lemma dict_get_elem_of cc z d : dict_wf d → (dict_get cc d = Some z ↔ (cc, z) ∈ d).
Proof.
  unfold dict_wf. induction d as [|[k z'] d IH]; simpl; intros Hnd.
  - split; [done | by intros ?%elem_of_nil].
  - apply NoDup_cons in Hnd as [Hk Hnd]. case_bool_decide as Hkc.
    + subst k. split.
      * intros [= ->]. by left.
      * intros [[= ->]|Hin]%elem_of_cons; [done|].
        destruct Hk. apply list_elem_of_fmap. by exists (cc, z).
    + rewrite IH by done. split; [by right|].
      intros [[= -> ->]|Hin]%elem_of_cons; done.
Qed.

Lemma dict_set_keys cc z d :
  (dict_set cc z d).*1 = if decide (cc ∈ d.*1) then d.*1 else d.*1 ++ [cc].
Proof.
  induction d as [|[k z'] d IH].
  - rewrite decide_False; [done | by intros ?%elem_of_nil].
  - cbn [dict_set]. case_bool_decide as Hk.
    + subst k. rewrite decide_True; [done | by left].
    + rewrite fmap_cons, IH. cbn [fst fmap list_fmap]. destruct (decide (cc ∈ d.*1)) as [Hin|Hin].
      * rewrite decide_True; [done | by right].
      * rewrite decide_False; [done|].
        intros [?|?]%elem_of_cons; congruence.
Qed.

Lemma dict_set_wf cc z d : dict_wf d → dict_wf (dict_set cc z d).
Proof.
  unfold dict_wf. intros Hd. rewrite dict_set_keys. case_decide as Hin; [done|].
  apply NoDup_app. split; [done|]. split; [|apply NoDup_singleton].
  intros x Hx ->%list_elem_of_singleton. done.
Qed.

(** The inner loop of [get_learned_cc] finds a key exactly when the
    controller is a value of the dictionary. *)
Lemma first_binding d z (Hdec : ∀ kv : Z * zref, Decision (kv.2 = z)) l :
  dict_wf d →
  filter (λ kv : Z * zref, kv.2 = z) d = l →
  match l with
  | (cc, _) :: _ => dict_get cc d = Some z
  | [] => ∀ cc, dict_get cc d ≠ Some z
  end.
Proof.
  intros Hd Hf. destruct l as [|[cc z'] l].
  - intros cc Hcc. apply dict_get_elem_of in Hcc; [|done].
    assert ((cc, z) ∈ filter (λ kv : Z * zref, kv.2 = z) d) as Hin
      by (by apply list_elem_of_filter).
    rewrite Hf in Hin. by apply elem_of_nil in Hin.
  - assert ((cc, z') ∈ filter (λ kv : Z * zref, kv.2 = z) d) as Hin
      by (rewrite Hf; left).
    apply list_elem_of_filter in Hin as [Hz Hin]. simpl in Hz. subst z'.
    by apply dict_get_elem_of.
Qed.

Lemma get_learned_cc_from_spec z (a n : nat) m :
  (a + n ≤ length (learned_cc m))%nat →
  Forall dict_wf (learned_cc m) →
  ∃ r, get_learned_cc_from z (Z.of_nat <$> seq a n) m = Some r
    ∧ match r with
      | Some (ch, cc) =>
          Z.of_nat a ≤ ch < Z.of_nat (a + n) ∧ bound_at m ch cc = Some z
          ∧ ∀ ch' cc', Z.of_nat a ≤ ch' < ch → bound_at m ch' cc' ≠ Some z
      | None => ∀ ch cc, Z.of_nat a ≤ ch < Z.of_nat (a + n) → bound_at m ch cc ≠ Some z
      end.
Proof.
  intros Hlen Hwf. revert a Hlen. induction n as [|n IH]; intros a Hlen; simpl.
  - exists None. split; [done|]. intros ch cc Hch. lia.
  - rewrite list_index_in_range by lia. rewrite Nat2Z.id.
    destruct (lookup_lt_is_Some_2 (learned_cc m) a) as [d Hd]; [lia|].
    rewrite Hd. simpl.
    assert (dict_wf d) as Hdwf by (eapply Forall_lookup_1; eauto).
    assert (∀ cc, bound_at m (Z.of_nat a) cc = dict_get cc d) as Hba.
    { intros cc. unfold bound_at. rewrite list_index_in_range by lia.
      by rewrite Nat2Z.id, Hd. }
    match goal with |- context [match ?F with [] => _ | _ :: _ => _ end] =>
      destruct F as [|[cc z'] l] eqn:Hf end;
      pose proof (first_binding d z _ _ Hdwf Hf) as Hfirst; simpl in Hfirst.
    + destruct (IH (S a)) as (r & Hr & Hspec); [lia|]. exists r. split; [done|].
      destruct r as [[ch cc]|].
      * destruct Hspec as (Hch & Hb & Hearlier). repeat split; try done; try lia.
        intros ch' cc' Hch'. destruct (decide (ch' = Z.of_nat a)) as [->|Hne].
        -- rewrite Hba. apply Hfirst.
        -- apply Hearlier. lia.
      * intros ch cc Hch. destruct (decide (ch = Z.of_nat a)) as [->|Hne].
        -- rewrite Hba. apply Hfirst.
        -- apply Hspec. lia.
    + eexists. split; [done|]. simpl. rewrite Hba. repeat split; try done; try lia.
Qed.

Lemma get_learned_cc_result (z : zref) (m : zynmixer) :
  length (learned_cc m) = 16%nat →
  Forall dict_wf (learned_cc m) →
  ∃ r, get_learned_cc z m = Returns r m
    ∧ match r with
      | Some (ch, cc) =>
          0 ≤ ch < 16 ∧ bound_at m ch cc = Some z
          ∧ ∀ ch' cc', 0 ≤ ch' < ch → bound_at m ch' cc' ≠ Some z
      | None => ∀ ch cc, 0 ≤ ch < 16 → bound_at m ch cc ≠ Some z
      end.
Proof.
  intros Hlen Hwf.
  destruct (get_learned_cc_from_spec z 0 16 m) as (r & Hr & Hspec); [lia | done |].
  exists r. split.
  - unfold get_learned_cc. change (range 16) with (Z.of_nat <$> seq 0 16). by rewrite Hr.
  - destruct r as [[ch cc]|]; exact Hspec.
Qed.

(** [get_learned_cc] returns the first channel, of the 16, on which the
    controller is bound, with a CC number bound to it there, and [None]
    exactly when the controller is bound on none of them. *)
Theorem get_learned_cc_spec (z : zref) (m : zynmixer) :
  length (learned_cc m) = 16%nat →
  Forall dict_wf (learned_cc m) →
  ∃ r, get_learned_cc z m = Returns r m
    ∧ match r with
      | Some (ch, cc) =>
          0 ≤ ch < 16 ∧ bound_at m ch cc = Some z
          ∧ ∀ ch' cc', 0 ≤ ch' < ch → bound_at m ch' cc' ≠ Some z
      | None => ∀ ch cc, 0 ≤ ch < 16 → bound_at m ch cc ≠ Some z
      end.
Proof. apply get_learned_cc_result. Qed.

(** Learn, then look up: a controller bound nowhere that is learned on
    (chan, ccnum) is found there by [get_learned_cc]. *)
Theorem learn_then_get_learned_cc (m : zynmixer) (z : zref) (flag : bool)
  (chan ccnum : Z) (val : pyval) :
  midi_learn_zctrl m = Some z →
  length (learned_cc m) = 16%nat →
  Forall dict_wf (learned_cc m) →
  0 ≤ chan < 16 →
  (∀ ch cc, 0 ≤ ch < 16 → bound_at m ch cc ≠ Some z) →
  ∃ m', midi_control_change flag chan ccnum val m = Returns tt m'
    ∧ get_learned_cc z m' = Returns (Some (chan, ccnum)) m'.
Proof.
  intros Hz Hlen Hwf Hchan Hfree.
  assert (∃ m', midi_control_change flag chan ccnum val m = Returns tt m'
            ∧ learned_cc m' = alter (dict_set ccnum z) (Z.to_nat chan) (learned_cc m))
    as (m' & Hrun & Hl).
  { unfold midi_control_change, disable_midi_learn, mbind, M_bind, gets, act, modify.
    rewrite Hz. rewrite list_slot_in_range by lia. simpl.
    destruct (midi_learn_cb m); simpl; by eexists. }
  exists m'. split; [done|].
  assert (∀ ch cc, 0 ≤ ch < 16 →
            bound_at m' ch cc
            = if decide ((ch, cc) = (chan, ccnum)) then Some z else bound_at m ch cc) as Hb.
  { intros ch cc Hch. unfold bound_at. rewrite Hl, list_index_alter.
    rewrite list_slot_in_range by lia. rewrite list_index_in_range by lia.
    destruct (lookup_lt_is_Some_2 (learned_cc m) (Z.to_nat ch)) as [d Hd]; [lia|].
    rewrite Hd. simpl. destruct (decide (Some (Z.to_nat ch) = Some (Z.to_nat chan))) as [Heq|Hne].
    - assert (ch = chan) as -> by (injection Heq; lia). simpl.
      destruct (decide (cc = ccnum)) as [->|Hcc].
      + rewrite decide_True by done. apply dict_get_set.
      + rewrite decide_False by congruence. by apply dict_get_set_ne.
    - rewrite decide_False; [done|]. intros [= -> _]. done. }
  destruct (get_learned_cc_result z m') as (r & Hr & Hspec).
  { by rewrite Hl, length_alter. }
  { rewrite Hl. apply Forall_alter; [done|]. intros d _ Hd. by apply dict_set_wf. }
  rewrite Hr. f_equal. destruct r as [[ch cc]|].
  - destruct Hspec as (Hch & Hbound & _). rewrite Hb in Hbound by done.
    case_decide as Heq; [by rewrite Heq|]. by destruct (Hfree ch cc).
  - destruct (Hspec chan ccnum Hchan). rewrite Hb by done. by rewrite decide_True.
Qed.

(** **** [destroy] *)

(** [destroy] does not unload the library of a constructed instance: it
    calls [end()] and raises AttributeError before [lib_zynmixer] is
    cleared, whatever was called before, itself included; the instance
    stays a constructed one with its library, cache and bindings, on which
    every method keeps calling into the library. *)
Theorem destroy_keeps_library (m : zynmixer) :
  reachable m →
  destroy m = Raises AttributeError (log (Native "end" []) m)
  ∧ lib_zynmixer (state_of (destroy m)) = Some LibZynmixer
  ∧ reachable (state_of (destroy m)).
Proof.
  intros Hr. pose proof (reachable_loaded m Hr) as Hlib.
  assert (destroy m = Raises AttributeError (log (Native "end" []) m)) as Hrun.
  { unfold destroy, mbind, M_bind, gets, when, lib_call, raise, loaded.
    rewrite Hlib. simpl. unfold loaded. by rewrite Hlib. }
  split; [done|]. rewrite Hrun. simpl. split; [done|].
  destruct Hr as (load_ok & cb & m0 & ops & Hinit & ->).
  exists load_ok, cb, m0, (ops ++ [Destroy]). split; [done|].
  unfold run_all. rewrite foldl_app. simpl. fold (run_all ops m0). by rewrite Hrun.
Qed.

(** **** Restoring a snapshot entry by entry *)

Lemma strip_alter_compose k f g s :
  strip_alter k f (strip_alter k g s) = strip_alter k (f ∘ g) s.
Proof. by destruct k. Qed.

Lemma strip_alter_id k s : strip_alter k id s = s.
Proof. by destruct k, s. Qed.

Lemma alter_strip_compose k f g c (zs : list strip) :
  alter (strip_alter k f) c (alter (strip_alter k g) c zs)
  = alter (strip_alter k (f ∘ g)) c zs.
Proof.
  apply list_eq. intros i. destruct (decide (i = c)) as [->|Hi].
  - rewrite !list_lookup_alter_eq. destruct (zs !! c); simpl; [|done].
    by rewrite strip_alter_compose.
  - by rewrite !list_lookup_alter_ne.
Qed.

Lemma alter_strip_id k c (zs : list strip) : alter (strip_alter k id) c zs = zs.
Proof.
  apply list_eq. intros i. destruct (decide (i = c)) as [->|Hi].
  - rewrite list_lookup_alter_eq. destruct (zs !! c); simpl; [|done].
    by rewrite strip_alter_id.
  - by rewrite list_lookup_alter_ne.
Qed.

(** [state[key][symbol]], when both subscripts succeed. *)
Definition snapshot_entry (state : gmap string (gmap string (gmap string pyval))) (key : string) (k : ctrl_key)
  : option (gmap string pyval) :=
  match state !! key with
  | Some chan_state => chan_state !! key_name k
  | None => None
  end.

(** What [set_state] does to a controller the snapshot has no entry for. *)
Definition unlisted (full : bool) : zynthian_controller → zynthian_controller :=
  if full then zctrl_reset_value else id.

(** One controller of [set_state]: the step returns, changing that
    controller only; without an entry it is reset, or left, by [full]. *)
Lemma set_state_ctrl_effect state full c k m1 :
  ∃ m2 g, set_state_ctrl state full c k m1 = Returns tt m2
    ∧ lib_zynmixer m2 = lib_zynmixer m1
    ∧ zctrls m2 = alter (strip_alter k g) c (zctrls m1)
    ∧ (snapshot_entry state (chan_key (Z.of_nat c) m1) k = None → g = unlisted full).
Proof.
  unfold set_state_ctrl, try_except, mbind, M_bind, gets, state_lookup, snapshot_entry,
    unlisted.
  destruct (state !! chan_key (Z.of_nat c) m1) as [cs|]; simpl.
  - destruct (cs !! key_name k) as [st|]; simpl.
    + unfold restore_ctrl, mbind, M_bind, zctrl_at, modify, act.
      destruct (st !! "value") as [v|]; simpl;
        (destruct (st !! "midi_learn_chan") as [c1|]; simpl;
         [destruct (st !! "midi_learn_cc") as [c2|]; simpl;
          [destruct (set_midi_learn _ _ _ _) as [e|l]; simpl|]|]);
        destruct full; simpl; eexists _, _;
        rewrite ?alter_strip_compose;
        (split; [reflexivity|]); (split; [reflexivity|]);
        first [ split; [reflexivity | done]
              | split; [symmetry; apply (alter_strip_id k) | done] ].
    + destruct full; simpl; unfold zctrl_at, modify; eexists _, _;
        (split; [reflexivity|]); (split; [reflexivity|]);
        first [ split; [reflexivity | done]
              | split; [symmetry; apply (alter_strip_id k) | done] ].
  - destruct full; simpl; unfold zctrl_at, modify; eexists _, _;
      (split; [reflexivity|]); (split; [reflexivity|]);
      first [ split; [reflexivity | done]
            | split; [symmetry; apply (alter_strip_id k) | done] ].
Qed.

Lemma NoDup_strip_keys : NoDup strip_keys.
Proof. apply (bool_decide_unpack _). by vm_compute. Qed.

Lemma elem_of_strip_keys k : k ∈ strip_keys.
Proof. unfold strip_keys. destruct k; set_solver. Qed.

Lemma chan_key_lib c m1 m2 :
  lib_zynmixer m2 = lib_zynmixer m1 → chan_key c m2 = chan_key c m1.
Proof. intros Hl. unfold chan_key, get_max_channels, loaded. by rewrite Hl. Qed.

Lemma set_state_keys state full (c : nat) (ks : list ctrl_key) m1 :
  NoDup ks →
  ∃ m2, for_each ks (set_state_ctrl state full c) m1 = Returns tt m2
    ∧ lib_zynmixer m2 = lib_zynmixer m1
    ∧ length (zctrls m2) = length (zctrls m1)
    ∧ (∀ c' k', c' ≠ c ∨ k' ∉ ks → cached m2 c' k' = cached m1 c' k')
    ∧ (∀ k, k ∈ ks → snapshot_entry state (chan_key (Z.of_nat c) m1) k = None →
         cached m2 c k = unlisted full <$> cached m1 c k).
Proof.
  intros Hnd. revert m1. induction Hnd as [|k ks Hk Hnd IH]; intros m1.
  - exists m1. repeat split; try done. intros k Hk. by apply elem_of_nil in Hk.
  - destruct (set_state_ctrl_effect state full c k m1) as (m2 & g & Hrun & Hl2 & Hz2 & Hg).
    destruct (IH m2) as (m3 & Hrun3 & Hl3 & Hlen3 & Hframe & Hks).
    exists m3. rewrite for_each_cons, Hrun. split; [done|].
    split; [congruence|]. split; [by rewrite Hlen3, Hz2, length_alter|]. split.
    + intros c' k' Hck. rewrite Hframe.
      * erewrite cached_alter by exact Hz2. rewrite decide_False; [done|].
        intros [= -> ->]. destruct Hck as [?|Hck]; [done|]. apply Hck. by left.
      * destruct Hck as [?|Hck]; [by left | right]. intros Hin. apply Hck. by right.
    + intros k' Hk' He. apply elem_of_cons in Hk' as [->|Hk'].
      * rewrite Hframe by (by right). erewrite cached_alter by exact Hz2.
        rewrite decide_True by done. by rewrite (Hg He).
      * rewrite Hks; [| done | by rewrite (chan_key_lib _ m1 m2 Hl2)].
        erewrite cached_alter by exact Hz2. rewrite decide_False; [done|].
        intros [= <-]. done.
Qed.

Lemma set_state_strips state full (cs : list nat) m1 :
  NoDup cs →
  ∃ m2, for_each cs (λ chan, for_each strip_keys (set_state_ctrl state full chan)) m1
        = Returns tt m2
    ∧ lib_zynmixer m2 = lib_zynmixer m1
    ∧ length (zctrls m2) = length (zctrls m1)
    ∧ (∀ c' k', c' ∉ cs → cached m2 c' k' = cached m1 c' k')
    ∧ (∀ c k, c ∈ cs → snapshot_entry state (chan_key (Z.of_nat c) m1) k = None →
         cached m2 c k = unlisted full <$> cached m1 c k).
Proof.
  intros Hnd. revert m1. induction Hnd as [|c cs Hc Hnd IH]; intros m1.
  - exists m1. repeat split; try done. intros c k Hc. by apply elem_of_nil in Hc.
  - destruct (set_state_keys state full c strip_keys m1 NoDup_strip_keys)
      as (m2 & Hrun & Hl2 & Hlen2 & Hframe & Hks).
    destruct (IH m2) as (m3 & Hrun3 & Hl3 & Hlen3 & Hframe3 & Hcs3).
    exists m3. rewrite for_each_cons, Hrun. split; [done|].
    split; [congruence|]. split; [congruence|]. split.
    + intros c' k' Hc'. rewrite Hframe3, Hframe; [done| |].
      * left. intros ->. apply Hc'. by left.
      * intros Hin. apply Hc'. by right.
    + intros c' k Hc' He. apply elem_of_cons in Hc' as [->|Hc'].
      * rewrite Hframe3 by done. apply Hks; [apply elem_of_strip_keys | done].
      * rewrite Hcs3; [| done | by rewrite (chan_key_lib _ m1 m2 Hl2)].
        f_equal. apply Hframe. left. intros ->. done.
Qed.

(** [set_state] returns whatever the snapshot holds: a missing strip, a
    missing symbol or a binding that cannot be restored is caught for the
    controller it concerns. It keeps the number of strips and does not load
    or unload the library. *)
Theorem set_state_never_raises (state : gmap string (gmap string (gmap string pyval))) (full : bool) (m : zynmixer) :
  ∃ m', set_state state full m = Returns tt m'
    ∧ length (zctrls m') = length (zctrls m)
    ∧ lib_zynmixer m' = lib_zynmixer m.
Proof.
  destruct (set_state_strips state full (seq 0 (length (zctrls m))) m (NoDup_seq _ _))
    as (m' & Hrun & Hl & Hlen & _).
  exists m'. by repeat split.
Qed.

(** A cached controller the snapshot has no entry for (no strip key, or no
    symbol under it) is reset by [set_state] when [full] is set and left
    as it is when not. *)
Theorem set_state_missing_entry (state : gmap string (gmap string (gmap string pyval))) (full : bool) (m : zynmixer)
  (c : nat) (k : ctrl_key) :
  (c < length (zctrls m))%nat →
  snapshot_entry state (chan_key (Z.of_nat c) m) k = None →
  ∃ m', set_state state full m = Returns tt m'
    ∧ cached m' c k = (if full then zctrl_reset_value else id) <$> cached m c k.
Proof.
  intros Hc He.
  destruct (set_state_strips state full (seq 0 (length (zctrls m))) m (NoDup_seq _ _))
    as (m' & Hrun & _ & _ & _ & Hcs).
  exists m'. split; [done|]. apply Hcs; [|done]. apply elem_of_seq. lia.
Qed.

(** **** Resetting *)

(** The six [reset_value()] calls of [reset] on one strip. *)
Definition reset_strip (s : strip) : strip :=
  strip_alter Phase zctrl_reset_value
    (strip_alter Solo zctrl_reset_value
       (strip_alter Mono zctrl_reset_value
          (strip_alter Mute zctrl_reset_value
             (strip_alter Balance zctrl_reset_value
                (strip_alter Level zctrl_reset_value s))))).

Lemma strip_get_reset_strip k s :
  strip_get k (reset_strip s) = zctrl_reset_value (strip_get k s).
Proof. by destruct k. Qed.

Lemma list_slot_alter {A} (f : A → A) i (l : list A) c :
  list_slot (alter f i l) c = list_slot l c.
Proof. unfold list_slot. by rewrite length_alter. Qed.

Lemma alter_alter {A} (f g : A → A) i (l : list A) :
  alter f i (alter g i l) = alter (f ∘ g) i l.
Proof.
  apply list_eq. intros j. destruct (decide (j = i)) as [->|Hj].
  - rewrite !list_lookup_alter_eq. by destruct (l !! i).
  - by rewrite !list_lookup_alter_ne.
Qed.

Lemma reset_run (c : Z) (i : nat) m :
  list_slot (zctrls m) (clamp_channel c m) = Some i →
  reset (PyInt c) m = Returns tt (with_zctrls (alter reset_strip i (zctrls m)) m).
Proof.
  intros Hi. unfold reset, mbind, M_bind, gets, zctrl_call. simpl.
  rewrite Hi. simpl. rewrite !list_slot_alter, Hi. simpl.
  rewrite !list_slot_alter, Hi. simpl. rewrite !list_slot_alter, Hi. simpl.
  rewrite !list_slot_alter, Hi. simpl. rewrite !list_slot_alter, Hi. simpl.
  f_equal. unfold with_zctrls. simpl. f_equal. by rewrite !alter_alter.
Qed.

Lemma cached_reset m i c k :
  cached (with_zctrls (alter reset_strip i (zctrls m)) m) c k
  = if decide (c = i) then zctrl_reset_value <$> cached m c k else cached m c k.
Proof.
  unfold cached. simpl. case_decide as Hc.
  - subst c. rewrite list_lookup_alter_eq. destruct (zctrls m !! i); simpl; [|done].
    by rewrite strip_get_reset_strip.
  - by rewrite list_lookup_alter_ne.
Qed.

(** [reset(channel)]: a channel that is not an int (None, a float, a
    string) is ignored; an int, or a bool standing for 0 or 1, resets the
    six controllers of the strip it is clamped to and no other. *)
Theorem reset_resets_strip (channel : pyval) (m : zynmixer) :
  shape m →
  (as_int channel = None → reset channel m = Returns tt m)
  ∧ (∀ c, as_int channel = Some c → 0 ≤ c →
       ∃ m', reset channel m = Returns tt m'
         ∧ ∀ c' k,
             cached m' c' k
             = if decide (c' = Z.to_nat (Z.min c (MAX_NUM_CHANNELS m)))
               then zctrl_reset_value <$> cached m c' k
               else cached m c' k).
Proof.
  intros [HM Hlen]. split.
  - intros Hc. unfold reset. by rewrite Hc.
  - intros c Hc Hpos. eexists. split.
    + assert (reset channel m = reset (PyInt c) m) as ->
        by (unfold reset; by rewrite Hc).
      apply reset_run. rewrite clamp_channel_min. apply list_slot_in_range. lia.
    + intros c' k. apply cached_reset.
Qed.

Lemma reset_channels (cs : list nat) m1 :
  NoDup cs → shape m1 → (∀ c, c ∈ cs → (c ≤ max_channels)%nat) →
  ∃ m2, for_each (Z.of_nat <$> cs) (λ channel, reset (PyInt channel)) m1 = Returns tt m2
    ∧ shape m2
    ∧ ∀ c k, cached m2 c k
             = if bool_decide (c ∈ cs) then zctrl_reset_value <$> cached m1 c k
               else cached m1 c k.
Proof.
  intros Hnd. revert m1. induction Hnd as [|c cs Hc Hnd IH]; intros m1 Hsh Hcs.
  - exists m1. split; [done|]. split; [done|]. intros c k.
    rewrite bool_decide_eq_false_2; [done | by intros ?%elem_of_nil].
  - destruct Hsh as [HM Hlen].
    assert (c ≤ max_channels)%nat as Hle by (apply Hcs; by left).
    pose proof (reset_run (Z.of_nat c) c m1) as Hrun.
    rewrite clamp_channel_min in Hrun. rewrite list_slot_in_range in Hrun by lia.
    replace (Z.to_nat (Z.min (Z.of_nat c) (MAX_NUM_CHANNELS m1))) with c in Hrun by lia.
    specialize (Hrun eq_refl).
    destruct (IH (with_zctrls (alter reset_strip c (zctrls m1)) m1))
      as (m3 & Hrun3 & Hsh3 & Hall).
    { split; simpl; [done | by rewrite length_alter]. }
    { intros c' Hc'. apply Hcs. by right. }
    exists m3. rewrite fmap_cons, for_each_cons, Hrun. split; [done|]. split; [done|].
    intros c' k. rewrite Hall, cached_reset.
    destruct (decide (c' = c)) as [->|Hne].
    + rewrite (bool_decide_eq_false_2 (c ∈ cs)) by done.
      rewrite bool_decide_eq_true_2; [done | by left].
    + destruct (decide (c' ∈ cs)) as [Hin|Hnin].
      * rewrite !bool_decide_eq_true_2; [done | by right | done].
      * rewrite !bool_decide_eq_false_2; [done | | done].
        intros [->|Hin]%elem_of_cons; done.
Qed.

(** [reset_state] on a constructed instance returns having called
    [reset_value()] once on every cached controller, those of the main bus
    included. *)
Theorem reset_state_resets_all (m : zynmixer) :
  reachable m →
  ∃ m', reset_state m = Returns tt m'
    ∧ ∀ c k, cached m' c k = zctrl_reset_value <$> cached m c k.
Proof.
  intros Hr. pose proof (reachable_shape m Hr) as Hsh.
  pose proof (reachable_loaded m Hr) as Hlib.
  unfold reset_state, mbind, M_bind, gets, get_max_channels, range, loaded.
  rewrite Hlib.
  destruct (reset_channels (seq 0 (Z.to_nat (Z.of_nat max_channels + 1))) m)
    as (m' & Hrun & _ & Hall); [apply NoDup_seq | done | |].
  { intros c Hc. apply elem_of_seq in Hc. lia. }
  exists m'. split; [done|]. intros c k. rewrite Hall.
  case_bool_decide as Hin; [done|].
  unfold cached. rewrite (proj2 (lookup_ge_None (zctrls m) c)); [done|].
  destruct Hsh as [_ Hlen]. rewrite Hlen.
  destruct (decide (c < S max_channels)%nat) as [Hlt|]; [|lia].
  destruct Hin. apply elem_of_seq. lia.
Qed.

(** **** A negative channel *)

(** A setter with [update=True] on a loaded library, by what the cache
    subscript resolves to. *)
Lemma setter_run_slot m k c v :
  loaded m = true → clamp_channel c m = c →
  setter k c v true m
  = match list_slot (zctrls m) c with
    | Some i =>
        Returns tt
          (log_all (Native (native_setter k) [PyInt c; v]
                    :: match processor_cb m with
                       | Some cb => [Call cb [PyInt c; PyStr (key_name k); v]]
                       | None => []
                       end)
             (with_zctrls
                (alter (strip_alter k (λ z, zctrl_set_value z v false)) i (zctrls m)) m))
    | None => Raises IndexError (log (Native (native_setter k) [PyInt c; v]) m)
    end.
Proof.
  intros Hl Hclamp.
  destruct k; simpl;
    unfold set_level, set_balance, set_phase, set_solo, set_mono, set_ctrl, set_mute,
      mbind, M_bind, gets, lib_call, when, zctrl_call, send_update; simpl;
    rewrite Hclamp, Hl; simpl; destruct (list_slot (zctrls m) c); simpl;
    by destruct (processor_cb m).
Qed.

(** A negative channel passes the clamp. On a constructed instance, for a
    channel from -2^31 up to -1, the library is called with the channel as
    it is, and the cache subscript counts from the end, so that the strip
    written is the one at MAX_NUM_CHANNELS + 1 + channel; below
    -(MAX_NUM_CHANNELS + 1) the subscript raises IndexError, after the
    library call has been made. *)
Theorem setter_negative_channel (m : zynmixer) (k : ctrl_key) (c : Z) (v : pyval) :
  reachable m → - 2 ^ 31 ≤ c < 0 →
  (- (MAX_NUM_CHANNELS m + 1) ≤ c →
     ∃ m', setter k c v true m = Returns tt m'
       ∧ trace m' = trace m ++ Native (native_setter k) [PyInt c; v]
                    :: match processor_cb m with
                       | Some cb => [Call cb [PyInt c; PyStr (key_name k); v]]
                       | None => []
                       end
       ∧ cached m' (Z.to_nat (MAX_NUM_CHANNELS m + 1 + c)) k
         = (λ z, zctrl_set_value z v false)
             <$> cached m (Z.to_nat (MAX_NUM_CHANNELS m + 1 + c)) k)
  ∧ (c < - (MAX_NUM_CHANNELS m + 1) →
     ∃ m', setter k c v true m = Raises IndexError m'
       ∧ trace m' = trace m ++ [Native (native_setter k) [PyInt c; v]]
       ∧ zctrls m' = zctrls m).
Proof.
  intros Hr Hc. pose proof (reachable_shape m Hr) as [HM Hlen].
  assert (loaded m = true) as Hl.
  { unfold loaded. by rewrite (reachable_loaded m Hr). }
  assert (clamp_channel c m = c) as Hclamp.
  { rewrite clamp_channel_min. lia. }
  rewrite (setter_run_slot m k c v Hl Hclamp).
  split; intros Hlo.
  - assert (list_slot (zctrls m) c = Some (Z.to_nat (MAX_NUM_CHANNELS m + 1 + c))) as ->.
    { unfold list_slot. rewrite (proj2 (Z.leb_gt 0 c)) by lia.
      rewrite (proj2 (Z.leb_le _ _)) by lia. do 2 f_equal. lia. }
    eexists. split; [reflexivity|].
    match goal with |- context [log_all ?es ?m0] =>
      destruct (log_all_fields es m0) as (_ & Hf2 & _ & _ & _ & _ & _ & Hf8) end.
    rewrite Hf8. split; [done|].
    erewrite cached_alter by exact Hf2. by rewrite decide_True.
  - assert (list_slot (zctrls m) c = None) as ->.
    { unfold list_slot. rewrite (proj2 (Z.leb_gt 0 c)) by lia.
      by rewrite (proj2 (Z.leb_gt _ _)) by lia. }
    eexists. split; [reflexivity|]. done.
Qed.

(** **** [toggle_solo] with update *)

(** [toggle_solo] refreshes the cache from [lib_zynmixer.get_solo], not
    [getSolo]: where the library exports no such symbol, the call with
    update set raises AttributeError, after solo has been toggled in the
    library. *)
Theorem toggle_solo_update_raises (m : zynmixer) (c : Z) :
  exports_get_solo = false → shape m → loaded m = true → 0 ≤ c →
  let ch := Z.min c (MAX_NUM_CHANNELS m) in
  let on := negb (truthy (get_solo ch m)) in
  ∃ m', toggle_solo c true m = Raises AttributeError m'
    ∧ trace m' = trace m ++ Native "setSolo" [PyInt ch; PyBool on]
                 :: match processor_cb m with
                    | Some cb => [Call cb [PyInt ch; PyStr "solo"; PyBool on]]
                    | None => []
                    end
    ∧ value <$> cached m' (Z.to_nat ch) Solo
      = value <$> ((λ z, zctrl_set_value z (PyBool on) false) <$> cached m (Z.to_nat ch) Solo).
Proof.
  intros Hx [HM Hlen] Hl Hc ch on.
  assert (clamp_channel c m = ch) as Hclamp by apply clamp_channel_min.
  assert (loaded m = true ∧ 0 ≤ ch ≤ MAX_NUM_CHANNELS m
          ∧ Z.of_nat (length (zctrls m)) = MAX_NUM_CHANNELS m + 1) as (H1 & H2 & H3)
    by (unfold ch; repeat split; (done || lia)).
  pose proof (setter_run m Solo ch (PyBool on) H1 H2 H3) as Hset.
  change (setter Solo ch (PyBool on) true m) with (set_solo ch (PyBool on) true m) in Hset.
  unfold toggle_solo, mbind, M_bind, gets. rewrite Hclamp, Hl. simpl.
  assert ((if truthy (get_solo ch m) then set_solo ch (PyBool false) true
           else set_solo ch (PyBool true) true) = set_solo ch (PyBool on) true) as ->
    by (unfold on; by destruct (truthy _)).
  rewrite Hset. rewrite Hx. unfold zctrl_lookup, raise.
  match goal with |- context [log_all ?es ?m0] =>
    destruct (log_all_fields es m0) as (_ & Hf2 & _ & _ & _ & _ & _ & Hf8);
    set (m1 := log_all es m0) in * end.
  clearbody m1. simpl in Hf2, Hf8. rewrite Hf2.
  rewrite list_slot_alter, list_slot_in_range by lia.
  exists m1. split; [reflexivity|]. rewrite Hf8. split; [done|].
  erewrite cached_alter by exact Hf2. by rewrite decide_True.
Qed.

(** **** [send_controller_value] *)

(** The calls [send_controller_value] can make for a controller whose
    symbol names the setter of [k]. *)
Definition sent_by (k : ctrl_key) (zctrl : zynthian_controller) (m : zynmixer)
  (e : event) : Prop :=
  e = Native (native_setter k) [PyInt (clamp_channel (midi_chan zctrl) m); value zctrl]
  ∨ ∃ cb, processor_cb m = Some cb
          ∧ e = Call cb [PyInt (clamp_channel (midi_chan zctrl) m);
                         PyStr (key_name k); value zctrl].

(** [send_controller_value] never raises, and never changes the cached
    controllers, the library attribute or the pending learn. For a symbol
    that names one of the six setters it leaves the binding table alone
    and calls nothing but the library's setter for that symbol and the
    processor callback, each at most once, with the clamped channel and the
    value; for state and midi_learn_cb, whose methods do not take three
    arguments, and for a symbol that names no method it changes nothing at
    all. Any other symbol runs a method of the base class. *)
Theorem send_controller_value_effect (zctrl : zynthian_controller) (m : zynmixer) :
  ∃ m', send_controller_value zctrl m = Returns tt m'
    ∧ zctrls m' = zctrls m
    ∧ lib_zynmixer m' = lib_zynmixer m
    ∧ midi_learn_zctrl m' = midi_learn_zctrl m
    ∧ match key_of_symbol (symbol zctrl) with
      | Some k =>
          learned_cc m' = learned_cc m
          ∧ ∃ es, trace m' = trace m ++ es ∧ NoDup es ∧ Forall (sent_by k zctrl m) es
      | None =>
          symbol zctrl = "state"%string ∨ symbol zctrl = "midi_learn_cb"%string
          ∨ inherited_set (symbol zctrl) = None →
          m' = m
      end.
Proof.
  unfold send_controller_value, try_except.
  destruct (key_of_symbol (symbol zctrl)) as [k|] eqn:Hk; simpl.
  - assert (∀ e, e = Native (native_setter k)
                       [PyInt (clamp_channel (midi_chan zctrl) m); value zctrl] →
                 sent_by k zctrl m e) as Hnative by (by left).
    assert (∀ cb, processor_cb m = Some cb →
                  sent_by k zctrl m
                    (Call cb [PyInt (clamp_channel (midi_chan zctrl) m);
                              PyStr (key_name k); value zctrl])) as Hcall
      by (intros cb Hcb; right; by exists cb).
    destruct (processor_cb m) as [cb|] eqn:Hcb; destruct (loaded m) eqn:Hl;
      destruct k; simpl;
      unfold set_level, set_balance, set_phase, set_solo, set_mono, set_ctrl, set_mute,
        mbind, M_bind, gets, lib_call, when, send_update, mret, M_ret; simpl;
      rewrite Hl; simpl; rewrite Hcb; eexists;
      (split; [reflexivity|]); (split; [reflexivity|]); (split; [reflexivity|]);
      (split; [reflexivity|]); (split; [reflexivity|]); simpl;
      first [ exists []; split; [by rewrite app_nil_r|]; split; by constructor
            | eexists [_]; split; [reflexivity|]; split;
              [apply NoDup_singleton
              | apply Forall_singleton; first [by apply Hnative | by apply Hcall] ]
            | eexists [_; _]; split; [by rewrite <- app_assoc|]; split;
              [apply NoDup_cons; split; [by intros ?%list_elem_of_singleton
                                         | apply NoDup_singleton]
              | apply Forall_cons; split; [by apply Hnative|];
                apply Forall_singleton; by apply Hcall ] ].
  - destruct (bool_decide (symbol zctrl = "state")
              || bool_decide (symbol zctrl = "midi_learn_cb")) eqn:Hargs.
    + exists m. by repeat split.
    + apply orb_false_iff in Hargs as [H1 H2].
      apply bool_decide_eq_false in H1, H2.
      destruct (inherited_set (symbol zctrl)) as [f|] eqn:Hf.
      * unfold on_learned_cc, act.
        destruct (f _ _ _ _) as [e|l]; simpl; eexists;
          (split; [reflexivity|]); repeat split; try done;
          intros [?|[?|?]]; done.
      * exists m. by repeat split.
Qed.

End MoreFacts.

Lemma mixing_keeps_midi_learn_witness :
  learned_cc (state_of (run2 (ToggleSolo 1 true) pending2)) = learned_cc pending2
  ∧ midi_learn_zctrl (state_of (run2 (ToggleSolo 1 true) pending2)) = Some (OwnCtrl 0 Mute).
Proof.
  destruct (mixing_keeps_midi_learn (ext := standin) (ToggleSolo 1 true) pending2 eq_refl)
    as (Hl & Hz & _).
  split; [exact Hl | exact Hz].
Defined.

Lemma get_learned_cc_spec_witness :
  get_learned_cc (OwnCtrl 1 Level) learned2 = Returns (Some (3, 7)) learned2
  ∧ get_learned_cc (OwnCtrl 0 Mute) learned2 = Returns None learned2.
Proof.
  assert (length (learned_cc learned2) = 16%nat) as Hlen by reflexivity.
  assert (Forall dict_wf (learned_cc learned2)) as Hwf.
  { unfold dict_wf. apply (bool_decide_unpack _). vm_compute. reflexivity. }
  destruct (get_learned_cc_spec (OwnCtrl 1 Level) learned2 Hlen Hwf) as (r1 & Hr1 & _).
  destruct (get_learned_cc_spec (OwnCtrl 0 Mute) learned2 Hlen Hwf) as (r2 & Hr2 & _).
  split.
  - rewrite Hr1. vm_compute in Hr1. injection Hr1 as <-. reflexivity.
  - rewrite Hr2. vm_compute in Hr2. injection Hr2 as <-. reflexivity.
Defined.

Lemma learn_then_get_learned_cc_witness :
  midi_learn_zctrl pending2 = Some (OwnCtrl 0 Mute)
  ∧ ∃ m', midi_control_change false 5 11 (PyInt 1) pending2 = Returns tt m'
      ∧ get_learned_cc (OwnCtrl 0 Mute) m' = Returns (Some (5, 11)) m'.
Proof.
  split; [reflexivity|].
  assert (length (learned_cc pending2) = 16%nat) as Hlen by reflexivity.
  assert (Forall dict_wf (learned_cc pending2)) as Hwf.
  { unfold dict_wf. apply (bool_decide_unpack _). vm_compute. reflexivity. }
  apply (learn_then_get_learned_cc pending2 (OwnCtrl 0 Mute) false 5 11 (PyInt 1)).
  - reflexivity.
  - exact Hlen.
  - exact Hwf.
  - lia.
  - destruct (get_learned_cc_result (OwnCtrl 0 Mute) pending2 Hlen Hwf) as (r & Hr & Hspec).
    vm_compute in Hr. injection Hr as <-. exact Hspec.
Defined.

Lemma own_code_keeps_bindings_witness :
  bound_at learned2 3 7 = Some (OwnCtrl 1 Level)
  ∧ is_Some (bound_at (state_of (run2 (MidiUnlearn (OwnCtrl 1 Level)) learned2)) 3 7)
  ∧ is_Some (bound_at (state_of (run2 (MidiUnlearnChan 1) learned2)) 3 7).
Proof.
  split; [reflexivity|]. split.
  - apply (own_code_keeps_bindings (ext := standin) (MidiUnlearn (OwnCtrl 1 Level)));
      [reflexivity | by eexists].
  - apply (own_code_keeps_bindings (ext := standin) (MidiUnlearnChan 1));
      [reflexivity | by eexists].
Defined.

Lemma destroy_keeps_library_witness :
  reachable (ext := standin) levelled2
  ∧ destroy levelled2
    = Raises AttributeError (log (Native "end" []) levelled2)
  ∧ lib_zynmixer (state_of (destroy levelled2)) = Some LibZynmixer.
Proof.
  assert (reachable (ext := standin) levelled2) as Hr.
  { exists true, None, fresh2, [SetLevel 0 (PyFloat 0.5) true]. split; reflexivity. }
  split; [exact Hr|].
  destruct (destroy_keeps_library (ext := standin) levelled2 Hr) as (Hrun & Hlib & _).
  split; [exact Hrun | exact Hlib].
Defined.

Lemma set_state_missing_entry_witness :
  (0 < length (zctrls levelled2))%nat
  ∧ ∃ m', set_state (ext := standin) ∅ true levelled2 = Returns tt m'
      ∧ cached m' 0 Level = standin_reset_value <$> cached levelled2 0 Level.
Proof.
  split; [vm_compute; lia|].
  apply (set_state_missing_entry (ext := standin) ∅ true levelled2 0 Level).
  - vm_compute. lia.
  - vm_compute. reflexivity.
Defined.

Lemma reset_resets_strip_witness :
  shape (ext := standin) levelled2
  ∧ ∃ m', reset (ext := standin) (PyInt 5) levelled2 = Returns tt m'
      ∧ ∀ c' k,
          cached m' c' k
          = if decide (c' = Z.to_nat (Z.min 5 (MAX_NUM_CHANNELS levelled2)))
            then standin_reset_value <$> cached levelled2 c' k
            else cached levelled2 c' k.
Proof.
  assert (shape (ext := standin) levelled2) as Hsh by (split; reflexivity).
  split; [exact Hsh|].
  destruct (reset_resets_strip (ext := standin) (PyInt 5) levelled2 Hsh) as [_ Hint].
  apply (Hint 5); [reflexivity | lia].
Defined.

Lemma reset_state_resets_all_witness :
  reachable (ext := standin) destroyed2
  ∧ ∃ m', reset_state (ext := standin) destroyed2 = Returns tt m'
      ∧ ∀ c k, cached m' c k = standin_reset_value <$> cached destroyed2 c k.
Proof.
  assert (reachable (ext := standin) destroyed2) as Hr.
  { exists true, None, fresh2, [SetLevel 0 (PyFloat 0.5) true; Destroy].
    split; reflexivity. }
  split; [exact Hr|].
  apply (reset_state_resets_all (ext := standin) destroyed2 Hr).
Defined.

Lemma setter_negative_channel_witness :
  (∃ m', setter (ext := standin) Level (-1) (PyFloat 0.5) true fresh2 = Returns tt m'
     ∧ trace m' = trace fresh2 ++ [Native "setLevel" [PyInt (-1); PyFloat 0.5]]
     ∧ cached m' 2 Level
       = (λ z, standin_set_value z (PyFloat 0.5) false) <$> cached fresh2 2 Level)
  ∧ (∃ m', setter (ext := standin) Level (-4) (PyFloat 0.5) true fresh2
           = Raises IndexError m'
     ∧ trace m' = trace fresh2 ++ [Native "setLevel" [PyInt (-4); PyFloat 0.5]]
     ∧ zctrls m' = zctrls fresh2).
Proof.
  assert (reachable (ext := standin) fresh2) as Hr.
  { exists true, None, fresh2, []. split; reflexivity. }
  split.
  - destruct (setter_negative_channel (ext := standin) fresh2 Level (-1) (PyFloat 0.5) Hr)
      as [Hin _]; [lia|].
    apply Hin. simpl. lia.
  - destruct (setter_negative_channel (ext := standin) fresh2 Level (-4) (PyFloat 0.5) Hr)
      as [_ Hout]; [lia|].
    apply Hout. simpl. lia.
Defined.

Lemma toggle_solo_update_raises_witness :
  ∃ m', toggle_solo (ext := standin) 1 true fresh2 = Raises AttributeError m'
    ∧ trace m' = trace fresh2 ++ [Native "setSolo" [PyInt 1; PyBool true]]
    ∧ value <$> cached m' 1 Solo = Some (PyBool true).
Proof.
  assert (shape (ext := standin) fresh2) as Hsh by (split; reflexivity).
  destruct (toggle_solo_update_raises (ext := standin) fresh2 1 eq_refl Hsh eq_refl)
    as (m' & Hrun & Htr & Hval); [lia|].
  exists m'. split; [exact Hrun|]. split; [exact Htr | exact Hval].
Defined.

End Zynmixer.

